(** * Tomabechi quasi-destructive unification: a shallow embedding

    The development embeds [src/tomabechi_algorithm.py] in Rocq and checks
    the properties its specification states against the embedded code.

    Python objects live in a store: a finite map from object identities
    ([nat], what [id(obj)] returns) to [DGNode] records.  Attribute
    assignment on a node is an in-place update of the store, so aliasing
    between the input graphs and the graphs handed back is visible.
    Exceptions are outcomes that carry the store as it was when they were
    raised: a failed unification keeps every write made before the
    failure.  Python's call stack is a [depth] budget; running out of it
    is [RecursionError].

    The code is embedded twice.  In the first part a node carries its
    two arc lists by value, which is the code as it runs while the
    [comp_arc_list] of every node is held by that one field alone.  In
    the second part, [ListObjects], the lists are objects of the store
    as well, and a list that two fields hold is changed for both when
    the code extends it in place.  The properties that turn on which
    list object a call extends are stated over the second part; the
    last part proves that the two embeddings agree as long as no
    [comp_arc_list] is shared. *)

From stdpp Require Import gmap strings list fin_maps.
From Stdlib Require Import ZArith.

Local Open Scope Z_scope.

(** ** Data model *)

(** [class NodeType(Enum)] *)
Inductive NodeType := ATOMIC | LEAF | COMPLEX.

#[global] Instance NodeType_eq_dec : EqDecision NodeType.
Proof. solve_decision. Defined.

(** [class Arc]: a label and the identity of the child object.  [Arc]
    objects are never assigned to after construction, so they are kept
    by value. *)
Record Arc := mkArc { label : string; value : nat }.

#[global] Instance Arc_eq_dec : EqDecision Arc.
Proof. solve_decision. Defined.

(** [class DGNode].  [forward], [copy] and [mark] hold [None] or an object
    identity.  Here each node carries its two arc lists by value: the
    lists [default_factory] creates are held by their node alone, and
    the code assigns to neither field after construction.  A caller who
    hands one list object to two nodes is outside this view of the
    store; [ListObjects] below has the lists as objects. *)
Record DGNode := mkDGNode {
  node_type : NodeType;
  arc_list : list Arc;
  comp_arc_list : list Arc;
  forward : option nat;
  copy : option nat;
  generation : Z;
  mark : option nat;
  name : option string
}.

#[global] Instance DGNode_eq_dec : EqDecision DGNode.
Proof. solve_decision. Defined.

(** Attribute assignment, one setter per attribute the code assigns. *)
Definition set_forward (f : option nat) (nd : DGNode) : DGNode :=
  mkDGNode (node_type nd) (arc_list nd) (comp_arc_list nd) f
           (copy nd) (generation nd) (mark nd) (name nd).

Definition set_generation (g : Z) (nd : DGNode) : DGNode :=
  mkDGNode (node_type nd) (arc_list nd) (comp_arc_list nd) (forward nd)
           (copy nd) g (mark nd) (name nd).

Definition set_copy (c : option nat) (nd : DGNode) : DGNode :=
  mkDGNode (node_type nd) (arc_list nd) (comp_arc_list nd) (forward nd)
           c (generation nd) (mark nd) (name nd).

Definition set_arc_list (l : list Arc) (nd : DGNode) : DGNode :=
  mkDGNode (node_type nd) l (comp_arc_list nd) (forward nd)
           (copy nd) (generation nd) (mark nd) (name nd).

Definition set_comp_arc_list (l : list Arc) (nd : DGNode) : DGNode :=
  mkDGNode (node_type nd) (arc_list nd) l (forward nd)
           (copy nd) (generation nd) (mark nd) (name nd).

(** [list.extend] on [comp_arc_list] *)
Definition extend_comp_arc_list (l : list Arc) (nd : DGNode) : DGNode :=
  set_comp_arc_list (comp_arc_list nd ++ l) nd.

(** The exceptions the module can raise.  [UnificationFailure] is the
    module's own; the others are Python's. *)
Inductive exn :=
  | UnificationFailure
  | ValueError
  | TypeError
  | RecursionError
  | AttributeError.

#[global] Instance exn_eq_dec : EqDecision exn.
Proof. solve_decision. Defined.

(** The world: the object store, the process-wide [UnificationCounter]
    singleton, and the [shared_structures] set of the unifier. *)
Record World := mkWorld {
  heap : gmap nat DGNode;
  counter : Z;
  shared_structures : gset nat
}.

(** [UnificationCounter.__new__]: the counter starts at 10. *)
Definition initial_counter : Z := 10.

Definition empty_world : World := mkWorld ∅ initial_counter ∅.

Definition with_heap (h : gmap nat DGNode) (w : World) : World :=
  mkWorld h (counter w) (shared_structures w).

(** ** The state-and-exception monad *)

Inductive outcome (A : Type) :=
  | Ok (a : A) (w : World)
  | Raise (e : exn) (w : World).
Arguments Ok {A} a w.
Arguments Raise {A} e w.

Definition world_of {A} (o : outcome A) : World :=
  match o with Ok _ w => w | Raise _ w => w end.

Definition M (A : Type) : Type := World → outcome A.

#[global] Instance M_ret : MRet M := λ A a w, Ok a w.

#[global] Instance M_bind : MBind M := λ A B f m w,
  match m w with
  | Ok a w' => f a w'
  | Raise e w' => Raise e w'
  end.

Definition raise {A} (e : exn) : M A := λ w, Raise e w.

Definition get_world : M World := λ w, Ok w w.

Definition modify_heap (f : gmap nat DGNode → gmap nat DGNode) : M unit :=
  λ w, Ok tt (with_heap (f (heap w)) w).

(** Reading an attribute of the object [r]: an identity the store does
    not map to a [DGNode] stands for an object of another class, which
    has none of the attributes. *)
Definition get_node (r : nat) : M DGNode := λ w,
  match heap w !! r with
  | Some nd => Ok nd w
  | None => Raise AttributeError w
  end.

(** [obj.attr = v] *)
Definition assign (r : nat) (f : DGNode → DGNode) : M unit :=
  modify_heap (alter f r).

(** [for x in xs: body(x)] *)
Fixpoint for_each {A} (xs : list A) (body : A → M unit) : M unit :=
  match xs with
  | [] => mret tt
  | x :: xs' => _ ← body x; for_each xs' body
  end.

(** [try: body except UnificationFailure: handler] *)
Definition try_except_UnificationFailure {A} (body handler : M A) : M A :=
  λ w, match body w with
       | Raise UnificationFailure w' => handler w'
       | o => o
       end.

(** [UnificationCounter.next_generation] *)
Definition next_generation : M Z := λ w,
  let c := counter w + 1 in
  Ok c (mkWorld (heap w) c (shared_structures w)).

(** Constructing a [DGNode]: a new object with a new identity. *)
Definition alloc (nd : DGNode) : M nat := λ w,
  let r := fresh (dom (heap w)) in
  Ok r (with_heap (<[r := nd]> (heap w)) w).

(** ** [DGNode.__eq__] and [in]

    [@dataclass] generates [__eq__] for [DGNode]: two nodes are equal
    when the tuples of their fields are, compared left to right, each
    pair by identity first and by [==] otherwise, stopping at the first
    pair that differs.  [Arc.__eq__] compares labels only.  Following
    [forward], [copy] or [mark] into another node is a nested call:
    [None] below is [RecursionError]. *)

Definition and_then (c k : option bool) : option bool :=
  match c with
  | Some true => k
  | other => other
  end.

Definition attr_eq (rec : nat → nat → option bool) (h : gmap nat DGNode)
    (x y : option nat) : option bool :=
  match x, y with
  | None, None => Some true
  | Some a, Some b =>
      if decide (a = b) then Some true
      else match h !! a, h !! b with
           | Some _, Some _ => rec a b
           | _, _ => Some false
           end
  | _, _ => Some false
  end.

Fixpoint DGNode_eq (depth : nat) (h : gmap nat DGNode) (a b : nat) : option bool :=
  match depth with
  | O => None
  | S d =>
      match h !! a, h !! b with
      | Some na, Some nb =>
          and_then (Some (bool_decide (node_type na = node_type nb)))
         (and_then (Some (bool_decide (label <$> arc_list na = label <$> arc_list nb)))
         (and_then (Some (bool_decide (label <$> comp_arc_list na = label <$> comp_arc_list nb)))
         (and_then (attr_eq (DGNode_eq d h) h (forward na) (forward nb))
         (and_then (attr_eq (DGNode_eq d h) h (copy na) (copy nb))
         (and_then (Some (bool_decide (generation na = generation nb)))
         (and_then (attr_eq (DGNode_eq d h) h (mark na) (mark nb))
                   (Some (bool_decide (name na = name nb)))))))))
      | _, _ => Some false
      end
  end.

(** [x in path] on a list of nodes: identity first, then [==]. *)
Fixpoint list_contains (depth : nat) (h : gmap nat DGNode)
    (l : list nat) (x : nat) : option bool :=
  match l with
  | [] => Some false
  | e :: l' =>
      if decide (e = x) then Some true
      else match DGNode_eq depth h e x with
           | None => None
           | Some true => Some true
           | Some false => list_contains depth h l' x
           end
  end.

(** ** [TomabechiUnifier.dereference] *)

(** The [while current.forward is not None] loop.  It appends a node to
    [path] only when [current in path] is false, so [path] never holds
    the same object twice and the loop body runs at most once per object
    of the store: [fuel] is set to that bound by [dereference], and the
    branch that runs out of it is never taken
    ([deref_walk_fuel_irrelevant]). *)
Fixpoint deref_walk (fuel depth : nat) (h : gmap nat DGNode)
    (current : nat) (path : list nat) : exn + nat * list nat :=
  match h !! current with
  | None => inl AttributeError
  | Some nd =>
      match forward nd with
      | None => inr (current, path)
      | Some next =>
          match list_contains depth h path current with
          | None => inl RecursionError
          | Some true => inl ValueError
          | Some false =>
              match fuel with
              | O => inl ValueError
              | S fuel' => deref_walk fuel' depth h next (path ++ [current])
              end
          end
      end
  end.

Definition dereference (depth : nat) (node : nat) : M nat := λ w,
  match deref_walk (size (heap w)) depth (heap w) node [] with
  | inl e => Raise e w
  | inr (current, path) =>
      (_ ← for_each path (λ node_in_path,
                            assign node_in_path (set_forward (Some current)));
       mret current) w
  end.

(** ** Node tests and arc operations *)

Definition is_leaf_node (nd : DGNode) : bool :=
  bool_decide (node_type nd = LEAF).

Definition is_complex_node (nd : DGNode) : bool :=
  bool_decide (node_type nd = COMPLEX).

Fixpoint find_arc (lbl : string) (arcs : list Arc) : option Arc :=
  match arcs with
  | [] => None
  | arc :: rest => if decide (label arc = lbl) then Some arc else find_arc lbl rest
  end.

(** [{arc.label for arc in arcs}] *)
Definition labels_of (arcs : list Arc) : gset string :=
  list_to_set (label <$> arcs).

Definition intersect_arcs (arcs1 arcs2 : list Arc) : list Arc :=
  let labels1 := labels_of arcs1 in
  foldl (λ shared arc2,
           if decide (label arc2 ∈ labels1) then shared ++ [arc2] else shared)
        [] arcs2.

Definition complement_arcs (arcs1 arcs2 : list Arc) : list Arc :=
  let labels2 := labels_of arcs2 in
  foldl (λ complement arc1,
           if decide (label arc1 ∉ labels2) then complement ++ [arc1]
           else complement)
        [] arcs1.

(** ** [TomabechiUnifier.unify_core] *)

Fixpoint unify_core (depth : nat) (node1 node2 : nat) : M bool :=
  match depth with
  | O => raise RecursionError
  | S d =>
      dg1 ← dereference d node1;
      dg2 ← dereference d node2;
      if decide (dg1 = dg2) then mret true
      else
        nd1 ← get_node dg1;
        nd2 ← get_node dg2;
        if is_leaf_node nd1 && is_leaf_node nd2 then
          if decide (name nd1 = name nd2) then mret true
          else raise UnificationFailure
        else if is_leaf_node nd1 then
          _ ← assign dg1 (set_forward (Some dg2));
          g ← next_generation;
          _ ← assign dg1 (set_generation g);
          mret true
        else if is_leaf_node nd2 then
          _ ← assign dg2 (set_forward (Some dg1));
          g ← next_generation;
          _ ← assign dg2 (set_generation g);
          mret true
        else
          let shared_arcs := intersect_arcs (arc_list nd1) (arc_list nd2) in
          let new_arcs := complement_arcs (arc_list nd2) (arc_list nd1) in
          match shared_arcs with
          | [] =>
              _ ← assign dg1 (extend_comp_arc_list new_arcs);
              g ← next_generation;
              _ ← assign dg1 (set_generation g);
              _ ← assign dg1 (set_forward (Some dg2));
              mret true
          | _ :: _ =>
              _ ← for_each shared_arcs (λ arc,
                    cur1 ← get_node dg1;
                    match find_arc (label arc) (arc_list cur1) with
                    | Some arc1 =>
                        _ ← unify_core d (value arc1) (value arc); mret tt
                    | None => mret tt
                    end);
              _ ← assign dg1 (extend_comp_arc_list new_arcs);
              g ← next_generation;
              _ ← assign dg1 (set_generation g);
              _ ← assign dg1 (set_forward (Some dg2));
              mret true
          end
  end.

(** ** [TomabechiUnifier.copy_with_comp_arcs]

    [shared_structures] is a [WeakSet].  Its [__contains__] and [add]
    hash the item.  [DGNode] is a [@dataclass] with the default
    [eq=True] and without [frozen] or [unsafe_hash], so its [__hash__]
    is [None] and hashing a node raises [TypeError].  The item is a
    [DGNode] whenever [unify] gets this far: [unify_core] has
    dereferenced it. *)

Definition DGNode_hash (item : nat) : M Z := raise TypeError.

Definition WeakSet_contains (item : nat) : M bool :=
  _ ← DGNode_hash item;
  w ← get_world;
  mret (bool_decide (item ∈ shared_structures w)).

Definition insert_shared (item : nat) : M unit := λ w,
  Ok tt (mkWorld (heap w) (counter w) ({[item]} ∪ shared_structures w)).

Definition WeakSet_add (item : nat) : M unit :=
  _ ← DGNode_hash item;
  insert_shared item.

Definition copy_with_comp_arcs (structure_sharing : bool) (node : nat) : M nat :=
  cached ← (if structure_sharing then WeakSet_contains node else mret false);
  if (cached : bool) then
    nd ← get_node node;
    mret (match copy nd with Some c => c | None => node end)
  else
    nd ← get_node node;
    new_node ← alloc (mkDGNode (node_type nd) (arc_list nd) (comp_arc_list nd)
                               None None 0 None (name nd));
    nn ← get_node new_node;
    _ ← assign new_node (set_arc_list (arc_list nn ++ comp_arc_list nn));
    _ ← assign new_node (set_comp_arc_list []);
    _ ← (if structure_sharing then
           _ ← assign node (set_copy (Some new_node));
           WeakSet_add node
         else mret tt);
    mret new_node.

(** ** [TomabechiUnifier.unify] *)

Definition unify (structure_sharing : bool) (depth : nat)
    (node1 node2 : nat) : M (option nat) :=
  try_except_UnificationFailure
    (ok ← unify_core depth node1 node2;
     if (ok : bool) then
       result ← copy_with_comp_arcs structure_sharing node1;
       mret (Some result)
     else mret None)
    (mret None).

(** ** Constructors *)

(** [DGNode(NodeType.LEAF, name=name)] and
    [DGNode(NodeType.COMPLEX, arc_list=arcs)], the other fields at their
    defaults. *)
Definition leaf_node (nm : string) : DGNode :=
  mkDGNode LEAF [] [] None None 0 None (Some nm).

Definition complex_node (arcs : list Arc) : DGNode :=
  mkDGNode COMPLEX arcs [] None None 0 None None.

Definition create_leaf_node (nm : string) : M nat :=
  alloc (leaf_node nm).

Definition create_complex_node (arcs : list Arc) : M nat :=
  alloc (complex_node arcs).

(** A world holding the given objects, with the counter and the unifier
    as they are when the module has just been loaded. *)
Definition world_with (objects : list (nat * DGNode)) : World :=
  mkWorld (list_to_map objects) initial_counter ∅.

(** Modelled from the spec: the optional [equal(n1, n2)] operation of the
    external interface, structural equality modulo arc order, which the
    source does not define.  Two nodes, each in its own store, are equal
    when they have the same type and name and carry the same labels,
    with equal children under each label. *)
Fixpoint equal (depth : nat) (h1 : gmap nat DGNode) (n1 : nat)
    (h2 : gmap nat DGNode) (n2 : nat) : bool :=
  match depth with
  | O => false
  | S d =>
      match h1 !! n1, h2 !! n2 with
      | Some a, Some b =>
          bool_decide (node_type a = node_type b)
          && bool_decide (name a = name b)
          && bool_decide (length (arc_list a) = length (arc_list b))
          && forallb (λ arc,
                        match find_arc (label arc) (arc_list b) with
                        | Some arc' => equal d h1 (value arc) h2 (value arc')
                        | None => false
                        end)
                     (arc_list a)
      | _, _ => false
      end
  end.

(** * Properties *)

Local Open Scope nat_scope.

(** ** The monad: unfolding equations *)

Lemma bind_unfold {A B} (m : M A) (k : A → M B) (w : World) :
  (m ≫= k) w = match m w with
               | Ok a w' => k a w'
               | Raise e w' => Raise e w'
               end.
Proof. reflexivity. Qed.

Lemma bind_Ok {A B} (m : M A) (k : A → M B) w a w' :
  m w = Ok a w' → (m ≫= k) w = k a w'.
Proof. intros H. rewrite bind_unfold, H. reflexivity. Qed.

Lemma bind_Raise {A B} (m : M A) (k : A → M B) w e w' :
  m w = Raise e w' → (m ≫= k) w = Raise e w'.
Proof. intros H. rewrite bind_unfold, H. reflexivity. Qed.

Lemma get_node_Some r w nd :
  heap w !! r = Some nd → get_node r w = Ok nd w.
Proof. intros H. unfold get_node. rewrite H. reflexivity. Qed.

Lemma with_heap_id w : with_heap (heap w) w = w.
Proof. destruct w; reflexivity. Qed.

(** ** Arc operations (C5) *)

Section ArcOperations.

Implicit Types arcs : list Arc.

Lemma intersect_loop arcs1 arcs2 acc :
  foldl (λ shared arc2,
           if decide (label arc2 ∈ labels_of arcs1) then shared ++ [arc2]
           else shared) acc arcs2
  = acc ++ filter (λ arc2, label arc2 ∈ labels_of arcs1) arcs2.
Proof.
  revert acc. induction arcs2 as [|b arcs2 IH]; intros acc; simpl.
  - by rewrite app_nil_r.
  - rewrite IH, filter_cons. destruct (decide (label b ∈ labels_of arcs1)).
    + by rewrite <- app_assoc.
    + done.
Qed.

Lemma intersect_arcs_filter arcs1 arcs2 :
  intersect_arcs arcs1 arcs2
  = filter (λ arc2, label arc2 ∈ labels_of arcs1) arcs2.
Proof. unfold intersect_arcs. by rewrite intersect_loop. Qed.

Lemma complement_loop arcs1 arcs2 acc :
  foldl (λ complement arc1,
           if decide (label arc1 ∉ labels_of arcs2) then complement ++ [arc1]
           else complement) acc arcs1
  = acc ++ filter (λ arc1, label arc1 ∉ labels_of arcs2) arcs1.
Proof.
  revert acc. induction arcs1 as [|a arcs1 IH]; intros acc; simpl.
  - by rewrite app_nil_r.
  - rewrite IH, filter_cons. destruct (decide (label a ∉ labels_of arcs2)).
    + by rewrite <- app_assoc.
    + done.
Qed.

Lemma complement_arcs_filter arcs1 arcs2 :
  complement_arcs arcs1 arcs2
  = filter (λ arc1, label arc1 ∉ labels_of arcs2) arcs1.
Proof. unfold complement_arcs. by rewrite complement_loop. Qed.

Lemma elem_of_labels_of lbl arcs :
  lbl ∈ labels_of arcs ↔ ∃ arc, arc ∈ arcs ∧ label arc = lbl.
Proof.
  unfold labels_of. rewrite elem_of_list_to_set, list_elem_of_fmap.
  split; intros (arc & H1 & H2); exists arc; by split.
Qed.

Lemma find_arc_Some lbl arcs :
  lbl ∈ labels_of arcs →
  ∃ arc1, find_arc lbl arcs = Some arc1 ∧ label arc1 = lbl ∧ arc1 ∈ arcs.
Proof.
  rewrite elem_of_labels_of. intros (arc & Hin & Hl).
  induction arcs as [|a arcs IH]; [by apply elem_of_nil in Hin|].
  simpl. destruct (decide (label a = lbl)) as [Heq|Hne].
  - exists a. split_and!; [done|done|left].
  - apply elem_of_cons in Hin as [->|Hin]; [done|].
    destruct (IH Hin) as (arc1 & ? & ? & ?).
    exists arc1. split_and!; [done|done|by right].
Qed.

Lemma find_arc_None lbl arcs :
  lbl ∉ labels_of arcs → find_arc lbl arcs = None.
Proof.
  rewrite elem_of_labels_of. intros Hno.
  induction arcs as [|a arcs IH]; [done|].
  simpl. destruct (decide (label a = lbl)) as [Heq|Hne].
  - exfalso. apply Hno. exists a. split; [left|done].
  - apply IH. intros (arc & ? & ?). apply Hno. exists arc. split; [by right|done].
Qed.

(** No label of [arcs1] occurs in [arcs2]. *)
Definition disjoint_labels arcs1 arcs2 : Prop :=
  ∀ arc, arc ∈ arcs2 → label arc ∉ labels_of arcs1.

Lemma intersect_arcs_disjoint arcs1 arcs2 :
  disjoint_labels arcs1 arcs2 → intersect_arcs arcs1 arcs2 = [].
Proof.
  intros Hd. rewrite intersect_arcs_filter.
  induction arcs2 as [|b arcs2 IH]; [done|].
  rewrite filter_cons. destruct (decide (label b ∈ labels_of arcs1)) as [Hin|_].
  - exfalso. by apply (Hd b); [left|].
  - apply IH. intros arc ?. apply Hd. by right.
Qed.

Lemma complement_arcs_disjoint arcs1 arcs2 :
  disjoint_labels arcs2 arcs1 → complement_arcs arcs1 arcs2 = arcs1.
Proof.
  intros Hd. rewrite complement_arcs_filter.
  induction arcs1 as [|a arcs1 IH]; [done|].
  rewrite filter_cons. destruct (decide (label a ∉ labels_of arcs2)) as [_|Hin].
  - f_equal. apply IH. intros arc ?. apply Hd. by right.
  - exfalso. apply Hin. apply (Hd a). left.
Qed.

Lemma disjoint_labels_sym arcs1 arcs2 :
  disjoint_labels arcs1 arcs2 → disjoint_labels arcs2 arcs1.
Proof.
  intros Hd a Ha Hin. apply elem_of_labels_of in Hin as (b & Hb & Hl).
  apply (Hd b Hb). rewrite Hl. apply elem_of_labels_of. by exists a.
Qed.

End ArcOperations.

(** The spec's wording of intersect-by-label: the arcs of [A] whose label
    also appears in [B], in [A]'s order. *)
Definition intersect_by_label_spec (A B : list Arc) : list Arc :=
  filter (λ a, label a ∈ labels_of B) A.

(** C5, as stated, fails: on two arc lists carrying the same labels in a
    different order and with different children, [intersect_arcs] hands
    back the arcs of its second argument, in the second argument's
    order, not those of the first. *)
Lemma intersect_arcs_spec_counterexample :
  ¬ (∀ A B : list Arc, intersect_arcs A B = intersect_by_label_spec A B).
Proof.
  intros H.
  specialize (H [mkArc "f" 1; mkArc "g" 2] [mkArc "g" 3; mkArc "f" 4]).
  vm_compute in H. discriminate H.
Qed.

(** ** Writes go to scratch fields only

    [dereference] and [unify_core] assign to [forward], [generation] and
    [comp_arc_list], and to nothing else: no object is created or
    dropped, and [node_type], [name], [arc_list], [copy] and [mark] of
    every node stay as they were, on every path, failing ones
    included. *)

Definition same_primary (nd nd' : DGNode) : Prop :=
  node_type nd' = node_type nd ∧ name nd' = name nd
  ∧ arc_list nd' = arc_list nd ∧ copy nd' = copy nd ∧ mark nd' = mark nd.

Definition scratch_only (h h' : gmap nat DGNode) : Prop :=
  dom h' = dom h
  ∧ ∀ r nd nd', h !! r = Some nd → h' !! r = Some nd' → same_primary nd nd'.

Definition keeps_primary {A} (m : M A) : Prop :=
  ∀ w, scratch_only (heap w) (heap (world_of (m w))).

Create HintDb keeps discriminated.

Lemma same_primary_refl nd : same_primary nd nd.
Proof. by repeat split. Qed.

Lemma same_primary_trans a b c :
  same_primary a b → same_primary b c → same_primary a c.
Proof. unfold same_primary. intros (?&?&?&?&?) (?&?&?&?&?). split_and!; congruence. Qed.

Lemma scratch_only_refl h : scratch_only h h.
Proof.
  split; [done|]. intros r nd nd' H1 H2.
  rewrite H1 in H2. injection H2 as <-. apply same_primary_refl.
Qed.

Lemma scratch_only_lookup h h' r nd :
  scratch_only h h' → h !! r = Some nd →
  ∃ nd', h' !! r = Some nd' ∧ same_primary nd nd'.
Proof.
  intros [Hdom Hsame] Hr.
  assert (r ∈ dom h') as Hin by (rewrite Hdom; by apply elem_of_dom).
  apply elem_of_dom in Hin as [nd' Hnd']. exists nd'. split; [done|].
  by apply (Hsame r).
Qed.

Lemma scratch_only_lookup_None h h' r :
  scratch_only h h' → h !! r = None → h' !! r = None.
Proof.
  intros [Hdom _] Hr. apply not_elem_of_dom. rewrite Hdom.
  by apply not_elem_of_dom.
Qed.

Lemma scratch_only_trans h1 h2 h3 :
  scratch_only h1 h2 → scratch_only h2 h3 → scratch_only h1 h3.
Proof.
  intros H12 H23. split.
  - destruct H12 as [Hd12 _], H23 as [Hd23 _]. by rewrite Hd23, Hd12.
  - intros r nd nd3 H1 H3.
    destruct (scratch_only_lookup _ _ _ _ H12 H1) as (nd2 & H2 & Hs).
    eapply same_primary_trans; [exact Hs|].
    destruct H23 as [_ H23]. by apply (H23 r).
Qed.

Lemma scratch_only_alter h r f :
  (∀ nd, same_primary nd (f nd)) → scratch_only h (alter f r h).
Proof.
  intros Hf. split; [apply dom_alter_L|].
  intros q nd nd' Hq. destruct (decide (r = q)) as [->|Hne].
  - rewrite lookup_alter_eq, Hq. simpl. intros [= <-]. apply Hf.
  - rewrite lookup_alter_ne, Hq by done. intros [= <-]. apply same_primary_refl.
Qed.

Lemma keeps_primary_ret {A} (a : A) : keeps_primary (mret a).
Proof. intros w. apply scratch_only_refl. Qed.

Lemma keeps_primary_raise {A} e : keeps_primary (@raise A e).
Proof. intros w. apply scratch_only_refl. Qed.

Lemma keeps_primary_bind {A B} (m : M A) (k : A → M B) :
  keeps_primary m → (∀ a, keeps_primary (k a)) → keeps_primary (m ≫= k).
Proof.
  intros Hm Hk w. rewrite bind_unfold. specialize (Hm w).
  destruct (m w) as [a w'|e w']; simpl in *; [|done].
  eapply scratch_only_trans; [exact Hm|]. apply Hk.
Qed.

Lemma keeps_primary_get_node r : keeps_primary (get_node r).
Proof.
  intros w. unfold get_node. destruct (heap w !! r); apply scratch_only_refl.
Qed.

Lemma keeps_primary_assign r f :
  (∀ nd, same_primary nd (f nd)) → keeps_primary (assign r f).
Proof. intros Hf w. simpl. by apply scratch_only_alter. Qed.

Lemma keeps_primary_next_generation : keeps_primary next_generation.
Proof. intros w. apply scratch_only_refl. Qed.

Lemma keeps_primary_for_each {A} (xs : list A) (body : A → M unit) :
  (∀ x, keeps_primary (body x)) → keeps_primary (for_each xs body).
Proof.
  intros Hb. induction xs as [|x xs IH]; simpl.
  - apply keeps_primary_ret.
  - apply keeps_primary_bind; [apply Hb|]. intros _. apply IH.
Qed.

Lemma same_primary_set_forward f nd : same_primary nd (set_forward f nd).
Proof. by repeat split. Qed.

Lemma same_primary_set_generation g nd : same_primary nd (set_generation g nd).
Proof. by repeat split. Qed.

Lemma same_primary_extend_comp l nd : same_primary nd (extend_comp_arc_list l nd).
Proof. by repeat split. Qed.

#[local] Hint Resolve keeps_primary_ret keeps_primary_raise
  keeps_primary_get_node keeps_primary_next_generation
  same_primary_set_forward same_primary_set_generation
  same_primary_extend_comp : keeps.
#[local] Hint Extern 2 (keeps_primary (assign _ _)) =>
  apply keeps_primary_assign; intros : keeps.
#[local] Hint Extern 3 (keeps_primary (_ ≫= _)) =>
  apply keeps_primary_bind; [|intros] : keeps.

Lemma keeps_primary_dereference depth node :
  keeps_primary (dereference depth node).
Proof.
  intros w. unfold dereference.
  destruct (deref_walk _ _ _ _ _) as [e|[current path]].
  - apply scratch_only_refl.
  - apply (keeps_primary_bind
             (for_each path (λ q, assign q (set_forward (Some current))))
             (λ _, mret current)); [|auto with keeps].
    apply keeps_primary_for_each. auto with keeps.
Qed.

#[local] Hint Resolve keeps_primary_dereference : keeps.

Lemma keeps_primary_unify_core depth node1 node2 :
  keeps_primary (unify_core depth node1 node2).
Proof.
  revert node1 node2. induction depth as [|d IH]; intros node1 node2; simpl.
  - auto with keeps.
  - apply keeps_primary_bind; [auto with keeps|]. intros dg1.
    apply keeps_primary_bind; [auto with keeps|]. intros dg2.
    destruct (decide (dg1 = dg2)); [auto with keeps|].
    apply keeps_primary_bind; [auto with keeps|]. intros nd1.
    apply keeps_primary_bind; [auto with keeps|]. intros nd2.
    destruct (is_leaf_node nd1 && is_leaf_node nd2).
    { destruct (decide (name nd1 = name nd2)); auto with keeps. }
    destruct (is_leaf_node nd1); [auto 10 with keeps|].
    destruct (is_leaf_node nd2); [auto 10 with keeps|].
    assert (∀ l, keeps_primary (for_each l (λ arc,
              cur1 ← get_node dg1;
              match find_arc (label arc) (arc_list cur1) with
              | Some arc1 => _ ← unify_core d (value arc1) (value arc); mret tt
              | None => mret tt
              end))) as Hloop.
    { intros l. apply keeps_primary_for_each. intros arc.
      apply keeps_primary_bind; [auto with keeps|]. intros cur1.
      destruct (find_arc _ _); [|auto with keeps].
      apply keeps_primary_bind; [apply IH|auto with keeps]. }
    destruct (intersect_arcs _ _) as [|a l].
    + auto 12 with keeps.
    + apply keeps_primary_bind; [apply Hloop|]. intros _. auto 12 with keeps.
Qed.

(** ** Dereference (C8) *)

(** [fwd_chain h n path r]: following [forward] from [n] visits the nodes
    of [path], each of which has a [forward], and ends at [r], which has
    none.  A node has such a chain exactly when no cycle is reachable
    from it along [forward]. *)
Inductive fwd_chain (h : gmap nat DGNode) : nat → list nat → nat → Prop :=
  | fwd_chain_end r nd :
      h !! r = Some nd → forward nd = None → fwd_chain h r [] r
  | fwd_chain_step n nd next path r :
      h !! n = Some nd → forward nd = Some next →
      fwd_chain h next path r → fwd_chain h n (n :: path) r.

Section Dereference.

Variable h : gmap nat DGNode.

Lemma fwd_chain_functional n p r p' r' :
  fwd_chain h n p r → fwd_chain h n p' r' → p = p' ∧ r = r'.
Proof.
  intros H. revert p' r'.
  induction H as [r nd Hr Hf|n nd next path r Hn Hf _ IH]; intros p' r' H';
    inversion H' as [? nd' Hr' Hf'|? nd' next' path' ? Hn' Hf' Hc']; subst.
  - done.
  - rewrite Hr in Hn'. injection Hn' as <-. congruence.
  - rewrite Hn in Hr'. injection Hr' as <-. congruence.
  - rewrite Hn in Hn'. injection Hn' as <-.
    rewrite Hf in Hf'. injection Hf' as <-.
    destruct (IH _ _ Hc') as [-> ->]. done.
Qed.

Lemma fwd_chain_lookup n p r :
  fwd_chain h n p r → is_Some (h !! n).
Proof. by intros [? nd ->|? nd ? ? ? ->]. Qed.

Lemma fwd_chain_rep n p r :
  fwd_chain h n p r → ∃ nd, h !! r = Some nd ∧ forward nd = None.
Proof. induction 1; eauto. Qed.

(** Every node of the path starts a strictly shorter chain's worth of
    the same walk. *)
Lemma fwd_chain_suffix n p r q :
  fwd_chain h n p r → q ∈ p →
  ∃ p', fwd_chain h q p' r ∧ length p' ≤ length p ∧ 0 < length p'.
Proof.
  induction 1 as [|n nd next path r Hn Hf Hc IH]; intros Hq.
  - by apply elem_of_nil in Hq.
  - apply elem_of_cons in Hq as [->|Hq].
    + exists (n :: path). split_and!; [by econstructor|done|simpl; lia].
    + destruct (IH Hq) as (p' & ? & ? & ?). exists p'. simpl.
      split_and!; [done|lia|done].
Qed.

Lemma fwd_chain_NoDup n p r : fwd_chain h n p r → NoDup p.
Proof.
  induction 1 as [|n nd next path r Hn Hf Hc IH]; constructor; [|done].
  intros Hin. destruct (fwd_chain_suffix _ _ _ _ Hc Hin) as (p' & Hp' & Hle & _).
  assert (fwd_chain h n (n :: path) r) as Hfull by (by econstructor).
  destruct (fwd_chain_functional _ _ _ _ _ Hfull Hp') as [<- _].
  simpl in Hle. lia.
Qed.

Lemma fwd_chain_length n p r : fwd_chain h n p r → length p ≤ size h.
Proof.
  intros Hc. rewrite <- (size_dom (D := gset nat)).
  unfold size, set_size. simpl.
  apply submseteq_length, NoDup_submseteq; [by eapply fwd_chain_NoDup|].
  intros q Hq. apply elem_of_elements, elem_of_dom.
  destruct (fwd_chain_suffix _ _ _ _ Hc Hq) as (p' & Hp' & _).
  by eapply fwd_chain_lookup.
Qed.

(** Two nodes whose chains have different lengths are never [==]: the
    comparison runs down both chains and reaches [None] on one side
    first, unless an earlier field already differs. *)
Lemma DGNode_eq_chain_false depth a b pa ra pb rb :
  fwd_chain h a pa ra → fwd_chain h b pb rb →
  length pa ≠ length pb →
  length pa `min` length pb < depth →
  DGNode_eq depth h a b = Some false.
Proof.
  revert a b pa pb. induction depth as [|d IH]; intros a b pa pb Ha Hb Hne Hd; [lia|].
  inversion Ha as [? na Hla Hfa|? na a' pa' ? Hla Hfa Hca]; subst;
    inversion Hb as [? nb Hlb Hfb|? nb b' pb' ? Hlb Hfb Hcb]; subst;
    [done| | |]; simpl; rewrite Hla, Hlb; unfold and_then;
    (destruct (bool_decide (node_type na = node_type nb)); [|done]);
    (destruct (bool_decide (label <$> arc_list na = label <$> arc_list nb));
       [|done]);
    (destruct (bool_decide (label <$> comp_arc_list na
                            = label <$> comp_arc_list nb)); [|done]);
    rewrite Hfa, Hfb; simpl; [done|done|].
  destruct (decide (a' = b')) as [->|Hab].
  { destruct (fwd_chain_functional _ _ _ _ _ Hca Hcb) as [-> _]. done. }
  destruct (fwd_chain_lookup _ _ _ Hca) as [? ->].
  destruct (fwd_chain_lookup _ _ _ Hcb) as [? ->].
  rewrite (IH a' b' pa' pb'); [done|done|done|simpl in *; lia|simpl in *; lia].
Qed.

Lemma list_contains_chain_false depth pre x px rx :
  fwd_chain h x px rx →
  (∀ e, e ∈ pre → ∃ pe re, fwd_chain h e pe re ∧ length px < length pe) →
  length px < depth →
  list_contains depth h pre x = Some false.
Proof.
  intros Hx Hpre Hd. induction pre as [|e pre IH]; [done|].
  simpl. destruct (Hpre e) as (pe & re & He & Hlt); [left|].
  destruct (decide (e = x)) as [->|Hne].
  { destruct (fwd_chain_functional _ _ _ _ _ Hx He) as [<- _]. lia. }
  rewrite (DGNode_eq_chain_false depth e x pe re px rx); [|done|done|lia|lia].
  apply IH. intros e' He'. apply Hpre. by right.
Qed.

(** On a chain the walk returns the end of the chain and the visited
    nodes, whatever was on [path] before, as long as those nodes are
    further away from the end. *)
Lemma deref_walk_chain fuel depth n p r pre :
  fwd_chain h n p r →
  (∀ e, e ∈ pre → ∃ pe re, fwd_chain h e pe re ∧ length p < length pe) →
  length p < depth → length p ≤ fuel →
  deref_walk fuel depth h n pre = inr (r, pre ++ p).
Proof.
  intros Hc. revert fuel pre.
  induction Hc as [r nd Hr Hf|n nd next path r Hn Hf Hc IH];
    intros fuel pre Hpre Hd Hfuel.
  - destruct fuel; simpl; rewrite Hr, Hf; by rewrite app_nil_r.
  - assert (fwd_chain h n (n :: path) r) as Hfull by (by econstructor).
    simpl in Hfuel. destruct fuel as [|fuel]; [lia|].
    simpl. rewrite Hn, Hf.
    rewrite (list_contains_chain_false depth pre n (n :: path) r); [|done|done|done].
    rewrite (IH fuel (pre ++ [n])).
    + by rewrite <- app_assoc.
    + intros e He. apply elem_of_app in He as [He|He].
      * destruct (Hpre e He) as (pe & re & ? & ?). exists pe, re.
        split; [done|]. simpl in *. lia.
      * apply list_elem_of_singleton in He as ->. exists (n :: path), r.
        split; [done|]. simpl. lia.
    + simpl in Hd. lia.
    + lia.
Qed.

End Dereference.

(** The bound [dereference] gives the loop is never the reason the walk
    stops: a node is appended to [path] only when it is not yet on it, so
    [path] holds distinct objects of the store, and any larger bound
    gives the same result. *)
Lemma list_contains_false_not_in depth (h : gmap nat DGNode) path x :
  list_contains depth h path x = Some false → x ∉ path.
Proof.
  induction path as [|e path IH]; simpl.
  - intros _ Hin. by apply elem_of_nil in Hin.
  - destruct (decide (e = x)) as [->|Hne]; [done|].
    destruct (DGNode_eq depth h e x) as [[|]|]; [done| |done].
    intros Hc Hin. apply elem_of_cons in Hin as [->|Hin]; [done|].
    by apply IH.
Qed.

Lemma NoDup_in_dom_length (h : gmap nat DGNode) (l : list nat) :
  NoDup l → (∀ q, q ∈ l → is_Some (h !! q)) → length l ≤ size h.
Proof.
  intros Hnd Hin. rewrite <- (size_dom (D := gset nat)).
  unfold size, set_size. simpl.
  apply submseteq_length, NoDup_submseteq; [done|].
  intros q Hq. by apply elem_of_elements, elem_of_dom, Hin.
Qed.

Lemma deref_walk_fuel fuel fuel' depth (h : gmap nat DGNode) current path :
  NoDup path → (∀ q, q ∈ path → is_Some (h !! q)) →
  size h ≤ fuel + length path → size h ≤ fuel' + length path →
  deref_walk fuel depth h current path = deref_walk fuel' depth h current path.
Proof.
  revert fuel' current path.
  induction fuel as [|fuel IH]; intros fuel' current path Hnd Hin Hf Hf'.
  - destruct fuel' as [|fuel']; [done|]. simpl.
    destruct (h !! current) as [nd|] eqn:Hc; [|done].
    destruct (forward nd) as [next|]; [|done].
    destruct (list_contains depth h path current) as [[|]|] eqn:Hl; [done| |done].
    apply list_contains_false_not_in in Hl.
    assert (length (path ++ [current]) ≤ size h) as Hlen.
    { apply NoDup_in_dom_length.
      - apply NoDup_app. split_and!; [done| |apply NoDup_singleton].
        intros q Hq ->%list_elem_of_singleton. done.
      - intros q [Hq| ->%list_elem_of_singleton]%elem_of_app; [by apply Hin|].
        by rewrite Hc. }
    rewrite length_app in Hlen. simpl in *. lia.
  - simpl. destruct (h !! current) as [nd|] eqn:Hc.
    + destruct fuel' as [|fuel']; simpl; rewrite Hc;
        (destruct (forward nd) as [next|]; [|done]);
        (destruct (list_contains depth h path current) as [[|]|] eqn:Hl;
           [done| |done]);
        apply list_contains_false_not_in in Hl;
        assert (length (path ++ [current]) ≤ size h) as Hlen
          by (apply NoDup_in_dom_length;
              [apply NoDup_app; split_and!;
                 [done
                 |by intros q Hq ->%list_elem_of_singleton
                 |apply NoDup_singleton]
              |intros q [Hq| ->%list_elem_of_singleton]%elem_of_app;
                 [by apply Hin|by rewrite Hc]]);
        rewrite length_app in Hlen; simpl in *; [lia|].
      apply IH.
      * apply NoDup_app. split_and!; [done| |apply NoDup_singleton].
        by intros q Hq ->%list_elem_of_singleton.
      * intros q [Hq| ->%list_elem_of_singleton]%elem_of_app; [by apply Hin|].
        by rewrite Hc.
      * rewrite length_app. simpl. lia.
      * rewrite length_app. simpl. lia.
    + destruct fuel'; simpl; by rewrite Hc.
Qed.

Lemma deref_walk_fuel_irrelevant fuel depth (h : gmap nat DGNode) node :
  size h ≤ fuel →
  deref_walk fuel depth h node [] = deref_walk (size h) depth h node [].
Proof.
  intros Hf. apply deref_walk_fuel.
  - apply NoDup_nil_2.
  - by intros q ?%elem_of_nil.
  - simpl. lia.
  - simpl. lia.
Qed.

(** Path compression: the [for node_in_path in path] loop. *)
Definition compress (r : nat) (path : list nat) (h : gmap nat DGNode) :
    gmap nat DGNode :=
  foldl (λ h' q, alter (set_forward (Some r)) q h') h path.

Lemma for_each_assign (path : list nat) (f : DGNode → DGNode) w :
  for_each path (λ q, assign q f) w
  = Ok tt (with_heap (foldl (λ h' q, alter f q h') (heap w) path) w).
Proof.
  revert w. induction path as [|q path IH]; intros w; simpl.
  - by rewrite with_heap_id.
  - rewrite bind_unfold. simpl. rewrite IH. reflexivity.
Qed.

Lemma lookup_foldl_alter (f : DGNode → DGNode) (path : list nat)
    (h : gmap nat DGNode) (q : nat) :
  (∀ x, f (f x) = f x) →
  foldl (λ h' q', alter f q' h') h path !! q
  = if decide (q ∈ path) then f <$> h !! q else h !! q.
Proof.
  intros Hidem. revert h. induction path as [|x path IH]; intros h; simpl.
  - destruct (decide (q ∈ [])) as [Hin|_]; [by apply elem_of_nil in Hin|done].
  - rewrite IH. destruct (decide (x = q)) as [->|Hne].
    + rewrite lookup_alter_eq.
      destruct (decide (q ∈ path)), (decide (q ∈ q :: path)) as [|Hn];
        try done.
      * destruct (h !! q); simpl; by rewrite ?Hidem.
      * exfalso. apply Hn. left.
      * exfalso. apply Hn. left.
    + rewrite lookup_alter_ne by done.
      destruct (decide (q ∈ path)) as [Hin|Hin],
               (decide (q ∈ x :: path)) as [Hin'|Hin']; try done.
      * exfalso. apply Hin'. by right.
      * exfalso. apply elem_of_cons in Hin' as [->|?]; done.
Qed.

Lemma dereference_chain depth n path r w :
  fwd_chain (heap w) n path r → length path < depth →
  dereference depth n w = Ok r (with_heap (compress r path (heap w)) w).
Proof.
  intros Hc Hd. unfold dereference.
  rewrite (deref_walk_chain (heap w) (size (heap w)) depth n path r []);
    [|done|by intros e ?%elem_of_nil|done|by eapply fwd_chain_length].
  simpl. rewrite bind_unfold, for_each_assign. reflexivity.
Qed.

(** Conversely, the walk comes back with a result only on a chain, and
    the result is the end of the chain and the nodes visited. *)
Lemma deref_walk_inv fuel depth (h : gmap nat DGNode) n pre r path :
  deref_walk fuel depth h n pre = inr (r, path) →
  ∃ p, path = pre ++ p ∧ fwd_chain h n p r.
Proof.
  revert n pre. induction fuel as [|fuel IH]; intros n pre; simpl;
    destruct (h !! n) as [nd|] eqn:Hn; try done;
    destruct (forward nd) as [next|] eqn:Hf.
  - by destruct (list_contains depth h pre n) as [[|]|].
  - intros [= <- <-]. exists []. split; [by rewrite app_nil_r|by econstructor].
  - destruct (list_contains depth h pre n) as [[|]|]; [done| |done].
    intros Hw. destruct (IH _ _ Hw) as (p & -> & Hc).
    exists (n :: p). split; [by rewrite <- app_assoc|by econstructor].
  - intros [= <- <-]. exists []. split; [by rewrite app_nil_r|by econstructor].
Qed.

Lemma dereference_inv depth n w r w' :
  dereference depth n w = Ok r w' →
  ∃ p, fwd_chain (heap w) n p r
       ∧ w' = with_heap (compress r p (heap w)) w.
Proof.
  unfold dereference.
  destruct (deref_walk _ _ _ _ _) as [e|[current path]] eqn:Hw; [done|].
  rewrite bind_unfold, for_each_assign. intros [= <- <-].
  destruct (deref_walk_inv _ _ _ _ _ _ _ Hw) as (p & -> & Hc).
  by exists p.
Qed.

Lemma dereference_representative depth r nd w :
  heap w !! r = Some nd → forward nd = None →
  dereference depth r w = Ok r w.
Proof.
  intros Hr Hf. unfold dereference.
  destruct (size (heap w)); simpl; rewrite Hr, Hf; reflexivity.
Qed.

Lemma set_forward_idem f nd : set_forward f (set_forward f nd) = set_forward f nd.
Proof. reflexivity. Qed.

Lemma lookup_compress r path h q :
  compress r path h !! q
  = if decide (q ∈ path) then set_forward (Some r) <$> h !! q else h !! q.
Proof. apply lookup_foldl_alter. intros x. apply set_forward_idem. Qed.

(** The representative of a chain is not on its path, so compression
    leaves it alone. *)
Lemma compress_representative r path h n :
  fwd_chain h n path r → compress r path h !! r = h !! r.
Proof.
  intros Hc. rewrite lookup_compress.
  destruct (decide (r ∈ path)) as [Hin|]; [|done].
  destruct (fwd_chain_rep _ _ _ _ Hc) as (ndr & Hr & Hfr).
  destruct (fwd_chain_suffix _ _ _ _ _ Hc Hin) as (p' & Hp' & _ & Hpos).
  assert (fwd_chain h r [] r) as Hend by (by econstructor).
  destruct (fwd_chain_functional _ _ _ _ _ _ Hend Hp') as [<- _].
  simpl in Hpos. lia.
Qed.

(** Dereferencing the same node a second time finds the representative
    in one step and changes nothing. *)
Lemma dereference_chain_again depth n path r w :
  fwd_chain (heap w) n path r → length path < depth →
  dereference depth n (with_heap (compress r path (heap w)) w)
  = Ok r (with_heap (compress r path (heap w)) w).
Proof.
  intros Hc Hd. set (w' := with_heap (compress r path (heap w)) w).
  destruct (fwd_chain_rep _ _ _ _ Hc) as (ndr & Hr & Hfr).
  assert (heap w' !! r = Some ndr) as Hr'.
  { change (compress r path (heap w) !! r = Some ndr).
    by rewrite (compress_representative r path (heap w) n Hc). }
  inversion Hc as [? nd Hn Hf|? nd next path' ? Hn Hf Hc']; subst.
  - by eapply dereference_representative.
  - assert (heap w' !! n = Some (set_forward (Some r) nd)) as Hn'.
    { change (compress r (n :: path') (heap w) !! n
              = Some (set_forward (Some r) nd)).
      rewrite lookup_compress, decide_True by left. by rewrite Hn. }
    assert (fwd_chain (heap w') n [n] r) as Hc1.
    { eapply fwd_chain_step; [exact Hn'|reflexivity|by econstructor]. }
    rewrite (dereference_chain depth n [n] r w' Hc1) by (simpl in *; lia).
    assert (compress r [n] (heap w') = heap w') as ->.
    { apply map_eq. intros q. rewrite lookup_compress.
      destruct (decide (q ∈ [n])) as [->%list_elem_of_singleton|]; [|done].
      by rewrite Hn'. }
    by rewrite with_heap_id.
Qed.

(** The spec's wording of path compression: every visited node ends up
    forwarded to the representative and stamped with the current
    generation. *)
Definition dereference_stamps_claim : Prop :=
  ∀ depth w n path r,
    fwd_chain (heap w) n path r → length path < depth →
    ∃ w', dereference depth n w = Ok r w'
      ∧ ∀ q, q ∈ path →
          ∃ nd, heap w' !! q = Some nd
                ∧ forward nd = Some r
                ∧ generation nd = counter w'.

(** Three leaves in a row: 0 forwards to 1, 1 forwards to 2. *)
Definition chain_world : World :=
  world_with [(0, set_forward (Some 1) (leaf_node "A"));
              (1, set_forward (Some 2) (leaf_node "A"));
              (2, leaf_node "A")].

Lemma chain_world_chain : fwd_chain (heap chain_world) 0 [0; 1] 2.
Proof.
  eapply fwd_chain_step; [reflexivity|reflexivity|].
  eapply fwd_chain_step; [reflexivity|reflexivity|].
  eapply fwd_chain_end; reflexivity.
Qed.

(** C8, as stated, fails: [dereference] assigns [forward] on the visited
    nodes and never touches [generation].  On the chain 0, 1, 2 node 0
    is re-pointed at 2 but keeps generation 0 while the counter is 10. *)
Lemma dereference_stamps_counterexample : ¬ dereference_stamps_claim.
Proof.
  intros H.
  destruct (H 100 chain_world 0 [0; 1] 2 chain_world_chain) as (w' & Hd & Hq);
    [simpl; lia|].
  assert (w' = world_of (dereference 100 0 chain_world)) as ->
    by (by rewrite Hd).
  destruct (Hq 0) as (nd & Hl & _ & Hg); [left|].
  vm_compute in Hl. injection Hl as <-. vm_compute in Hg. discriminate Hg.
Qed.

(** C8 (amended): on a node whose forward chain is acyclic, [dereference]
    returns the node at the end of the chain, the one without a
    [forward]; it re-points [forward] of every visited node at that
    node and changes nothing else: [generation] keeps its value on
    every node and the counter does not move.  Dereferencing the result,
    or the same node again, returns the same representative and leaves
    the world as it is. *)
Theorem dereference_path_compression depth w n path r :
  fwd_chain (heap w) n path r → length path < depth →
  ∃ w', dereference depth n w = Ok r w'
    ∧ counter w' = counter w
    ∧ (∀ q, heap w' !! q
            = if decide (q ∈ path)
              then set_forward (Some r) <$> heap w !! q
              else heap w !! q)
    ∧ (∀ q nd', heap w' !! q = Some nd' →
         ∃ nd, heap w !! q = Some nd ∧ generation nd' = generation nd)
    ∧ fwd_chain (heap w') r [] r
    ∧ dereference depth r w' = Ok r w'
    ∧ dereference depth n w' = Ok r w'.
Proof.
  intros Hc Hd.
  set (w' := with_heap (compress r path (heap w)) w).
  assert (∀ q, heap w' !! q
               = if decide (q ∈ path)
                 then set_forward (Some r) <$> heap w !! q
                 else heap w !! q) as Hlook
    by (intros q; apply lookup_compress).
  destruct (fwd_chain_rep _ _ _ _ Hc) as (ndr & Hr & Hfr).
  assert (heap w' !! r = Some ndr) as Hr'.
  { rewrite Hlook. destruct (decide (r ∈ path)) as [Hin|]; [|done].
    destruct (fwd_chain_suffix _ _ _ _ _ Hc Hin) as (p' & Hp' & _ & Hpos).
    assert (fwd_chain (heap w) r [] r) as Hend by (by econstructor).
    destruct (fwd_chain_functional _ _ _ _ _ _ Hend Hp') as [<- _].
    simpl in Hpos. lia. }
  exists w'. split_and!.
  - by apply dereference_chain.
  - done.
  - done.
  - intros q nd'. rewrite Hlook. destruct (decide (q ∈ path)).
    + destruct (heap w !! q) as [nd|]; [|done]. simpl. intros [= <-]. by exists nd.
    + intros ->. by exists nd'.
  - by econstructor.
  - by eapply dereference_representative.
  - by apply dereference_chain_again.
Qed.

Lemma dereference_path_compression_witness :
  ∃ w', dereference 100 0 chain_world = Ok 2 w'
    ∧ counter w' = counter chain_world
    ∧ (∀ q, heap w' !! q
            = if decide (q ∈ [0; 1])
              then set_forward (Some 2) <$> heap chain_world !! q
              else heap chain_world !! q)
    ∧ (∀ q nd', heap w' !! q = Some nd' →
         ∃ nd, heap chain_world !! q = Some nd ∧ generation nd' = generation nd)
    ∧ fwd_chain (heap w') 2 [] 2
    ∧ dereference 100 2 w' = Ok 2 w'
    ∧ dereference 100 0 w' = Ok 2 w'.
Proof.
  apply (dereference_path_compression 100 chain_world 0 [0; 1] 2).
  - exact chain_world_chain.
  - simpl. lia.
Defined.

(** ** Constructors (C9) *)

Lemma alloc_fresh nd w :
  ∃ r, alloc nd w = Ok r (with_heap (<[r := nd]> (heap w)) w)
       ∧ heap w !! r = None.
Proof.
  exists (fresh (dom (heap w))). split; [reflexivity|].
  apply not_elem_of_dom, is_fresh.
Qed.

(** The spec's wording of make-complex: an arc list with a repeated label
    is rejected with an error. *)
Definition make_complex_rejects_claim : Prop :=
  ∀ arcs w, ¬ NoDup (label <$> arcs) →
    ∃ e w', create_complex_node arcs w = Raise e w'.

(** C9, as stated, fails: [create_complex_node] has no check at all; a
    list with the label "f" twice yields a node like any other list. *)
Lemma create_complex_node_duplicates_counterexample :
  ¬ make_complex_rejects_claim.
Proof.
  intros H.
  destruct (H [mkArc "f" 0; mkArc "f" 1] empty_world) as (e & w' & Heq).
  - intros Hnd. apply NoDup_cons in Hnd as [Hnotin _]. apply Hnotin. left.
  - vm_compute in Heq. discriminate Heq.
Qed.

(** C9 (amended): [create_complex_node] never rejects its input: for every
    arc list, with or without repeated labels, it creates a new object
    that is a complex node carrying exactly that arc list, with empty
    scratch fields, and leaves every other object alone. *)
Theorem create_complex_node_accepts (arcs : list Arc) (w : World) :
  ∃ r w', create_complex_node arcs w = Ok r w'
    ∧ heap w !! r = None
    ∧ heap w' !! r = Some (complex_node arcs)
    ∧ node_type (complex_node arcs) = COMPLEX
    ∧ arc_list (complex_node arcs) = arcs
    ∧ comp_arc_list (complex_node arcs) = []
    ∧ forward (complex_node arcs) = None
    ∧ (∀ q, q ≠ r → heap w' !! q = heap w !! q).
Proof.
  destruct (alloc_fresh (complex_node arcs) w) as (r & Heq & Hfresh).
  exists r, (with_heap (<[r := complex_node arcs]> (heap w)) w).
  split_and!; try done.
  - simpl. apply lookup_insert_eq.
  - intros q Hq. simpl. by apply lookup_insert_ne.
Qed.

(** ** Copy-out (C2) *)

Lemma alter_lookup_insert (f : DGNode → DGNode) (m : gmap nat DGNode) i x :
  m !! i = Some x → alter f i m = <[i := f x]> m.
Proof.
  intros Hi. apply map_eq. intros j. destruct (decide (i = j)) as [->|Hne].
  - by rewrite lookup_alter_eq, lookup_insert_eq, Hi.
  - by rewrite lookup_alter_ne, lookup_insert_ne.
Qed.

(** The node [copy_with_comp_arcs] builds from [nd]. *)
Definition copied_node (nd : DGNode) : DGNode :=
  mkDGNode (node_type nd) (arc_list nd ++ comp_arc_list nd) []
           None None 0%Z None (name nd).

Lemma copy_with_comp_arcs_unshared node nd w :
  heap w !! node = Some nd →
  ∃ r, copy_with_comp_arcs false node w
       = Ok r (with_heap (<[r := copied_node nd]> (heap w)) w)
       ∧ heap w !! r = None.
Proof.
  intros Hn. exists (fresh (dom (heap w))).
  assert (heap w !! fresh (dom (heap w)) = None) as Hfresh
    by apply not_elem_of_dom, is_fresh.
  split; [|done].
  unfold copy_with_comp_arcs.
  rewrite bind_unfold. simpl.
  rewrite bind_unfold, (get_node_Some _ _ _ Hn).
  rewrite bind_unfold. unfold alloc.
  set (r := fresh (dom (heap w))) in *.
  rewrite bind_unfold. unfold get_node at 1. simpl.
  rewrite lookup_insert_eq.
  repeat (rewrite bind_unfold; simpl).
  rewrite !alter_insert_eq. reflexivity.
Qed.

(** Two complex nodes with one leaf child each, under different labels. *)
Definition disjoint_world : World :=
  world_with [(0, leaf_node "X"); (1, complex_node [mkArc "f" 0]);
              (2, leaf_node "Y"); (3, complex_node [mkArc "g" 2])].

(** The spec's wording of copy-out: the children are copied too, so that
    no arc of the output points at an object of the input store. *)
Definition copy_out_claim : Prop :=
  ∀ structure_sharing depth w n1 n2 r w',
    unify structure_sharing depth n1 n2 w = Ok (Some r) w' →
    ∀ nd arc, heap w' !! r = Some nd → arc ∈ arc_list nd →
      heap w !! value arc = None.

(** C2, as stated, fails: the output of the disjoint merge of nodes 1 and
    3 is a new node whose arcs point at objects 0 and 2, the very
    children of the two inputs. *)
Lemma copy_out_counterexample : ¬ copy_out_claim.
Proof.
  intros H.
  pose (o := unify false 100 1 3 disjoint_world).
  assert (o = Ok (Some 4) (world_of o)) as Ho by (vm_compute; reflexivity).
  specialize (H false 100 disjoint_world 1 3 4 (world_of o) Ho
                (complex_node [mkArc "f" 0; mkArc "g" 2]) (mkArc "f" 0)).
  assert (heap disjoint_world !! 0 = None) as Hnone.
  { apply H; [vm_compute; reflexivity|left]. }
  vm_compute in Hnone. discriminate Hnone.
Qed.

(** Copy-out works on the node it is given, not on its representative:
    a leaf that has been forwarded to a complex node is copied as a
    leaf. *)
Lemma copy_out_no_dereference :
  ∃ w', unify false 100 0 1 disjoint_world = Ok (Some 4) w'
        ∧ heap w' !! 4 = Some (leaf_node "X")
        ∧ dereference 100 0 w' = Ok 1 w'.
Proof.
  exists (world_of (unify false 100 0 1 disjoint_world)).
  split_and!; vm_compute; reflexivity.
Qed.

(** C2 (amended): with structure sharing off, copy-out of a node [n]
    works on [n] itself, without dereferencing it; it creates one new
    object, of [n]'s type and name, whose arc list is [n]'s [arc_list]
    followed by [n]'s [comp_arc_list] and whose scratch fields are
    empty.  The copy is one level deep: its arcs point at the same child
    objects as the arcs of [n].  No existing object is written to. *)
Theorem copy_with_comp_arcs_shallow (node : nat) (nd : DGNode) (w : World) :
  heap w !! node = Some nd →
  ∃ r w', copy_with_comp_arcs false node w = Ok r w'
    ∧ heap w !! r = None
    ∧ heap w' !! r = Some (copied_node nd)
    ∧ arc_list (copied_node nd) = arc_list nd ++ comp_arc_list nd
    ∧ (∀ q, q ≠ r → heap w' !! q = heap w !! q)
    ∧ counter w' = counter w.
Proof.
  intros Hn.
  destruct (copy_with_comp_arcs_unshared node nd w Hn) as (r & Heq & Hfresh).
  exists r, (with_heap (<[r := copied_node nd]> (heap w)) w).
  split_and!; try done.
  - simpl. apply lookup_insert_eq.
  - intros q Hq. simpl. by apply lookup_insert_ne.
Qed.

Lemma copy_with_comp_arcs_shallow_witness :
  ∃ r w', copy_with_comp_arcs false 1 disjoint_world = Ok r w'
    ∧ heap disjoint_world !! r = None
    ∧ heap w' !! r = Some (copied_node (complex_node [mkArc "f" 0]))
    ∧ arc_list (copied_node (complex_node [mkArc "f" 0]))
      = arc_list (complex_node [mkArc "f" 0])
        ++ comp_arc_list (complex_node [mkArc "f" 0])
    ∧ (∀ q, q ≠ r → heap w' !! q = heap disjoint_world !! q)
    ∧ counter w' = counter disjoint_world.
Proof.
  apply (copy_with_comp_arcs_shallow 1 (complex_node [mkArc "f" 0])).
  reflexivity.
Defined.

(** ** The complex-complex join without shared labels *)

Lemma assign_Ok r f w : assign r f w = Ok tt (with_heap (alter f r (heap w)) w).
Proof. reflexivity. Qed.

(** What the disjoint join leaves in [dg1]: the complement arcs appended,
    the new generation, the forward to [dg2]. *)
Definition joined_node (new_arcs : list Arc) (g : Z) (dg2 : nat)
    (nd1 : DGNode) : DGNode :=
  set_forward (Some dg2) (set_generation g (extend_comp_arc_list new_arcs nd1)).

Lemma unify_core_same d node1 node2 w w1 w2 dg :
  dereference d node1 w = Ok dg w1 →
  dereference d node2 w1 = Ok dg w2 →
  unify_core (S d) node1 node2 w = Ok true w2.
Proof.
  intros H1 H2. cbn [unify_core].
  rewrite (bind_Ok _ _ _ _ _ H1), (bind_Ok _ _ _ _ _ H2).
  by rewrite decide_True.
Qed.

Lemma unify_core_disjoint d node1 node2 w w1 w2 dg1 dg2 nd1 nd2 :
  dereference d node1 w = Ok dg1 w1 →
  dereference d node2 w1 = Ok dg2 w2 →
  dg1 ≠ dg2 →
  heap w2 !! dg1 = Some nd1 → heap w2 !! dg2 = Some nd2 →
  is_leaf_node nd1 = false → is_leaf_node nd2 = false →
  disjoint_labels (arc_list nd1) (arc_list nd2) →
  unify_core (S d) node1 node2 w
  = Ok true (mkWorld
               (<[dg1 := joined_node (arc_list nd2) (counter w2 + 1)%Z dg2 nd1]>
                  (heap w2))
               (counter w2 + 1)%Z (shared_structures w2)).
Proof.
  intros H1 H2 Hne Hn1 Hn2 Hl1 Hl2 Hdisj. cbn [unify_core].
  rewrite (bind_Ok _ _ _ _ _ H1), (bind_Ok _ _ _ _ _ H2).
  rewrite decide_False by done.
  rewrite (bind_Ok _ _ _ _ _ (get_node_Some _ _ _ Hn1)).
  rewrite (bind_Ok _ _ _ _ _ (get_node_Some _ _ _ Hn2)).
  rewrite Hl1, Hl2. cbv beta iota delta [andb].
  rewrite (intersect_arcs_disjoint _ _ Hdisj).
  rewrite (complement_arcs_disjoint _ _ Hdisj).
  repeat (rewrite bind_unfold; simpl).
  unfold with_heap. simpl. f_equal. f_equal.
  rewrite (alter_lookup_insert _ _ _ _ Hn1).
  rewrite !alter_insert_eq. reflexivity.
Qed.

Lemma disjoint_world_labels :
  disjoint_labels [mkArc "f" 0] [mkArc "g" 2].
Proof.
  intros arc ->%list_elem_of_singleton Hin.
  apply elem_of_labels_of in Hin as (a & ->%list_elem_of_singleton & Hl).
  discriminate Hl.
Qed.


(** ** The top-level entry point (C3) *)

Lemma unify_unfold structure_sharing depth node1 node2 w :
  unify structure_sharing depth node1 node2 w
  = match unify_core depth node1 node2 w with
    | Ok true w1 =>
        match copy_with_comp_arcs structure_sharing node1 w1 with
        | Ok r w2 => Ok (Some r) w2
        | Raise UnificationFailure w2 => Ok None w2
        | Raise e w2 => Raise e w2
        end
    | Ok false w1 => Ok None w1
    | Raise UnificationFailure w1 => Ok None w1
    | Raise e w1 => Raise e w1
    end.
Proof.
  unfold unify, try_except_UnificationFailure. rewrite bind_unfold.
  destruct (unify_core depth node1 node2 w) as [[|] w1|e w1];
    [|done|by destruct e].
  rewrite bind_unfold.
  by destruct (copy_with_comp_arcs structure_sharing node1 w1) as [r w2|[] w2].
Qed.

(** With structure sharing on, the membership test on the [WeakSet]
    hashes the node, which raises. *)
Lemma copy_with_comp_arcs_shared_raises node w :
  copy_with_comp_arcs true node w = Raise TypeError w.
Proof. reflexivity. Qed.

Lemma copy_with_comp_arcs_false_inv node w r w' :
  copy_with_comp_arcs false node w = Ok r w' →
  ∃ nd, heap w !! node = Some nd
        ∧ heap w !! r = None
        ∧ w' = with_heap (<[r := copied_node nd]> (heap w)) w.
Proof.
  intros Hc. destruct (heap w !! node) as [nd|] eqn:Hn.
  - destruct (copy_with_comp_arcs_unshared node nd w Hn) as (r' & Heq & Hfresh).
    rewrite Heq in Hc. injection Hc as <- <-. by exists nd.
  - unfold copy_with_comp_arcs in Hc. rewrite bind_unfold in Hc. simpl in Hc.
    rewrite bind_unfold in Hc. unfold get_node in Hc. rewrite Hn in Hc.
    discriminate Hc.
Qed.

Lemma unify_false_inv depth node1 node2 w r w' :
  unify false depth node1 node2 w = Ok (Some r) w' →
  ∃ wc nd, unify_core depth node1 node2 w = Ok true wc
           ∧ heap wc !! node1 = Some nd
           ∧ heap wc !! r = None
           ∧ w' = with_heap (<[r := copied_node nd]> (heap wc)) wc.
Proof.
  rewrite unify_unfold.
  destruct (unify_core depth node1 node2 w) as [[|] wc|[] wc]; try done.
  destruct (copy_with_comp_arcs false node1 wc) as [r' w2|[] w2] eqn:Hc; try done.
  intros [= -> ->].
  destruct (copy_with_comp_arcs_false_inv _ _ _ _ Hc) as (nd & ? & ? & ?).
  by exists wc, nd.
Qed.

Lemma unify_core_leaves d l1 l2 nd1 nd2 w :
  heap w !! l1 = Some nd1 → heap w !! l2 = Some nd2 →
  node_type nd1 = LEAF → node_type nd2 = LEAF →
  forward nd1 = None → forward nd2 = None →
  unify_core (S d) l1 l2 w
  = if decide (name nd1 = name nd2) then Ok true w
    else Raise UnificationFailure w.
Proof.
  intros Hn1 Hn2 Ht1 Ht2 Hf1 Hf2. cbn [unify_core].
  rewrite (bind_Ok _ _ _ _ _ (dereference_representative d l1 nd1 w Hn1 Hf1)).
  rewrite (bind_Ok _ _ _ _ _ (dereference_representative d l2 nd2 w Hn2 Hf2)).
  destruct (decide (l1 = l2)) as [->|Hne].
  - rewrite Hn1 in Hn2. injection Hn2 as <-. by rewrite decide_True.
  - rewrite (bind_Ok _ _ _ _ _ (get_node_Some _ _ _ Hn1)).
    rewrite (bind_Ok _ _ _ _ _ (get_node_Some _ _ _ Hn2)).
    unfold is_leaf_node. rewrite Ht1, Ht2. simpl.
    by destruct (decide (name nd1 = name nd2)).
Qed.

(** The spec's wording of the failure boundary: an invariant violation
    raised inside, such as the [ValueError] of [dereference], comes out
    of [unify] as the failure indicator. *)
Definition failure_boundary_claim : Prop :=
  ∀ structure_sharing depth w node1 node2 w',
    unify_core depth node1 node2 w = Raise ValueError w' →
    unify structure_sharing depth node1 node2 w = Ok None w'.

(** A leaf whose [forward] is itself, and another leaf. *)
Definition cyclic_world : World :=
  world_with [(0, set_forward (Some 0) (leaf_node "A")); (1, leaf_node "B")].

(** C3, as stated, fails: [unify] catches [UnificationFailure] and
    nothing else.  On a node that forwards to itself [dereference]
    raises [ValueError], and [unify] lets it through. *)
Lemma failure_boundary_counterexample : ¬ failure_boundary_claim.
Proof.
  intros H.
  specialize (H false 100 cyclic_world 0 1 cyclic_world).
  assert (unify false 100 0 1 cyclic_world = Ok None cyclic_world) as Hu
    by (apply H; vm_compute; reflexivity).
  vm_compute in Hu. discriminate Hu.
Qed.

(** Two leaves with different names, and a third with the name of the
    first. *)
Definition leaves_world : World :=
  world_with [(0, leaf_node "A"); (1, leaf_node "B"); (2, leaf_node "A")].

(** C3 (amended): [unify] maps [UnificationFailure], raised at whatever
    depth of the recursion, to [None], keeping the world as the failure
    left it; every other exception raised inside goes past it.  Two leaf
    nodes that have no [forward] unify exactly when their names are
    equal, and [unify] returns [None] on them exactly when the names
    differ. *)
Theorem unify_failure_boundary structure_sharing d node1 node2 w :
  (∀ e w', unify_core d node1 node2 w = Raise e w' →
     unify structure_sharing d node1 node2 w
     = if decide (e = UnificationFailure) then Ok None w' else Raise e w')
  ∧ (∀ nd1 nd2,
       heap w !! node1 = Some nd1 → heap w !! node2 = Some nd2 →
       node_type nd1 = LEAF → node_type nd2 = LEAF →
       forward nd1 = None → forward nd2 = None →
       (unify_core (S d) node1 node2 w = Ok true w ↔ name nd1 = name nd2)
       ∧ (unify_core (S d) node1 node2 w = Raise UnificationFailure w
          ↔ name nd1 ≠ name nd2)
       ∧ (unify structure_sharing (S d) node1 node2 w = Ok None w
          ↔ name nd1 ≠ name nd2)).
Proof.
  split.
  - intros e w' He. rewrite unify_unfold, He. by destruct e.
  - intros nd1 nd2 Hn1 Hn2 Ht1 Ht2 Hf1 Hf2.
    pose proof (unify_core_leaves d node1 node2 nd1 nd2 w
                  Hn1 Hn2 Ht1 Ht2 Hf1 Hf2) as Hcore.
    rewrite unify_unfold, Hcore.
    destruct (decide (name nd1 = name nd2)) as [Heq|Hne].
    + split_and!; split; try done.
      destruct structure_sharing.
      * rewrite copy_with_comp_arcs_shared_raises. done.
      * destruct (copy_with_comp_arcs_unshared node1 nd1 w Hn1) as (r & -> & _).
        done.
    + split_and!; split; done.
Qed.

Lemma unify_failure_boundary_witness :
  unify true 100 0 1 leaves_world = Ok None leaves_world
  ∧ unify_core 100 0 2 leaves_world = Ok true leaves_world.
Proof.
  destruct (unify_failure_boundary true 99 0 1 leaves_world) as [_ H1].
  destruct (unify_failure_boundary true 99 0 2 leaves_world) as [_ H2].
  split.
  - apply (H1 (leaf_node "A") (leaf_node "B")); try reflexivity. discriminate.
  - apply (H2 (leaf_node "A") (leaf_node "A")); reflexivity.
Defined.

(** ** Outputs of separate calls (C7) *)

(** The spec's wording of output independence: the outputs of two
    separate top-level calls are different objects and have no child
    object in common. *)
Definition independent_outputs_claim : Prop :=
  ∀ structure_sharing depth w a b c d r1 w1 r2 w2,
    unify structure_sharing depth a b w = Ok (Some r1) w1 →
    unify structure_sharing depth c d w1 = Ok (Some r2) w2 →
    r1 ≠ r2
    ∧ ∀ nd1 nd2 arc1 arc2,
        heap w2 !! r1 = Some nd1 → heap w2 !! r2 = Some nd2 →
        arc1 ∈ arc_list nd1 → arc2 ∈ arc_list nd2 →
        value arc1 ≠ value arc2.

(** C7, as stated, fails: unifying nodes 1 and 3 twice yields two new
    root objects, 4 and 5, and both have an arc to object 0, the child
    of input node 1. *)
Lemma independent_outputs_counterexample : ¬ independent_outputs_claim.
Proof.
  intros H.
  pose (o1 := unify false 100 1 3 disjoint_world).
  pose (o2 := unify false 100 1 3 (world_of o1)).
  assert (o1 = Ok (Some 4) (world_of o1)) as H1 by (vm_compute; reflexivity).
  assert (unify false 100 1 3 (world_of o1) = Ok (Some 5) (world_of o2)) as H2
    by (vm_compute; reflexivity).
  destruct (H false 100 disjoint_world 1 3 1 3 4 (world_of o1) 5 (world_of o2)
              H1 H2) as [_ Hchildren].
  apply (Hchildren (complex_node [mkArc "f" 0; mkArc "g" 2])
                   (complex_node [mkArc "f" 0; mkArc "g" 2])
                   (mkArc "f" 0) (mkArc "f" 0)).
  - vm_compute. reflexivity.
  - vm_compute. reflexivity.
  - left.
  - left.
  - reflexivity.
Qed.

(** C7 (amended): with structure sharing off, every successful top-level
    call returns a root object created by that call: it did not exist
    before the call, so it is never an object handed out earlier, and the
    [copy] field of no input is written.  Only the root is new: the arc
    list of the output is the arc list of the first operand followed by
    its complement arcs, pointing at the same child objects, so two
    outputs may share children with the inputs and with each other. *)
Theorem unify_outputs_fresh_roots depth a b c d w r1 w1 r2 w2 :
  unify false depth a b w = Ok (Some r1) w1 →
  unify false depth c d w1 = Ok (Some r2) w2 →
  r1 ≠ r2
  ∧ heap w !! r1 = None
  ∧ heap w1 !! r2 = None
  ∧ (∃ wc ndc, unify_core depth c d w1 = Ok true wc
               ∧ heap wc !! c = Some ndc
               ∧ heap w2 !! r2 = Some (copied_node ndc)
               ∧ arc_list (copied_node ndc) = arc_list ndc ++ comp_arc_list ndc)
  ∧ (∀ q nd, heap w !! q = Some nd →
       ∃ nd', heap w2 !! q = Some nd' ∧ copy nd' = copy nd).
Proof.
  intros H1 H2.
  destruct (unify_false_inv _ _ _ _ _ _ H1) as (wa & nda & Hca & Hna & Hfa & ->).
  destruct (unify_false_inv _ _ _ _ _ _ H2) as (wc & ndc & Hcc & Hnc & Hfc & ->).
  pose proof (keeps_primary_unify_core depth a b w) as Ka.
  rewrite Hca in Ka. simpl in Ka.
  pose proof (keeps_primary_unify_core depth c d
                (with_heap (<[r1:=copied_node nda]> (heap wa)) wa)) as Kc.
  rewrite Hcc in Kc. simpl in Kc.
  assert (heap w !! r1 = None) as Hr1.
  { apply not_elem_of_dom. destruct Ka as [<- _]. by apply not_elem_of_dom. }
  assert (<[r1:=copied_node nda]> (heap wa) !! r2 = None) as Hr2.
  { apply not_elem_of_dom. destruct Kc as [<- _]. by apply not_elem_of_dom. }
  split_and!.
  - intros ->. by rewrite lookup_insert_eq in Hr2.
  - done.
  - done.
  - exists wc, ndc. split_and!; [done|done| |done].
    simpl. apply lookup_insert_eq.
  - intros q nd Hq.
    destruct (scratch_only_lookup _ _ _ _ Ka Hq) as (nd1 & Hq1 & Hs1).
    assert (q ≠ r1) as Hne1 by (intros ->; congruence).
    assert (<[r1:=copied_node nda]> (heap wa) !! q = Some nd1) as Hq1'
      by (by rewrite lookup_insert_ne).
    destruct (scratch_only_lookup _ _ _ _ Kc Hq1') as (nd2 & Hq2 & Hs2).
    assert (q ≠ r2) as Hne2 by (intros ->; congruence).
    exists nd2. split.
    + simpl. by rewrite lookup_insert_ne.
    + destruct Hs1 as (_ & _ & _ & Hc1 & _), Hs2 as (_ & _ & _ & Hc2 & _).
      congruence.
Qed.

Lemma unify_outputs_fresh_roots_witness :
  4 ≠ 5
  ∧ heap disjoint_world !! 4 = None
  ∧ heap (world_of (unify false 100 1 3 disjoint_world)) !! 5 = None
  ∧ (∃ wc ndc,
       unify_core 100 1 3 (world_of (unify false 100 1 3 disjoint_world))
       = Ok true wc
       ∧ heap wc !! 1 = Some ndc
       ∧ heap (world_of (unify false 100 1 3
                           (world_of (unify false 100 1 3 disjoint_world))))
           !! 5 = Some (copied_node ndc)
       ∧ arc_list (copied_node ndc) = arc_list ndc ++ comp_arc_list ndc)
  ∧ (∀ q nd, heap disjoint_world !! q = Some nd →
       ∃ nd', heap (world_of (unify false 100 1 3
                                (world_of (unify false 100 1 3 disjoint_world))))
                !! q = Some nd'
              ∧ copy nd' = copy nd).
Proof.
  apply (unify_outputs_fresh_roots 100 1 3 1 3 disjoint_world).
  - vm_compute. reflexivity.
  - vm_compute. reflexivity.
Defined.

(** ** Who holds the complement arcs (C6) *)

Lemma dereference_direct depth n r nd ndr w :
  heap w !! n = Some nd → forward nd = Some r →
  heap w !! r = Some ndr → forward ndr = None →
  1 < depth →
  dereference depth n w = Ok r w.
Proof.
  intros Hn Hf Hr Hfr Hd.
  assert (fwd_chain (heap w) n [n] r) as Hc.
  { eapply fwd_chain_step; [exact Hn|exact Hf|by econstructor]. }
  rewrite (dereference_chain depth n [n] r w Hc) by (simpl; lia).
  assert (compress r [n] (heap w) = heap w) as ->.
  { apply map_eq. intros q. rewrite lookup_compress.
    destruct (decide (q ∈ [n])) as [->%list_elem_of_singleton|]; [|done].
    rewrite Hn. simpl. f_equal. destruct nd. simpl in Hf. by subst. }
  by rewrite with_heap_id.
Qed.

(** A node on the path of a chain has a [forward]. *)
Lemma fwd_chain_path_forward (h : gmap nat DGNode) n p r q :
  fwd_chain h n p r → q ∈ p →
  ∃ nd next, h !! q = Some nd ∧ forward nd = Some next.
Proof.
  intros Hc Hq.
  destruct (fwd_chain_suffix _ _ _ _ _ Hc Hq) as (p' & Hp' & _ & Hpos).
  inversion Hp' as [|? nd next ? ? Hl Hf _]; subst; [simpl in Hpos; lia|].
  by exists nd, next.
Qed.

(** Where the two dereferences that open [unify_core] leave the operands
    when they end at different nodes: both ends are without [forward],
    and each operand is its end or points straight at it. *)
Lemma operands_after_dereference d node1 node2 w w1 w2 dg1 dg2 :
  dereference d node1 w = Ok dg1 w1 →
  dereference d node2 w1 = Ok dg2 w2 →
  dg1 ≠ dg2 →
  (∃ nd, heap w2 !! dg1 = Some nd ∧ forward nd = None)
  ∧ (∃ nd, heap w2 !! dg2 = Some nd ∧ forward nd = None)
  ∧ (node1 = dg1 ∨ ∃ nd, heap w2 !! node1 = Some nd ∧ forward nd = Some dg1)
  ∧ (node2 = dg2 ∨ ∃ nd, heap w2 !! node2 = Some nd ∧ forward nd = Some dg2).
Proof.
  intros H1 H2 Hne.
  destruct (dereference_inv _ _ _ _ _ H1) as (p1 & Hc1 & ->).
  destruct (dereference_inv _ _ _ _ _ H2) as (p2 & Hc2 & ->).
  simpl in *. set (h := heap w) in *. set (h1 := compress dg1 p1 h) in *.
  destruct (fwd_chain_rep _ _ _ _ Hc1) as (nr1 & Hr1 & Hfr1).
  assert (h1 !! dg1 = Some nr1) as Hr1'
    by (unfold h1; by rewrite (compress_representative dg1 p1 h node1 Hc1)).
  assert (dg1 ∉ p2) as Hdg1.
  { intros Hin.
    destruct (fwd_chain_path_forward _ _ _ _ _ Hc2 Hin) as (nd & next & Hl & Hf).
    congruence. }
  destruct (fwd_chain_rep _ _ _ _ Hc2) as (nr2 & Hr2 & Hfr2).
  split_and!.
  - exists nr1. split; [|done]. by rewrite lookup_compress, decide_False.
  - exists nr2. split; [|done].
    by rewrite (compress_representative dg2 p2 h1 node2 Hc2).
  - inversion Hc1 as [|? nd next path' ? Hn Hf Hc']; subst; [by left|right].
    assert (h1 !! node1 = Some (set_forward (Some dg1) nd)) as Hn1.
    { unfold h1. rewrite lookup_compress, decide_True by left. by rewrite Hn. }
    exists (set_forward (Some dg1) nd). split; [|done].
    rewrite lookup_compress, decide_False; [done|].
    intros Hin.
    destruct (fwd_chain_suffix _ _ _ _ _ Hc2 Hin) as (p' & Hp' & _).
    assert (fwd_chain h1 node1 [node1] dg1) as Hdirect.
    { eapply fwd_chain_step; [exact Hn1|reflexivity|by econstructor]. }
    by destruct (fwd_chain_functional _ _ _ _ _ _ Hdirect Hp') as [_ ?].
  - inversion Hc2 as [|? nd next path' ? Hn Hf Hc']; subst; [by left|right].
    exists (set_forward (Some dg2) nd). split; [|done].
    rewrite lookup_compress, decide_True by left. by rewrite Hn.
Qed.

(** The three assignments that end a complex-complex join. *)
Lemma join_writes dg1 dg2 new_arcs ndl wl :
  heap wl !! dg1 = Some ndl →
  (_ ← assign dg1 (extend_comp_arc_list new_arcs);
   g ← next_generation;
   _ ← assign dg1 (set_generation g);
   _ ← assign dg1 (set_forward (Some dg2));
   mret true) wl
  = Ok true (mkWorld
               (<[dg1 := joined_node new_arcs (counter wl + 1)%Z dg2 ndl]>
                  (heap wl))
               (counter wl + 1)%Z (shared_structures wl)).
Proof.
  intros Hl. repeat (rewrite bind_unfold; simpl).
  unfold with_heap. simpl. f_equal. f_equal.
  rewrite (alter_lookup_insert _ _ _ _ Hl).
  rewrite !alter_insert_eq. reflexivity.
Qed.

Lemma keeps_primary_shared_loop d dg1 (shared_arcs : list Arc) :
  keeps_primary
    (for_each shared_arcs (λ arc,
       cur1 ← get_node dg1;
       match find_arc (label arc) (arc_list cur1) with
       | Some arc1 => _ ← unify_core d (value arc1) (value arc); mret tt
       | None => mret tt
       end)).
Proof.
  apply keeps_primary_for_each. intros arc.
  apply keeps_primary_bind; [apply keeps_primary_get_node|]. intros cur1.
  destruct (find_arc _ _); [|apply keeps_primary_ret].
  apply keeps_primary_bind; [apply keeps_primary_unify_core|].
  intros _. apply keeps_primary_ret.
Qed.

(** A successful join of two distinct nodes that are not leaves ends with
    the three assignments to [dg1], made on the world [wl] the recursive
    calls have left. *)
Lemma unify_core_join_inv d node1 node2 w w1 w2 dg1 dg2 nd1 nd2 w3 :
  dereference d node1 w = Ok dg1 w1 →
  dereference d node2 w1 = Ok dg2 w2 →
  dg1 ≠ dg2 →
  heap w2 !! dg1 = Some nd1 → heap w2 !! dg2 = Some nd2 →
  is_leaf_node nd1 = false → is_leaf_node nd2 = false →
  unify_core (S d) node1 node2 w = Ok true w3 →
  ∃ wl ndl,
    scratch_only (heap w2) (heap wl)
    ∧ heap wl !! dg1 = Some ndl
    ∧ (intersect_arcs (arc_list nd1) (arc_list nd2) = [] → wl = w2)
    ∧ w3 = mkWorld
             (<[dg1 := joined_node (complement_arcs (arc_list nd2) (arc_list nd1))
                                   (counter wl + 1)%Z dg2 ndl]> (heap wl))
             (counter wl + 1)%Z (shared_structures wl).
Proof.
  intros H1 H2 Hne Hn1 Hn2 Hl1 Hl2. cbn [unify_core].
  rewrite (bind_Ok _ _ _ _ _ H1), (bind_Ok _ _ _ _ _ H2).
  rewrite decide_False by done.
  rewrite (bind_Ok _ _ _ _ _ (get_node_Some _ _ _ Hn1)).
  rewrite (bind_Ok _ _ _ _ _ (get_node_Some _ _ _ Hn2)).
  rewrite Hl1, Hl2. cbv beta iota delta [andb].
  destruct (intersect_arcs (arc_list nd1) (arc_list nd2)) as [|a l] eqn:Hshared.
  - rewrite (join_writes dg1 dg2 _ nd1 w2 Hn1). intros [= <-].
    exists w2, nd1. split_and!; [apply scratch_only_refl|done|done|done].
  - rewrite bind_unfold.
    pose proof (keeps_primary_shared_loop d dg1 (a :: l) w2) as Kl.
    destruct (for_each (a :: l) _ w2) as [[] wl|e wl]; [|done].
    simpl in Kl.
    destruct (scratch_only_lookup _ _ _ _ Kl Hn1) as (ndl & Hndl & _).
    rewrite (join_writes dg1 dg2 _ ndl wl Hndl). intros [= <-].
    exists wl, ndl. split_and!; done.
Qed.

(** The spec's wording of representative ownership: after a successful
    call both operands dereference to one node without [forward], and
    that node holds, in its [comp_arc_list], the arcs the second operand
    contributes. *)
Definition representative_owns_claim : Prop :=
  ∀ depth w node1 node2 w',
    unify_core depth node1 node2 w = Ok true w' →
    ∃ rep ndr wa wb,
      dereference depth node1 w' = Ok rep wa
      ∧ dereference depth node2 w' = Ok rep wb
      ∧ heap w' !! rep = Some ndr
      ∧ forward ndr = None
      ∧ ∀ nd1 nd2 arc,
          heap w !! node1 = Some nd1 → heap w !! node2 = Some nd2 →
          arc ∈ complement_arcs (arc_list nd2) (arc_list nd1) →
          arc ∈ comp_arc_list ndr.

(** C6, as stated, fails: after the disjoint merge of nodes 1 and 3 the
    node without [forward] is 3, and its [comp_arc_list] is empty; the
    arc "g" contributed by 3 sits in the [comp_arc_list] of node 1, the
    node that was forwarded. *)
Lemma representative_owns_counterexample : ¬ representative_owns_claim.
Proof.
  intros H.
  pose (o := unify_core 100 1 3 disjoint_world).
  assert (o = Ok true (world_of o)) as Ho by (vm_compute; reflexivity).
  destruct (H 100 disjoint_world 1 3 (world_of o) Ho)
    as (rep & ndr & wa & wb & Hd1 & _ & Hrep & _ & Hown).
  vm_compute in Hd1. injection Hd1 as <- _.
  vm_compute in Hrep. injection Hrep as <-.
  specialize (Hown (complex_node [mkArc "f" 0]) (complex_node [mkArc "g" 2])
                   (mkArc "g" 2)).
  assert (mkArc "g" 2 ∈ @nil Arc) as Hin.
  { apply Hown; [reflexivity|reflexivity|]. vm_compute. left. }
  by apply elem_of_nil in Hin.
Qed.

(** Equal-named leaves unify without being linked: each stays its own
    representative. *)
Lemma equal_leaves_stay_apart :
  unify_core 100 0 2 leaves_world = Ok true leaves_world
  ∧ dereference 100 0 leaves_world = Ok 0 leaves_world
  ∧ dereference 100 2 leaves_world = Ok 2 leaves_world.
Proof. split_and!; vm_compute; reflexivity. Qed.

(** C6 (amended): after a successful [unify_core] call that joins two
    distinct dereferenced operands [dg1] and [dg2], neither a leaf, [dg1]
    is forwarded to [dg2] and stamped with the counter's new value, and
    the arcs of [dg2] whose label [dg1] lacks are at the end of the
    [comp_arc_list] of [dg1], the node that was forwarded; the arc list
    of [dg1] is unchanged.  When the two share no label, [dg2] is left
    as it was, without [forward] and with its own [comp_arc_list], and
    the forward chains of both operands end at [dg2]. *)
Theorem unify_core_join_ownership d node1 node2 w w1 w2 dg1 dg2 nd1 nd2 w3 :
  dereference d node1 w = Ok dg1 w1 →
  dereference d node2 w1 = Ok dg2 w2 →
  dg1 ≠ dg2 →
  heap w2 !! dg1 = Some nd1 → heap w2 !! dg2 = Some nd2 →
  is_leaf_node nd1 = false → is_leaf_node nd2 = false →
  unify_core (S d) node1 node2 w = Ok true w3 →
  ∃ nd1',
    heap w3 !! dg1 = Some nd1'
    ∧ forward nd1' = Some dg2
    ∧ generation nd1' = counter w3
    ∧ arc_list nd1' = arc_list nd1
    ∧ (∃ pre, comp_arc_list nd1'
              = pre ++ complement_arcs (arc_list nd2) (arc_list nd1))
    ∧ (disjoint_labels (arc_list nd1) (arc_list nd2) →
       heap w3 !! dg2 = Some nd2
       ∧ forward nd2 = None
       ∧ comp_arc_list nd1' = comp_arc_list nd1 ++ arc_list nd2
       ∧ (∃ wa, dereference (3 + d) node1 w3 = Ok dg2 wa)
       ∧ (∃ wb, dereference (3 + d) node2 w3 = Ok dg2 wb)).
Proof.
  intros H1 H2 Hne Hn1 Hn2 Hl1 Hl2 Hu.
  destruct (unify_core_join_inv d node1 node2 w w1 w2 dg1 dg2 nd1 nd2 w3
              H1 H2 Hne Hn1 Hn2 Hl1 Hl2 Hu)
    as (wl & ndl & Ks & Hndl & Hempty & ->).
  destruct Ks as [_ Ks]. destruct (Ks dg1 nd1 ndl Hn1 Hndl) as (_ & _ & Harcs & _).
  eexists. split; [simpl; apply lookup_insert_eq|].
  split_and!; try done.
  - by exists (comp_arc_list ndl).
  - intros Hdisj.
    rewrite (Hempty (intersect_arcs_disjoint _ _ Hdisj)) in *.
    rewrite Hn1 in Hndl. injection Hndl as <-.
    destruct (operands_after_dereference d node1 node2 w w1 w2 dg1 dg2 H1 H2 Hne)
      as ((nr1 & Hr1 & Hf1) & (nr2 & Hr2 & Hf2) & Hop1 & Hop2).
    rewrite Hn1 in Hr1. injection Hr1 as <-.
    rewrite Hn2 in Hr2. injection Hr2 as <-.
    set (joined := joined_node (complement_arcs (arc_list nd2) (arc_list nd1))
                     (counter w2 + 1)%Z dg2 nd1).
    set (h3 := <[dg1:=joined]> (heap w2)).
    assert (h3 !! dg2 = Some nd2) as Hdg2
      by (unfold h3; by rewrite lookup_insert_ne).
    assert (h3 !! dg1 = Some joined) as Hdg1 by apply lookup_insert_eq.
    assert (fwd_chain h3 dg2 [] dg2) as Hc2 by (by econstructor).
    assert (fwd_chain h3 dg1 [dg1] dg2) as Hc1
      by (eapply fwd_chain_step; [exact Hdg1|reflexivity|exact Hc2]).
    split_and!.
    + done.
    + done.
    + simpl. by rewrite (complement_arcs_disjoint _ _ Hdisj).
    + destruct Hop1 as [->|(nd & Hnd & Hfnd)].
      * eexists. apply (dereference_chain (3 + d) dg1 [dg1] dg2); [exact Hc1|].
        simpl. lia.
      * assert (node1 ≠ dg1) as Hn by (intros ->; congruence).
        eexists. apply (dereference_chain (3 + d) node1 [node1; dg1] dg2).
        -- eapply fwd_chain_step; [|exact Hfnd|exact Hc1].
           simpl. fold h3. unfold h3. by rewrite lookup_insert_ne.
        -- simpl. lia.
    + destruct Hop2 as [->|(nd & Hnd & Hfnd)].
      * eexists. apply (dereference_chain (3 + d) dg2 [] dg2); [exact Hc2|].
        simpl. lia.
      * assert (node2 ≠ dg1) as Hn by (intros ->; congruence).
        eexists. apply (dereference_chain (3 + d) node2 [node2] dg2).
        -- eapply fwd_chain_step; [|exact Hfnd|exact Hc2].
           simpl. fold h3. unfold h3. by rewrite lookup_insert_ne.
        -- simpl. lia.
Qed.

Lemma unify_core_join_ownership_witness :
  ∃ nd1',
    heap (world_of (unify_core 100 1 3 disjoint_world)) !! 1 = Some nd1'
    ∧ forward nd1' = Some 3
    ∧ generation nd1' = counter (world_of (unify_core 100 1 3 disjoint_world))
    ∧ arc_list nd1' = [mkArc "f" 0]
    ∧ comp_arc_list nd1' = [mkArc "g" 2]
    ∧ heap (world_of (unify_core 100 1 3 disjoint_world)) !! 3
      = Some (complex_node [mkArc "g" 2])
    ∧ (∃ wa, dereference 102 1 (world_of (unify_core 100 1 3 disjoint_world))
             = Ok 3 wa)
    ∧ (∃ wb, dereference 102 3 (world_of (unify_core 100 1 3 disjoint_world))
             = Ok 3 wb).
Proof.
  destruct (unify_core_join_ownership 99 1 3 disjoint_world disjoint_world
              disjoint_world 1 3
              (complex_node [mkArc "f" 0]) (complex_node [mkArc "g" 2])
              (world_of (unify_core 100 1 3 disjoint_world)))
    as (nd1' & Hl & Hf & Hg & Ha & _ & Hdisj).
  - vm_compute. reflexivity.
  - vm_compute. reflexivity.
  - discriminate.
  - reflexivity.
  - reflexivity.
  - reflexivity.
  - reflexivity.
  - vm_compute. reflexivity.
  - destruct (Hdisj disjoint_world_labels) as (H3 & _ & Hc & Hd1 & Hd2).
    exists nd1'. split_and!; assumption.
Defined.

(** ** Commutativity (C4) *)

(** The spec's wording of commutativity, both runs starting from the same
    world: one order succeeds exactly when the other does, and the two
    outputs are structurally equal modulo arc order. *)
Definition commutativity_claim : Prop :=
  ∀ structure_sharing depth w x y,
    ((∃ r w', unify structure_sharing depth x y w = Ok (Some r) w')
     ↔ (∃ r w', unify structure_sharing depth y x w = Ok (Some r) w'))
    ∧ ∀ r1 w1 r2 w2,
        unify structure_sharing depth x y w = Ok (Some r1) w1 →
        unify structure_sharing depth y x w = Ok (Some r2) w2 →
        equal depth (heap w1) r1 (heap w2) r2 = true.

(** Node 1 reaches the same leaf "A" under "f" and under "g"; node 4 has
    the leaf "B" under "g" and an empty complex node under "f", in that
    order. *)
Definition reentrant_world : World :=
  world_with [(0, leaf_node "A");
              (1, complex_node [mkArc "f" 0; mkArc "g" 0]);
              (2, leaf_node "B");
              (3, complex_node []);
              (4, complex_node [mkArc "g" 2; mkArc "f" 3])].

(** C4, as stated, fails.  [unify(1, 4)] walks the arcs of node 4: under
    "g" it meets the leaves "A" and "B" and fails.  [unify(4, 1)] walks
    the arcs of node 1: under "f" the leaf "A" is forwarded to the
    complex node 3, so that under "g" the leaf "B" meets node 3 and is
    forwarded too, and the call succeeds. *)
Lemma commutativity_counterexample : ¬ commutativity_claim.
Proof.
  intros H.
  destruct (H false 100 reentrant_world 1 4) as [[_ Hback] _].
  destruct Hback as (r & w' & Hu).
  - exists 5, (world_of (unify false 100 4 1 reentrant_world)).
    vm_compute. reflexivity.
  - vm_compute in Hu. discriminate Hu.
Qed.

(** The outputs differ as well: a leaf unified with a complex node comes
    back as a leaf in one order and as a complex node in the other. *)
Lemma commutativity_output_counterexample :
  ∃ w1 w2,
    unify false 100 0 1 disjoint_world = Ok (Some 4) w1
    ∧ unify false 100 1 0 disjoint_world = Ok (Some 4) w2
    ∧ equal 100 (heap w1) 4 (heap w2) 4 = false.
Proof.
  exists (world_of (unify false 100 0 1 disjoint_world)),
         (world_of (unify false 100 1 0 disjoint_world)).
  split_and!; vm_compute; reflexivity.
Qed.

Lemma unify_false_leaves d x y nx ny w :
  heap w !! x = Some (leaf_node nx) → heap w !! y = Some (leaf_node ny) →
  (nx = ny →
   ∃ r, unify false (S d) x y w
        = Ok (Some r) (with_heap (<[r := copied_node (leaf_node nx)]> (heap w)) w))
  ∧ (nx ≠ ny → unify false (S d) x y w = Ok None w).
Proof.
  intros Hx Hy. rewrite unify_unfold.
  rewrite (unify_core_leaves d x y (leaf_node nx) (leaf_node ny) w) by done.
  simpl. split; intros Hn.
  - rewrite decide_True by congruence.
    destruct (copy_with_comp_arcs_unshared x _ w Hx) as (r & -> & _).
    by exists r.
  - rewrite decide_False by congruence. done.
Qed.

(** *** Flat feature structures *)

Lemma find_arc_app lbl (arcs1 arcs2 : list Arc) :
  find_arc lbl (arcs1 ++ arcs2)
  = match find_arc lbl arcs1 with
    | Some arc => Some arc
    | None => find_arc lbl arcs2
    end.
Proof.
  induction arcs1 as [|a arcs1 IH]; simpl; [done|].
  by destruct (decide (label a = lbl)).
Qed.

Lemma find_arc_complement lbl (arcs1 arcs2 : list Arc) :
  find_arc lbl (complement_arcs arcs1 arcs2)
  = if decide (lbl ∈ labels_of arcs2) then None else find_arc lbl arcs1.
Proof.
  rewrite complement_arcs_filter.
  induction arcs1 as [|a arcs1 IH].
  - simpl. by destruct (decide (lbl ∈ labels_of arcs2)).
  - rewrite filter_cons.
    destruct (decide (label a ∉ labels_of arcs2)) as [Hnot|Hin].
    + cbn [find_arc]. destruct (decide (label a = lbl)) as [<-|Hne].
      * by destruct (decide (label a ∈ labels_of arcs2)).
      * exact IH.
    + apply dec_stable in Hin. rewrite IH. cbn [find_arc].
      destruct (decide (label a = lbl)) as [<-|Hne]; [|done].
      by destruct (decide (label a ∈ labels_of arcs2)).
Qed.

Lemma find_arc_NoDup (arcs : list Arc) arc :
  NoDup (label <$> arcs) → arc ∈ arcs → find_arc (label arc) arcs = Some arc.
Proof.
  induction arcs as [|a arcs IH]; intros Hnd Hin; [by apply elem_of_nil in Hin|].
  simpl in *. apply NoDup_cons in Hnd as [Hnotin Hnd].
  destruct (decide (label a = label arc)) as [Heq|Hne].
  - apply elem_of_cons in Hin as [->|Hin]; [done|].
    exfalso. apply Hnotin. rewrite Heq. apply list_elem_of_fmap. by exists arc.
  - apply elem_of_cons in Hin as [->|Hin]; [done|]. by apply IH.
Qed.

Lemma NoDup_labels_merged (arcs1 arcs2 : list Arc) :
  NoDup (label <$> arcs1) → NoDup (label <$> arcs2) →
  NoDup (label <$> (arcs1 ++ complement_arcs arcs2 arcs1)).
Proof.
  intros H1 H2. rewrite fmap_app, complement_arcs_filter.
  apply NoDup_app. split_and!; [done| |].
  - intros lbl Hl1 (a & -> & Hin)%list_elem_of_fmap.
    apply list_elem_of_filter in Hin as [Hnot _]. apply Hnot.
    by apply elem_of_list_to_set.
  - eapply sublist_NoDup; [exact H2|]. apply fmap_sublist, sublist_filter.
Qed.

(** The name of the node an arc points at. *)
Definition child_name (h : gmap nat DGNode) (arc : Arc) : option string :=
  h !! value arc ≫= name.

(** The test one round of the loop over the shared arcs comes down to
    when both children are leaves: equal names. *)
Definition pair_agrees (h : gmap nat DGNode) (arcs1 : list Arc) (arc : Arc) : bool :=
  match find_arc (label arc) arcs1 with
  | Some arc1 => bool_decide (child_name h arc1 = child_name h arc)
  | None => true
  end.

(** Every arc of [arcs] whose label is in [labels] points at a leaf as
    [create_leaf_node] builds it. *)
Definition leaf_children (h : gmap nat DGNode) (arcs : list Arc)
    (labels : gset string) : Prop :=
  ∀ arc, arc ∈ arcs → label arc ∈ labels →
    ∃ nm, h !! value arc = Some (leaf_node nm).

Lemma shared_loop_leaves d x ax w (l : list Arc) :
  heap w !! x = Some (complex_node ax) →
  leaf_children (heap w) ax (labels_of l) →
  (∀ arc, arc ∈ l → ∃ nm, heap w !! value arc = Some (leaf_node nm)) →
  for_each l (λ arc,
    cur1 ← get_node x;
    match find_arc (label arc) (arc_list cur1) with
    | Some arc1 => _ ← unify_core (S d) (value arc1) (value arc); mret tt
    | None => mret tt
    end) w
  = if forallb (pair_agrees (heap w) ax) l then Ok tt w
    else Raise UnificationFailure w.
Proof.
  intros Hx. induction l as [|arc l IH]; intros Hax Hl; [done|].
  cbn [for_each forallb].
  rewrite bind_unfold, bind_unfold, (get_node_Some _ _ _ Hx).
  cbn [arc_list complex_node]. unfold pair_agrees at 1.
  assert (leaf_children (heap w) ax (labels_of l)) as Hax'.
  { intros a Ha Hlab. apply Hax; [done|].
    apply elem_of_labels_of in Hlab as (b & Hb & Hlb).
    apply elem_of_labels_of. exists b. split; [by right|done]. }
  assert (∀ a, a ∈ l → ∃ nm, heap w !! value a = Some (leaf_node nm)) as Hl'
    by (intros a Ha; apply Hl; by right).
  destruct (find_arc (label arc) ax) as [arc1|] eqn:Hfind.
  - assert (arc1 ∈ ax ∧ label arc1 = label arc) as [Hin1 Hlab1].
    { destruct (find_arc_Some (label arc) ax) as (a & Ha & ? & ?).
      - apply elem_of_labels_of.
        clear -Hfind. induction ax as [|a ax IH]; [done|]. simpl in Hfind.
        destruct (decide (label a = label arc)).
        + exists a. split; [left|done].
        + destruct (IH Hfind) as (b & ? & ?). exists b. split; [by right|done].
      - rewrite Hfind in Ha. injection Ha as <-. done. }
    destruct (Hax arc1 Hin1) as (n1 & Hc1).
    { apply elem_of_labels_of. exists arc. split; [left|done]. }
    destruct (Hl arc) as (n2 & Hc2); [left|].
    rewrite bind_unfold.
    rewrite (unify_core_leaves d (value arc1) (value arc)
               (leaf_node n1) (leaf_node n2) w Hc1 Hc2) by done.
    unfold child_name. rewrite Hc1, Hc2. simpl.
    destruct (decide (Some n1 = Some n2)) as [Heq|Hne].
    + rewrite bool_decide_true by done. simpl. by apply IH.
    + rewrite bool_decide_false by done. done.
  - simpl. by apply IH.
Qed.

Lemma find_arc_Some_inv lbl (arcs : list Arc) arc :
  find_arc lbl arcs = Some arc → arc ∈ arcs ∧ label arc = lbl.
Proof.
  induction arcs as [|a arcs IH]; simpl; [done|].
  destruct (decide (label a = lbl)).
  - intros [= <-]. split; [left|done].
  - intros H. destruct (IH H). split; [by right|done].
Qed.

Lemma elem_of_intersect_arcs arc (arcs1 arcs2 : list Arc) :
  arc ∈ intersect_arcs arcs1 arcs2 ↔ label arc ∈ labels_of arcs1 ∧ arc ∈ arcs2.
Proof. by rewrite intersect_arcs_filter, list_elem_of_filter. Qed.

(** The world a successful flat join leaves. *)
Definition joined_world (x y : nat) (ax ay : list Arc) (w : World) : World :=
  mkWorld (<[x := joined_node (complement_arcs ay ax) (counter w + 1)%Z y
                              (complex_node ax)]> (heap w))
          (counter w + 1)%Z (shared_structures w).

Lemma unify_core_flat d x y ax ay w :
  x ≠ y →
  heap w !! x = Some (complex_node ax) → heap w !! y = Some (complex_node ay) →
  leaf_children (heap w) ax (labels_of ay) →
  leaf_children (heap w) ay (labels_of ax) →
  unify_core (S (S d)) x y w
  = if forallb (pair_agrees (heap w) ax) (intersect_arcs ax ay)
    then Ok true (joined_world x y ax ay w)
    else Raise UnificationFailure w.
Proof.
  intros Hne Hx Hy Hlx Hly.
  remember (S d) as d' eqn:Hd'. cbn [unify_core].
  rewrite (bind_Ok _ _ _ _ _
             (dereference_representative d' x _ w Hx eq_refl)).
  rewrite (bind_Ok _ _ _ _ _
             (dereference_representative d' y _ w Hy eq_refl)).
  rewrite decide_False by done.
  rewrite (bind_Ok _ _ _ _ _ (get_node_Some _ _ _ Hx)).
  rewrite (bind_Ok _ _ _ _ _ (get_node_Some _ _ _ Hy)).
  cbn [arc_list complex_node].
  change (is_leaf_node (complex_node ax)) with false.
  change (is_leaf_node (complex_node ay)) with false.
  cbv beta iota delta [andb].
  destruct (intersect_arcs ax ay) as [|a l] eqn:Hshared.
  - by rewrite (join_writes x y _ _ w Hx).
  - subst d'. rewrite bind_unfold, (shared_loop_leaves d x ax w (a :: l) Hx).
    + destruct (forallb _ _); [|done].
      by rewrite (join_writes x y _ _ w Hx).
    + intros arc Harc Hlab. apply Hlx; [done|].
      apply elem_of_labels_of in Hlab as (b & Hb & <-).
      rewrite <- Hshared in Hb. apply elem_of_intersect_arcs in Hb as [_ Hb].
      apply elem_of_labels_of. by exists b.
    + intros arc Harc. rewrite <- Hshared in Harc.
      apply elem_of_intersect_arcs in Harc as [Hlab Harc]. by apply Hly.
Qed.

Lemma unify_false_flat d x y ax ay w :
  x ≠ y →
  heap w !! x = Some (complex_node ax) → heap w !! y = Some (complex_node ay) →
  leaf_children (heap w) ax (labels_of ay) →
  leaf_children (heap w) ay (labels_of ax) →
  if forallb (pair_agrees (heap w) ax) (intersect_arcs ax ay)
  then ∃ r, heap w !! r = None
            ∧ unify false (S (S d)) x y w
              = Ok (Some r)
                   (with_heap
                      (<[r := complex_node (ax ++ complement_arcs ay ax)]>
                         (heap (joined_world x y ax ay w)))
                      (joined_world x y ax ay w))
  else unify false (S (S d)) x y w = Ok None w.
Proof.
  intros Hne Hx Hy Hlx Hly. rewrite unify_unfold.
  rewrite (unify_core_flat d x y ax ay w) by done.
  destruct (forallb _ _); [|done].
  set (wc := joined_world x y ax ay w).
  assert (heap wc !! x
          = Some (joined_node (complement_arcs ay ax) (counter w + 1)%Z y
                              (complex_node ax))) as Hx'
    by apply lookup_insert_eq.
  destruct (copy_with_comp_arcs_unshared x _ wc Hx') as (r & -> & Hr).
  exists r. split; [|done].
  simpl in Hr. apply lookup_insert_None in Hr as [Hr _]. done.
Qed.

(** Under every label the two nodes share, the children carry the same
    name. *)
Definition shared_children_agree (h : gmap nat DGNode)
    (arcs1 arcs2 : list Arc) : Prop :=
  ∀ a b, a ∈ arcs1 → b ∈ arcs2 → label a = label b →
    child_name h a = child_name h b.

Lemma forallb_pair_agrees h (arcs1 arcs2 : list Arc) :
  NoDup (label <$> arcs1) →
  forallb (pair_agrees h arcs1) (intersect_arcs arcs1 arcs2) = true
  ↔ shared_children_agree h arcs1 arcs2.
Proof.
  intros Hnd. rewrite forallb_forall. split.
  - intros Hall a b Ha Hb Hlab.
    assert (pair_agrees h arcs1 b = true) as Hb'.
    { apply Hall, list_elem_of_In, elem_of_intersect_arcs. split; [|done].
      apply elem_of_labels_of. by exists a. }
    unfold pair_agrees in Hb'. rewrite <- Hlab, (find_arc_NoDup _ _ Hnd Ha) in Hb'.
    by apply bool_decide_eq_true in Hb'.
  - intros Hagree b Hb%list_elem_of_In%elem_of_intersect_arcs.
    destruct Hb as [_ Hb]. unfold pair_agrees.
    destruct (find_arc (label b) arcs1) as [a|] eqn:Hfind; [|done].
    apply find_arc_Some_inv in Hfind as [Ha Hlab].
    apply bool_decide_eq_true. by apply Hagree.
Qed.

Lemma shared_children_agree_sym h (arcs1 arcs2 : list Arc) :
  shared_children_agree h arcs1 arcs2 → shared_children_agree h arcs2 arcs1.
Proof. intros H a b Ha Hb Hlab. symmetry. by apply H. Qed.

(** Two children count as the same value when they are the same object
    or two leaves of the same name; two arc lists carry the same
    features when under every label both have no arc or both have one,
    with children that are the same value. *)
Definition children_agree (h1 h2 : gmap nat DGNode) (c1 c2 : nat) : Prop :=
  c1 = c2
  ∨ ∃ nm, h1 !! c1 = Some (leaf_node nm) ∧ h2 !! c2 = Some (leaf_node nm).

Definition same_features (h1 : gmap nat DGNode) (arcs1 : list Arc)
    (h2 : gmap nat DGNode) (arcs2 : list Arc) : Prop :=
  ∀ lbl,
    match find_arc lbl arcs1, find_arc lbl arcs2 with
    | Some a, Some b => children_agree h1 h2 (value a) (value b)
    | None, None => True
    | _, _ => False
    end.

Lemma find_arc_None_inv lbl (arcs : list Arc) :
  find_arc lbl arcs = None → lbl ∉ labels_of arcs.
Proof.
  intros Hnone Hin. destruct (find_arc_Some lbl arcs Hin) as (a & Ha & _).
  congruence.
Qed.

Lemma find_arc_merged lbl (arcs1 arcs2 : list Arc) :
  find_arc lbl (arcs1 ++ complement_arcs arcs2 arcs1)
  = match find_arc lbl arcs1 with
    | Some a => Some a
    | None => find_arc lbl arcs2
    end.
Proof.
  rewrite find_arc_app, find_arc_complement.
  destruct (find_arc lbl arcs1) as [a|] eqn:H1; [done|].
  apply find_arc_None_inv in H1. by rewrite decide_False.
Qed.

Lemma leaf_child_kept (h : gmap nat DGNode) x arcs ndx r ndr c nm :
  h !! c = Some (leaf_node nm) → h !! x = Some (complex_node arcs) →
  h !! r = None →
  <[r := ndr]> (<[x := ndx]> h) !! c = Some (leaf_node nm).
Proof.
  intros Hc Hx Hr.
  rewrite lookup_insert_ne by (intros ->; congruence).
  rewrite lookup_insert_ne; [done|]. intros ->. rewrite Hx in Hc. discriminate Hc.
Qed.

(** C4 (amended): for two distinct nodes as the constructors build them,
    both leaves, or both complex with unique labels and with leaves (as
    [create_leaf_node] builds them) under every label they share,
    [unify(x, y)] succeeds exactly when [unify(y, x)] does, each run
    starting from the same world, and when both succeed the two outputs
    have the same type and name, unique labels, and the same features:
    under every label the same child object, or two leaves of the same
    name.  Nothing is claimed for pairs that mix a leaf with a complex
    node, or whose shared labels lead to complex children. *)
Theorem unify_commutes_flat d x y ndx ndy w :
  x ≠ y →
  heap w !! x = Some ndx → heap w !! y = Some ndy →
  (∃ nx ny, ndx = leaf_node nx ∧ ndy = leaf_node ny)
  ∨ (∃ ax ay, ndx = complex_node ax ∧ ndy = complex_node ay
              ∧ NoDup (label <$> ax) ∧ NoDup (label <$> ay)
              ∧ leaf_children (heap w) ax (labels_of ay)
              ∧ leaf_children (heap w) ay (labels_of ax)) →
  ((∃ r w', unify false (S (S d)) x y w = Ok (Some r) w')
   ↔ (∃ r w', unify false (S (S d)) y x w = Ok (Some r) w'))
  ∧ ∀ r1 w1 r2 w2,
      unify false (S (S d)) x y w = Ok (Some r1) w1 →
      unify false (S (S d)) y x w = Ok (Some r2) w2 →
      ∃ n1 n2, heap w1 !! r1 = Some n1 ∧ heap w2 !! r2 = Some n2
               ∧ node_type n1 = node_type n2
               ∧ name n1 = name n2
               ∧ NoDup (label <$> arc_list n1)
               ∧ NoDup (label <$> arc_list n2)
               ∧ same_features (heap w1) (arc_list n1) (heap w2) (arc_list n2).
Proof.
  intros Hne Hx Hy
    [(nx & ny & -> & ->)|(ax & ay & -> & -> & Hndx & Hndy & Hlx & Hly)].
  - destruct (unify_false_leaves (S d) x y nx ny w Hx Hy) as [Hxy_eq Hxy_ne].
    destruct (unify_false_leaves (S d) y x ny nx w Hy Hx) as [Hyx_eq Hyx_ne].
    destruct (decide (nx = ny)) as [->|Hn].
    + destruct (Hxy_eq eq_refl) as (r1' & Hu1).
      destruct (Hyx_eq eq_refl) as (r2' & Hu2).
      split; [split; intros _; eauto|].
      intros r1 w1 r2 w2. rewrite Hu1, Hu2. intros [= <- <-] [= <- <-].
      eexists _, _.
      split; [simpl; apply lookup_insert_eq|].
      split; [simpl; apply lookup_insert_eq|].
      split_and!; [done|done|apply NoDup_nil_2|apply NoDup_nil_2|by intros lbl].
    + rewrite (Hxy_ne Hn), (Hyx_ne (not_eq_sym Hn)).
      split; [split; intros (? & ? & ?); done|]. done.
  - pose proof (unify_false_flat d x y ax ay w Hne Hx Hy Hlx Hly) as Hxy.
    pose proof (unify_false_flat d y x ay ax w (not_eq_sym Hne) Hy Hx Hly Hlx)
      as Hyx.
    pose proof (forallb_pair_agrees (heap w) ax ay Hndx) as Hax.
    pose proof (forallb_pair_agrees (heap w) ay ax Hndy) as Hay.
    destruct (forallb (pair_agrees (heap w) ax) (intersect_arcs ax ay)) eqn:Ex;
      destruct (forallb (pair_agrees (heap w) ay) (intersect_arcs ay ax)) eqn:Ey.
    + destruct Hxy as (r1' & Hr1 & Hu1), Hyx as (r2' & Hr2 & Hu2).
      split; [split; intros _; eauto|].
      intros r1 w1 r2 w2. rewrite Hu1, Hu2. intros [= <- <-] [= <- <-].
      eexists _, _.
      split; [simpl; apply lookup_insert_eq|].
      split; [simpl; apply lookup_insert_eq|].
      split_and!; [done|done|by apply NoDup_labels_merged
                  |by apply NoDup_labels_merged|].
      assert (shared_children_agree (heap w) ax ay) as Hagree by (by apply Hax).
      intros lbl. cbn [arc_list complex_node]. rewrite !find_arc_merged.
      destruct (find_arc lbl ax) as [a|] eqn:Ha,
               (find_arc lbl ay) as [b|] eqn:Hb; try done.
      * apply find_arc_Some_inv in Ha as [Ha <-].
        apply find_arc_Some_inv in Hb as [Hb Hlab].
        destruct (Hlx a Ha) as (na & Hca);
          [apply elem_of_labels_of; by exists b|].
        destruct (Hly b Hb) as (nb & Hcb);
          [apply elem_of_labels_of; by exists a|].
        pose proof (Hagree a b Ha Hb (eq_sym Hlab)) as Hnames.
        unfold child_name in Hnames. rewrite Hca, Hcb in Hnames.
        injection Hnames as <-.
        right. exists na. split; simpl; by eapply leaf_child_kept.
      * by left.
      * by left.
    + assert (false = true) as Habs
        by (apply Hay, shared_children_agree_sym, Hax; done).
      discriminate Habs.
    + assert (false = true) as Habs
        by (apply Hax, shared_children_agree_sym, Hay; done).
      discriminate Habs.
    + rewrite Hxy, Hyx.
      split; [split; intros (? & ? & ?); done|]. done.
Qed.

(** Two flat complex nodes that share the label "f", each with its own
    leaf "A" under it. *)
Definition flat_world : World :=
  world_with [(0, leaf_node "A"); (1, leaf_node "X");
              (2, leaf_node "A"); (3, leaf_node "Y");
              (4, complex_node [mkArc "f" 0; mkArc "h" 1]);
              (5, complex_node [mkArc "f" 2; mkArc "g" 3])].

Lemma unify_commutes_flat_witness :
  ((∃ r w', unify false 100 4 5 flat_world = Ok (Some r) w')
   ↔ (∃ r w', unify false 100 5 4 flat_world = Ok (Some r) w'))
  ∧ ∀ r1 w1 r2 w2,
      unify false 100 4 5 flat_world = Ok (Some r1) w1 →
      unify false 100 5 4 flat_world = Ok (Some r2) w2 →
      ∃ n1 n2, heap w1 !! r1 = Some n1 ∧ heap w2 !! r2 = Some n2
               ∧ node_type n1 = node_type n2
               ∧ name n1 = name n2
               ∧ NoDup (label <$> arc_list n1)
               ∧ NoDup (label <$> arc_list n2)
               ∧ same_features (heap w1) (arc_list n1) (heap w2) (arc_list n2).
Proof.
  apply (unify_commutes_flat 98 4 5
           (complex_node [mkArc "f" 0; mkArc "h" 1])
           (complex_node [mkArc "f" 2; mkArc "g" 3]) flat_world).
  - discriminate.
  - reflexivity.
  - reflexivity.
  - right. exists [mkArc "f" 0; mkArc "h" 1], [mkArc "f" 2; mkArc "g" 3].
    split_and!; [reflexivity|reflexivity| | | |].
    + apply (bool_decide_unpack _). vm_compute. exact I.
    + apply (bool_decide_unpack _). vm_compute. exact I.
    + intros arc Hin _.
      repeat (apply elem_of_cons in Hin as [->|Hin]);
        [eexists; reflexivity ..|by apply elem_of_nil in Hin].
    + intros arc Hin _.
      repeat (apply elem_of_cons in Hin as [->|Hin]);
        [eexists; reflexivity ..|by apply elem_of_nil in Hin].
Defined.

(** On that pair both orders succeed, and a clash under the shared label
    makes both fail. *)
Lemma flat_world_both_orders :
  (∃ w1, unify false 100 4 5 flat_world = Ok (Some 6) w1)
  ∧ (∃ w2, unify false 100 5 4 flat_world = Ok (Some 6) w2).
Proof.
  split.
  - exists (world_of (unify false 100 4 5 flat_world)). vm_compute. reflexivity.
  - exists (world_of (unify false 100 5 4 flat_world)). vm_compute. reflexivity.
Qed.

(** ** Input preservation (C1) *)

(** The spec's wording of input preservation: whatever [unify(x, y)] did,
    a following [unify(x, x)] produces a graph structurally equal to [x]
    as it was. *)
Definition input_preservation_claim : Prop :=
  ∀ structure_sharing depth w x y,
    is_Some (heap w !! x) → is_Some (heap w !! y) →
    ∃ r w2,
      unify structure_sharing depth x x
            (world_of (unify structure_sharing depth x y w))
      = Ok (Some r) w2
      ∧ equal depth (heap w2) r (heap w) x = true.

(** C1: the code does not keep what its docstrings call the
    quasi-destructive property.  It stamps [generation] on every scratch
    write, but no line compares a stamp with the counter, so the
    [forward] and [comp_arc_list] written by one call are in force in
    the next.  After [unify(1, 3)] on the disjoint pair, [unify(1, 1)]
    returns a node with the arcs "f" and "g", while node 1 has "f"
    only: the second call does not give back a graph equal to its
    input. *)
Lemma input_preservation_counterexample : ¬ input_preservation_claim.
Proof.
  intros H.
  destruct (H false 100 disjoint_world 1 3) as (r & w2 & Hu & Heq).
  - by eexists.
  - by eexists.
  - vm_compute in Hu. injection Hu as <- <-.
    vm_compute in Heq. discriminate Heq.
Qed.

(** The same two calls, step by step.  The first call stamps node 1 with
    the counter's new value, 11; the second call makes no new stamp,
    follows the forward and copies the complement arcs all the same. *)
Lemma stamped_writes_stay_in_force :
  ∃ r1 w1 r2 w2,
    unify false 100 1 3 disjoint_world = Ok (Some r1) w1
    ∧ heap w1 !! 1
      = Some (joined_node [mkArc "g" 2] 11%Z 3 (complex_node [mkArc "f" 0]))
    ∧ counter w1 = 11%Z
    ∧ unify false 100 1 1 w1 = Ok (Some r2) w2
    ∧ counter w2 = 11%Z
    ∧ heap w2 !! r2 = Some (complex_node [mkArc "f" 0; mkArc "g" 2])
    ∧ heap disjoint_world !! 1 = Some (complex_node [mkArc "f" 0]).
Proof.
  eexists _, _, _, _. split; [vm_compute; reflexivity|].
  split_and!; vm_compute; reflexivity.
Qed.

(** With the default [structure_sharing=True] the copy step raises, on
    this call and on every later one. *)
Lemma unify_shared_raises :
  ∃ w1, unify true 100 1 3 disjoint_world = Raise TypeError w1
        ∧ ∃ w2, unify true 100 1 1 w1 = Raise TypeError w2.
Proof.
  exists (world_of (unify true 100 1 3 disjoint_world)).
  split; [vm_compute; reflexivity|].
  exists (world_of (unify true 100 1 1
                      (world_of (unify true 100 1 3 disjoint_world)))).
  vm_compute. reflexivity.
Qed.



(** ** The recursion order, observed

    The order in which the shared arcs are visited is that of the second
    operand.  With node 1 as first operand, the outcome changes when the
    arcs of the second operand are listed the other way round; the arcs
    of node 1 are the same in both runs. *)

Definition reentrant_world_swapped : World :=
  world_with [(0, leaf_node "A");
              (1, complex_node [mkArc "f" 0; mkArc "g" 0]);
              (2, leaf_node "B");
              (3, complex_node []);
              (4, complex_node [mkArc "f" 3; mkArc "g" 2])].

Lemma recursion_follows_second_operand :
  (∃ w', unify_core 100 1 4 reentrant_world = Raise UnificationFailure w')
  ∧ (∃ w', unify_core 100 1 4 reentrant_world_swapped = Ok true w').
Proof.
  split.
  - exists (world_of (unify_core 100 1 4 reentrant_world)).
    vm_compute. reflexivity.
  - exists (world_of (unify_core 100 1 4 reentrant_world_swapped)).
    vm_compute. reflexivity.
Qed.

(** * Further properties of the code *)

(** ** Arc operations: splitting, complement, lookup *)

(** X1: [intersect_arcs arcs1 arcs2] and [complement_arcs arcs2 arcs1] split
    [arcs2] in two: every arc of [arcs2] lands in exactly one of them,
    each keeps the order [arcs2] has, and nothing else is in either. *)
Theorem arcs_split (arcs1 arcs2 : list Arc) :
  arcs2 ≡ₚ intersect_arcs arcs1 arcs2 ++ complement_arcs arcs2 arcs1
  ∧ length (intersect_arcs arcs1 arcs2) + length (complement_arcs arcs2 arcs1)
    = length arcs2
  ∧ intersect_arcs arcs1 arcs2 `sublist_of` arcs2
  ∧ complement_arcs arcs2 arcs1 `sublist_of` arcs2
  ∧ (∀ arc, arc ∈ intersect_arcs arcs1 arcs2 →
            arc ∈ complement_arcs arcs2 arcs1 → False).
Proof.
  rewrite intersect_arcs_filter, complement_arcs_filter.
  assert (arcs2 ≡ₚ filter (λ arc2, label arc2 ∈ labels_of arcs1) arcs2
                   ++ filter (λ arc1, label arc1 ∉ labels_of arcs1) arcs2) as Hp
    by (symmetry; apply filter_app_complement).
  split_and!.
  - exact Hp.
  - rewrite <- length_app. by rewrite <- Hp.
  - apply sublist_filter.
  - apply sublist_filter.
  - intros arc [Hin _]%list_elem_of_filter [Hnot _]%list_elem_of_filter. done.
Qed.

(** X2: [complement_arcs arcs1 arcs2] is the arcs of [arcs1] whose label does
    not occur in [arcs2], in the order of [arcs1]: none of its arcs has a
    partner in [arcs2], an empty [arcs2] takes nothing away, and a list
    has an empty complement against itself. *)
Theorem complement_arcs_characterised (arcs1 arcs2 : list Arc) :
  complement_arcs arcs1 arcs2
  = filter (λ arc1, label arc1 ∉ labels_of arcs2) arcs1
  ∧ (∀ arc, arc ∈ complement_arcs arcs1 arcs2 →
            arc ∈ arcs1 ∧ find_arc (label arc) arcs2 = None)
  ∧ (∀ arc, arc ∈ arcs1 → find_arc (label arc) arcs2 = None →
            arc ∈ complement_arcs arcs1 arcs2)
  ∧ complement_arcs arcs1 [] = arcs1
  ∧ complement_arcs arcs1 arcs1 = [].
Proof.
  split_and!.
  - apply complement_arcs_filter.
  - intros arc. rewrite complement_arcs_filter, list_elem_of_filter.
    intros [Hnot Hin]. split; [done|]. by apply find_arc_None.
  - intros arc Hin Hnone. rewrite complement_arcs_filter, list_elem_of_filter.
    split; [|done]. intros Hl.
    destruct (find_arc_Some _ _ Hl) as (a & Ha & _). congruence.
  - apply complement_arcs_disjoint. intros arc _ Hin.
    apply elem_of_labels_of in Hin as (b & Hb & _). by apply elem_of_nil in Hb.
  - rewrite complement_arcs_filter.
    assert (∀ l : list Arc,
              (∀ arc, arc ∈ l → label arc ∈ labels_of arcs1) →
              filter (λ arc1, label arc1 ∉ labels_of arcs1) l = []) as Hall.
    { induction l as [|a l IH]; intros Hl; [done|].
      rewrite filter_cons, decide_False.
      - apply IH. intros arc ?. apply Hl. by right.
      - intros Hnot. apply Hnot, Hl. left. }
    apply Hall. intros arc Hin. apply elem_of_labels_of. by exists arc.
Qed.

(** X3: [find_arc] returns the first arc that carries the label, and [None]
    exactly when no arc of the list carries it. *)
Theorem find_arc_first_match (lbl : string) (arcs : list Arc) :
  match find_arc lbl arcs with
  | Some arc =>
      ∃ before after,
        arcs = before ++ arc :: after
        ∧ label arc = lbl
        ∧ ∀ b, b ∈ before → label b ≠ lbl
  | None => ∀ b, b ∈ arcs → label b ≠ lbl
  end.
Proof.
  induction arcs as [|a arcs IH]; simpl.
  - intros b Hb. by apply elem_of_nil in Hb.
  - destruct (decide (label a = lbl)) as [Heq|Hne].
    + exists [], arcs. split_and!; [done|done|].
      intros b Hb. by apply elem_of_nil in Hb.
    + destruct (find_arc lbl arcs) as [arc|].
      * destruct IH as (before & after & -> & Hl & Hbefore).
        exists (a :: before), after. split_and!; [done|done|].
        intros b [->|Hb]%elem_of_cons; [done|by apply Hbefore].
      * intros b [->|Hb]%elem_of_cons; [done|by apply IH].
Qed.

(** ** Dereference: outcomes and what it preserves *)

Lemma deref_walk_errors fuel depth (h : gmap nat DGNode) n pre e :
  deref_walk fuel depth h n pre = inl e →
  e = ValueError ∨ e = RecursionError ∨ e = AttributeError.
Proof.
  revert n pre. induction fuel as [|fuel IH]; intros n pre; simpl;
    destruct (h !! n) as [nd|]; try (intros [= <-]; auto);
    destruct (forward nd) as [next|]; try done;
    destruct (list_contains depth h pre n) as [[|]|];
    try (intros [= <-]; auto).
  apply IH.
Qed.

(** X4: [dereference] either returns or raises, with nothing in between: when
    it returns, the node it was given starts an acyclic forward chain,
    the result is the end of that chain and has no [forward], and the
    only writes are the compression of the path; when it raises, the
    world is exactly as before, the exception is [ValueError],
    [RecursionError] or [AttributeError], and the node has no forward
    chain shorter than the call depth at hand. *)
Theorem dereference_outcomes (depth : nat) (n : nat) (w : World) :
  match dereference depth n w with
  | Ok r w' =>
      ∃ path, fwd_chain (heap w) n path r
              ∧ w' = with_heap (compress r path (heap w)) w
              ∧ ∃ nd, heap w' !! r = Some nd ∧ forward nd = None
  | Raise e w' =>
      w' = w
      ∧ (e = ValueError ∨ e = RecursionError ∨ e = AttributeError)
      ∧ ∀ path r, fwd_chain (heap w) n path r → depth ≤ length path
  end.
Proof.
  destruct (dereference depth n w) as [r w'|e w'] eqn:Hd.
  - destruct (dereference_inv _ _ _ _ _ Hd) as (path & Hc & ->).
    exists path. split_and!; [done|done|].
    destruct (fwd_chain_rep _ _ _ _ Hc) as (nd & Hr & Hf).
    exists nd. split; [|done]. simpl.
    by rewrite (compress_representative r path (heap w) n Hc).
  - split_and!.
    + unfold dereference in Hd.
      destruct (deref_walk _ _ _ _ _) as [e'|[current path]]; [by injection Hd|].
      by rewrite bind_unfold, for_each_assign in Hd.
    + unfold dereference in Hd.
      destruct (deref_walk _ _ _ _ _) as [e'|[current path]] eqn:Hw.
      * injection Hd as <- _. by eapply deref_walk_errors.
      * by rewrite bind_unfold, for_each_assign in Hd.
    + intros path r Hc. destruct (decide (length path < depth)) as [Hlt|]; [|lia].
      rewrite (dereference_chain depth n path r w Hc Hlt) in Hd. discriminate Hd.
Qed.

(** Compressing the path of one chain keeps the end of every chain. *)
Lemma compress_keeps_chains r path (h : gmap nat DGNode) n m pm rm :
  fwd_chain h n path r → fwd_chain h m pm rm →
  ∃ pm', fwd_chain (compress r path h) m pm' rm
         ∧ length pm' ≤ length pm
         ∧ ∀ q, q ∈ pm' → q ∈ pm.
Proof.
  intros Hc Hm.
  induction Hm as [rm nd Hr Hf|m nd next pm rm Hl Hf Hm IH].
  - exists []. split_and!; [|done|done].
    eapply fwd_chain_end; [|exact Hf].
    rewrite lookup_compress. destruct (decide (rm ∈ path)) as [Hin|]; [|done].
    destruct (fwd_chain_path_forward _ _ _ _ _ Hc Hin) as (nd' & nx & Hl' & Hf').
    congruence.
  - destruct IH as (p' & Hp' & Hlen & Hsub).
    destruct (decide (m ∈ path)) as [Hin|Hnotin].
    + destruct (fwd_chain_suffix _ _ _ _ _ Hc Hin) as (ps & Hps & _).
      assert (fwd_chain h m (m :: pm) rm) as Hfull by (by econstructor).
      destruct (fwd_chain_functional _ _ _ _ _ _ Hfull Hps) as [_ ->].
      destruct (fwd_chain_rep _ _ _ _ Hc) as (ndr & Hr & Hfr).
      exists [m]. split_and!.
      * eapply fwd_chain_step.
        -- rewrite lookup_compress, decide_True, Hl by done. reflexivity.
        -- reflexivity.
        -- eapply fwd_chain_end; [|exact Hfr].
           by rewrite (compress_representative r path h n Hc).
      * simpl. lia.
      * intros q ->%list_elem_of_singleton. left.
    + exists (m :: p'). split_and!.
      * eapply fwd_chain_step; [|exact Hf|exact Hp'].
        by rewrite lookup_compress, decide_False.
      * simpl. lia.
      * intros q [->|Hq]%elem_of_cons; [left|right; by apply Hsub].
Qed.

(** X5: Path compression is invisible to later dereferences: after
    [dereference] has returned, every node that had a forward chain
    still has one, ending at the same node and no longer than before. *)
Theorem dereference_preserves_representatives depth n w r w' m pm rm :
  dereference depth n w = Ok r w' →
  fwd_chain (heap w) m pm rm →
  ∃ pm', fwd_chain (heap w') m pm' rm ∧ length pm' ≤ length pm.
Proof.
  intros Hd Hm. destruct (dereference_inv _ _ _ _ _ Hd) as (path & Hc & ->).
  destruct (compress_keeps_chains r path (heap w) n m pm rm Hc Hm)
    as (pm' & ? & ? & _).
  by exists pm'.
Qed.

Lemma dereference_preserves_representatives_witness :
  ∃ pm', fwd_chain (heap (world_of (dereference 100 0 chain_world))) 1 pm' 2
         ∧ length pm' ≤ length [1].
Proof.
  apply (dereference_preserves_representatives 100 0 chain_world 2
           (world_of (dereference 100 0 chain_world)) 1 [1] 2).
  - vm_compute. reflexivity.
  - eapply fwd_chain_step; [reflexivity|reflexivity|].
    eapply fwd_chain_end; reflexivity.
Defined.

(** ** Unifying two nodes that already share a representative *)

(** X6: When the forward chains of the two operands end at the same node,
    [unify_core] succeeds at once: the counter does not advance, and the
    only writes are those of path compression, [forward] set to the
    common representative on nodes of the two chains. *)
Theorem unify_core_same_representative d n1 n2 w p1 p2 r :
  fwd_chain (heap w) n1 p1 r → fwd_chain (heap w) n2 p2 r →
  length p1 < d → length p2 < d →
  ∃ w', unify_core (S d) n1 n2 w = Ok true w'
        ∧ counter w' = counter w
        ∧ ∀ q, heap w' !! q = heap w !! q
               ∨ (q ∈ p1 ++ p2
                  ∧ heap w' !! q = set_forward (Some r) <$> heap w !! q).
Proof.
  intros H1 H2 Hd1 Hd2.
  set (w1 := with_heap (compress r p1 (heap w)) w).
  destruct (compress_keeps_chains r p1 (heap w) n1 n2 p2 r H1 H2)
    as (p2' & Hc2 & Hlen & Hsub).
  set (w2 := with_heap (compress r p2' (heap w1)) w1).
  exists w2. split_and!.
  - apply (unify_core_same d n1 n2 w w1 w2 r).
    + by apply dereference_chain.
    + apply dereference_chain; [exact Hc2|lia].
  - done.
  - intros q. change (heap w2) with (compress r p2' (compress r p1 (heap w))).
    rewrite !lookup_compress.
    destruct (decide (q ∈ p2')) as [Hq2|Hq2], (decide (q ∈ p1)) as [Hq1|Hq1].
    + right. split; [apply elem_of_app; by left|].
      by destruct (heap w !! q).
    + right. split; [apply elem_of_app; right; by apply Hsub|done].
    + right. split; [apply elem_of_app; by left|done].
    + by left.
Qed.

Lemma unify_core_same_representative_witness :
  ∃ w', unify_core 100 0 1 chain_world = Ok true w'
        ∧ counter w' = counter chain_world
        ∧ ∀ q, heap w' !! q = heap chain_world !! q
               ∨ (q ∈ [0; 1] ++ [1]
                  ∧ heap w' !! q = set_forward (Some 2) <$> heap chain_world !! q).
Proof.
  apply (unify_core_same_representative 99 0 1 chain_world [0; 1] [1] 2).
  - exact chain_world_chain.
  - eapply fwd_chain_step; [reflexivity|reflexivity|].
    eapply fwd_chain_end; reflexivity.
  - simpl. lia.
  - simpl. lia.
Defined.

(** ** The generation counter *)

Local Open Scope Z_scope.

(** No node carries a generation ahead of the counter, and the counter
    is not negative. *)
Definition stamps_bounded (w : World) : Prop :=
  0 ≤ counter w
  ∧ ∀ q nd, heap w !! q = Some nd → generation nd ≤ counter w.

Definition keeps_stamps {A} (m : M A) : Prop :=
  ∀ w, stamps_bounded w →
    stamps_bounded (world_of (m w)) ∧ counter w ≤ counter (world_of (m w)).

Lemma keeps_stamps_ret {A} (a : A) : keeps_stamps (mret a).
Proof. intros w Hw. split; [done|]. simpl. lia. Qed.

Lemma keeps_stamps_raise {A} e : keeps_stamps (@raise A e).
Proof. intros w Hw. split; [done|]. simpl. lia. Qed.

Lemma keeps_stamps_bind {A B} (m : M A) (k : A → M B) :
  keeps_stamps m → (∀ a, keeps_stamps (k a)) → keeps_stamps (m ≫= k).
Proof.
  intros Hm Hk w Hw. rewrite bind_unfold. specialize (Hm w Hw).
  destruct (m w) as [a w'|e w']; simpl in *; [|done].
  destruct Hm as [Hw' Hle]. destruct (Hk a w' Hw') as [Hw'' Hle'].
  split; [done|lia].
Qed.

Lemma keeps_stamps_get_node r : keeps_stamps (get_node r).
Proof.
  intros w Hw. unfold get_node. destruct (heap w !! r); (split; [done|simpl; lia]).
Qed.

Lemma keeps_stamps_assign r f :
  (∀ nd, generation (f nd) = generation nd) → keeps_stamps (assign r f).
Proof.
  intros Hf w [H0 Hw]. split; [|simpl; lia]. split; [done|].
  intros q nd. simpl. destruct (decide (r = q)) as [->|Hne].
  - rewrite lookup_alter_eq. destruct (heap w !! q) as [nd0|] eqn:Hq; [|done].
    simpl. intros [= <-]. rewrite Hf. by apply (Hw q).
  - rewrite lookup_alter_ne by done. apply Hw.
Qed.

(** Taking a new generation and writing it to a node. *)
Lemma keeps_stamps_stamp {A} r (k : M A) :
  keeps_stamps k →
  keeps_stamps (g ← next_generation; _ ← assign r (set_generation g); k).
Proof.
  intros Hk w [H0 Hw]. rewrite bind_unfold. simpl. rewrite bind_unfold. simpl.
  set (w2 := with_heap _ _).
  assert (stamps_bounded w2) as Hw2.
  { split; [simpl; lia|]. intros q nd. simpl.
    destruct (decide (r = q)) as [->|Hne].
    - rewrite lookup_alter_eq. destruct (heap w !! q) as [nd0|]; [|done].
      simpl. intros [= <-]. simpl. lia.
    - rewrite lookup_alter_ne by done. intros Hq. specialize (Hw q nd Hq). lia. }
  destruct (Hk w2 Hw2) as [Hres Hle]. split; [done|]. simpl in Hle. lia.
Qed.

Lemma keeps_stamps_for_each {A} (xs : list A) (body : A → M unit) :
  (∀ x, keeps_stamps (body x)) → keeps_stamps (for_each xs body).
Proof.
  intros Hb. induction xs as [|x xs IH]; simpl.
  - apply keeps_stamps_ret.
  - apply keeps_stamps_bind; [apply Hb|]. intros _. apply IH.
Qed.

Lemma keeps_stamps_dereference depth node :
  keeps_stamps (dereference depth node).
Proof.
  intros w Hw. unfold dereference.
  destruct (deref_walk _ _ _ _ _) as [e|[current path]].
  - split; [done|simpl; lia].
  - apply (keeps_stamps_bind
             (for_each path (λ q, assign q (set_forward (Some current))))
             (λ _, mret current)); [|intros; apply keeps_stamps_ret|done].
    apply keeps_stamps_for_each. intros q. by apply keeps_stamps_assign.
Qed.

Lemma keeps_stamps_unify_core depth node1 node2 :
  keeps_stamps (unify_core depth node1 node2).
Proof.
  revert node1 node2. induction depth as [|d IH]; intros node1 node2; simpl.
  - apply keeps_stamps_raise.
  - apply keeps_stamps_bind; [apply keeps_stamps_dereference|]. intros dg1.
    apply keeps_stamps_bind; [apply keeps_stamps_dereference|]. intros dg2.
    destruct (decide (dg1 = dg2)); [apply keeps_stamps_ret|].
    apply keeps_stamps_bind; [apply keeps_stamps_get_node|]. intros nd1.
    apply keeps_stamps_bind; [apply keeps_stamps_get_node|]. intros nd2.
    destruct (is_leaf_node nd1 && is_leaf_node nd2).
    { destruct (decide (name nd1 = name nd2));
        [apply keeps_stamps_ret|apply keeps_stamps_raise]. }
    assert (∀ dg1 dg2,
              keeps_stamps (_ ← assign dg1 (set_forward (Some dg2));
                            g ← next_generation;
                            _ ← assign dg1 (set_generation g);
                            mret true)) as Hleaf.
    { intros a b. apply keeps_stamps_bind; [by apply keeps_stamps_assign|].
      intros _. apply keeps_stamps_stamp, keeps_stamps_ret. }
    destruct (is_leaf_node nd1); [apply Hleaf|].
    destruct (is_leaf_node nd2); [apply Hleaf|].
    assert (∀ new_arcs,
              keeps_stamps (_ ← assign dg1 (extend_comp_arc_list new_arcs);
                            g ← next_generation;
                            _ ← assign dg1 (set_generation g);
                            _ ← assign dg1 (set_forward (Some dg2));
                            mret true)) as Hjoin.
    { intros new_arcs. apply keeps_stamps_bind; [by apply keeps_stamps_assign|].
      intros _. apply keeps_stamps_stamp.
      apply keeps_stamps_bind; [by apply keeps_stamps_assign|].
      intros _. apply keeps_stamps_ret. }
    destruct (intersect_arcs _ _) as [|a l]; [apply Hjoin|].
    apply keeps_stamps_bind; [|intros _; apply Hjoin].
    apply keeps_stamps_for_each. intros arc.
    apply keeps_stamps_bind; [apply keeps_stamps_get_node|]. intros cur1.
    destruct (find_arc _ _); [|apply keeps_stamps_ret].
    apply keeps_stamps_bind; [apply IH|]. intros _. apply keeps_stamps_ret.
Qed.

Lemma keeps_stamps_alloc nd : generation nd = 0 → keeps_stamps (alloc nd).
Proof.
  intros Hg w [H0 Hw]. split; [|simpl; lia]. split; [done|].
  intros q nd'. simpl. destruct (decide (fresh (dom (heap w)) = q)) as [->|Hne].
  - rewrite lookup_insert_eq. intros [= <-]. lia.
  - rewrite lookup_insert_ne by done. apply Hw.
Qed.

Lemma keeps_stamps_copy_with_comp_arcs structure_sharing node :
  keeps_stamps (copy_with_comp_arcs structure_sharing node).
Proof.
  unfold copy_with_comp_arcs.
  apply keeps_stamps_bind.
  { destruct structure_sharing; [|apply keeps_stamps_ret].
    unfold WeakSet_contains, DGNode_hash.
    apply keeps_stamps_bind; [apply keeps_stamps_raise|].
    intros _. apply keeps_stamps_bind; [|intros; apply keeps_stamps_ret].
    intros w Hw. split; [done|simpl; lia]. }
  intros [|].
  - apply keeps_stamps_bind; [apply keeps_stamps_get_node|].
    intros nd. apply keeps_stamps_ret.
  - apply keeps_stamps_bind; [apply keeps_stamps_get_node|]. intros nd.
    apply keeps_stamps_bind; [by apply keeps_stamps_alloc|]. intros new_node.
    apply keeps_stamps_bind; [apply keeps_stamps_get_node|]. intros nn.
    apply keeps_stamps_bind; [by apply keeps_stamps_assign|]. intros _.
    apply keeps_stamps_bind; [by apply keeps_stamps_assign|]. intros _.
    apply keeps_stamps_bind; [|intros; apply keeps_stamps_ret].
    destruct structure_sharing; [|apply keeps_stamps_ret].
    apply keeps_stamps_bind; [by apply keeps_stamps_assign|]. intros _.
    unfold WeakSet_add, DGNode_hash.
    apply keeps_stamps_bind; [apply keeps_stamps_raise|].
    intros _ w Hw. split; [done|simpl; lia].
Qed.

(** X7: The generation discipline holds across a whole top-level call,
    however it ends: the counter never goes back, and when no node
    carried a generation ahead of the counter before the call, none does
    after it. *)
Theorem unify_keeps_stamps structure_sharing depth node1 node2 w :
  stamps_bounded w →
  stamps_bounded (world_of (unify structure_sharing depth node1 node2 w))
  ∧ counter w
    ≤ counter (world_of (unify structure_sharing depth node1 node2 w)).
Proof.
  intros Hw. rewrite unify_unfold.
  destruct (keeps_stamps_unify_core depth node1 node2 w Hw) as [Hc Hle].
  destruct (unify_core depth node1 node2 w) as [[|] w1|e w1]; simpl in Hc, Hle.
  - destruct (keeps_stamps_copy_with_comp_arcs structure_sharing node1 w1 Hc)
      as [Hc2 Hle2].
    destruct (copy_with_comp_arcs structure_sharing node1 w1) as [r w2|e w2];
      simpl in *; [split; [done|lia]|].
    destruct e; simpl; (split; [done|lia]).
  - done.
  - destruct e; simpl; done.
Qed.

Lemma stamps_bounded_world_with (objects : list (nat * DGNode)) :
  Forall (λ o, generation o.2 ≤ initial_counter) objects →
  stamps_bounded (world_with objects).
Proof.
  intros Hall. split; [done|]. intros q nd Hq. simpl in Hq.
  apply elem_of_list_to_map_2 in Hq.
  rewrite Forall_forall in Hall. apply (Hall (q, nd) Hq).
Qed.

Lemma unify_keeps_stamps_witness :
  stamps_bounded (world_of (unify false 100 1 3 disjoint_world))
  ∧ counter disjoint_world
    ≤ counter (world_of (unify false 100 1 3 disjoint_world)).
Proof.
  apply (unify_keeps_stamps false 100 1 3 disjoint_world).
  apply stamps_bounded_world_with. repeat constructor; done.
Defined.

Local Close Scope Z_scope.

(** ** A leaf met by a node that is not a leaf *)

(** The world in which the leaf [l] has been forwarded to [c]. *)
Definition absorbed_world (l c : nat) (ndl : DGNode) (w : World) : World :=
  mkWorld (<[l := set_generation (counter w + 1)%Z
                    (set_forward (Some c) ndl)]> (heap w))
          (counter w + 1)%Z (shared_structures w).

(** X8: When a leaf meets a node that is not a leaf (a complex or an atomic
    node), neither of them forwarded, [unify_core] succeeds whichever
    comes first, and both orders leave the same world: the leaf is
    forwarded to the other node and stamped, the other node is not
    written to, and no name or arc is compared. *)
Theorem unify_core_leaf_absorbed d l c ndl ndc w :
  heap w !! l = Some ndl → heap w !! c = Some ndc →
  forward ndl = None → forward ndc = None →
  node_type ndl = LEAF → node_type ndc ≠ LEAF →
  unify_core (S d) l c w = Ok true (absorbed_world l c ndl w)
  ∧ unify_core (S d) c l w = Ok true (absorbed_world l c ndl w)
  ∧ heap (absorbed_world l c ndl w) !! c = Some ndc.
Proof.
  intros Hl Hc Hfl Hfc Htl Htc.
  assert (l ≠ c) as Hne by (intros ->; congruence).
  assert (is_leaf_node ndl = true) as Hll
    by (unfold is_leaf_node; by rewrite bool_decide_true).
  assert (is_leaf_node ndc = false) as Hlc
    by (unfold is_leaf_node; by rewrite bool_decide_false).
  pose proof (dereference_representative d l ndl w Hl Hfl) as Hdl.
  pose proof (dereference_representative d c ndc w Hc Hfc) as Hdc.
  assert (∀ g, alter (set_generation g) l
                 (alter (set_forward (Some c)) l (heap w))
               = <[l := set_generation g (set_forward (Some c) ndl)]> (heap w))
    as Halter.
  { intros g. rewrite (alter_lookup_insert _ _ _ _ Hl).
    by rewrite alter_insert_eq. }
  split_and!.
  - cbn [unify_core].
    rewrite (bind_Ok _ _ _ _ _ Hdl), (bind_Ok _ _ _ _ _ Hdc).
    rewrite decide_False by done.
    rewrite (bind_Ok _ _ _ _ _ (get_node_Some _ _ _ Hl)).
    rewrite (bind_Ok _ _ _ _ _ (get_node_Some _ _ _ Hc)).
    rewrite Hll, Hlc. cbv beta iota delta [andb].
    repeat (rewrite bind_unfold; simpl).
    unfold absorbed_world, with_heap. simpl. by rewrite Halter.
  - cbn [unify_core].
    rewrite (bind_Ok _ _ _ _ _ Hdc), (bind_Ok _ _ _ _ _ Hdl).
    rewrite decide_False by done.
    rewrite (bind_Ok _ _ _ _ _ (get_node_Some _ _ _ Hc)).
    rewrite (bind_Ok _ _ _ _ _ (get_node_Some _ _ _ Hl)).
    rewrite Hll, Hlc. cbv beta iota delta [andb].
    repeat (rewrite bind_unfold; simpl).
    unfold absorbed_world, with_heap. simpl. by rewrite Halter.
  - simpl. by rewrite lookup_insert_ne.
Qed.

Lemma unify_core_leaf_absorbed_witness :
  unify_core 100 0 1 disjoint_world
  = Ok true (absorbed_world 0 1 (leaf_node "X") disjoint_world)
  ∧ unify_core 100 1 0 disjoint_world
    = Ok true (absorbed_world 0 1 (leaf_node "X") disjoint_world)
  ∧ heap (absorbed_world 0 1 (leaf_node "X") disjoint_world) !! 1
    = Some (complex_node [mkArc "f" 0]).
Proof.
  apply (unify_core_leaf_absorbed 99 0 1 (leaf_node "X")
           (complex_node [mkArc "f" 0]) disjoint_world);
    first [reflexivity | discriminate].
Defined.

(** ** [==] on nodes *)

(** X9: [==] on two nodes does not look at the children: [Arc.__eq__]
    compares labels only, so two nodes without [forward], [copy] and
    [mark] are equal exactly when they agree on type, on the labels of
    [arc_list] and of [comp_arc_list] in order, on generation and on
    name, whatever their arcs point at. *)
Theorem DGNode_eq_ignores_children d (h : gmap nat DGNode) a b na nb :
  h !! a = Some na → h !! b = Some nb →
  forward na = None → forward nb = None →
  copy na = None → copy nb = None →
  mark na = None → mark nb = None →
  DGNode_eq (S d) h a b
  = Some (bool_decide (node_type na = node_type nb
                       ∧ label <$> arc_list na = label <$> arc_list nb
                       ∧ label <$> comp_arc_list na = label <$> comp_arc_list nb
                       ∧ generation na = generation nb
                       ∧ name na = name nb)).
Proof.
  intros Ha Hb Hfa Hfb Hca Hcb Hma Hmb. simpl.
  rewrite Ha, Hb, Hfa, Hfb, Hca, Hcb, Hma, Hmb. unfold and_then. simpl.
  repeat case_bool_decide; try done; exfalso; tauto.
Qed.

Lemma DGNode_eq_ignores_children_witness :
  DGNode_eq 100 (heap disjoint_world) 0 2 = Some false
  ∧ DGNode_eq 100 (heap flat_world) 0 2 = Some true.
Proof.
  split.
  - rewrite (DGNode_eq_ignores_children 99 (heap disjoint_world) 0 2
               (leaf_node "X") (leaf_node "Y")); reflexivity.
  - rewrite (DGNode_eq_ignores_children 99 (heap flat_world) 0 2
               (leaf_node "A") (leaf_node "A")); reflexivity.
Defined.

(** ** The default unifier *)

(** X10: With [structure_sharing=True], the default, a top-level call never
    hands back a node: where [unify_core] succeeds the copy step raises
    [TypeError] on hashing the node, and the world is left as
    [unify_core] made it; where [unify_core] raises [UnificationFailure]
    the result is [None]. *)
Theorem unify_shared_never_returns depth node1 node2 w :
  (∀ r w', unify true depth node1 node2 w ≠ Ok (Some r) w')
  ∧ (∀ w1, unify_core depth node1 node2 w = Ok true w1 →
           unify true depth node1 node2 w = Raise TypeError w1)
  ∧ (∀ w1, unify_core depth node1 node2 w = Raise UnificationFailure w1 →
           unify true depth node1 node2 w = Ok None w1).
Proof.
  rewrite unify_unfold.
  destruct (unify_core depth node1 node2 w) as [[|] w1|e w1].
  - rewrite copy_with_comp_arcs_shared_raises.
    split_and!; [done|by intros ? [= <-]|done].
  - split_and!; done.
  - split_and!; [by destruct e|done|by intros ? [= -> <-]].
Qed.

(** ** Building nodes and unifying them *)

Lemma unify_false_Ok_true d node1 node2 w w1 nd :
  unify_core d node1 node2 w = Ok true w1 → heap w1 !! node1 = Some nd →
  ∃ r, unify false d node1 node2 w
       = Ok (Some r) (with_heap (<[r := copied_node nd]> (heap w1)) w1)
       ∧ heap w1 !! r = None.
Proof.
  intros Hc Hn. rewrite unify_unfold, Hc.
  destruct (copy_with_comp_arcs_unshared node1 nd w1 Hn) as (r & -> & Hr).
  by exists r.
Qed.

(** X11: Two leaves made by [create_leaf_node], in any world, unify exactly
    when they were given the same name.  On success the result is a
    third new leaf of that name; on failure it is [None].  Either way
    the two leaves stay as they were made, the counter does not move,
    and no object that existed before is touched. *)
Theorem created_leaves_unify (a b : string) (d : nat) (w : World) :
  ∃ l1 l2 res w',
    (l1 ← create_leaf_node a;
     l2 ← create_leaf_node b;
     res ← unify false (S d) l1 l2;
     mret (l1, l2, res)) w = Ok (l1, l2, res) w'
    ∧ l1 ≠ l2
    ∧ heap w !! l1 = None ∧ heap w !! l2 = None
    ∧ heap w' !! l1 = Some (leaf_node a)
    ∧ heap w' !! l2 = Some (leaf_node b)
    ∧ counter w' = counter w
    ∧ (∀ q, is_Some (heap w !! q) → heap w' !! q = heap w !! q)
    ∧ if decide (a = b)
      then ∃ r, res = Some r ∧ r ≠ l1 ∧ r ≠ l2 ∧ heap w !! r = None
                ∧ heap w' !! r = Some (leaf_node a)
      else res = None.
Proof.
  destruct (alloc_fresh (leaf_node a) w) as (l1 & Ha1 & Hf1).
  set (w1 := with_heap (<[l1 := leaf_node a]> (heap w)) w) in *.
  destruct (alloc_fresh (leaf_node b) w1) as (l2 & Ha2 & Hf2).
  set (w2 := with_heap (<[l2 := leaf_node b]> (heap w1)) w1) in *.
  assert (l1 ≠ l2) as Hne.
  { intros <-. simpl in Hf2. by rewrite lookup_insert_eq in Hf2. }
  assert (heap w !! l2 = None) as Hf2'.
  { simpl in Hf2. by rewrite lookup_insert_ne in Hf2. }
  assert (heap w2 !! l1 = Some (leaf_node a)) as Hl1.
  { simpl. rewrite lookup_insert_ne by done. apply lookup_insert_eq. }
  assert (heap w2 !! l2 = Some (leaf_node b)) as Hl2
    by (simpl; apply lookup_insert_eq).
  assert (∀ q, is_Some (heap w !! q) → heap w2 !! q = heap w !! q) as Hold.
  { intros q [nd Hq]. simpl.
    rewrite !lookup_insert_ne; [done|intros ->; congruence|intros ->; congruence]. }
  pose proof (unify_core_leaves d l1 l2 (leaf_node a) (leaf_node b) w2
                Hl1 Hl2 eq_refl eq_refl eq_refl eq_refl) as Hcore.
  unfold create_leaf_node.
  rewrite (bind_Ok _ _ _ _ _ Ha1), (bind_Ok _ _ _ _ _ Ha2).
  destruct (decide (a = b)) as [<-|Hab].
  - rewrite decide_True in Hcore by done.
    destruct (unify_false_Ok_true _ _ _ _ _ _ Hcore Hl1) as (r & Hu & Hr).
    rewrite (bind_Ok _ _ _ _ _ Hu).
    assert (r ≠ l1) as Hr1 by (intros ->; congruence).
    assert (r ≠ l2) as Hr2 by (intros ->; congruence).
    assert (heap w !! r = None) as Hr0.
    { destruct (heap w !! r) as [nd|] eqn:Hq; [|done].
      rewrite <- (Hold r) in Hq by eauto. congruence. }
    set (w3 := with_heap (<[r:=copied_node (leaf_node a)]> (heap w2)) w2).
    assert (∀ q, q ≠ r → heap w3 !! q = heap w2 !! q) as Hw3
      by (intros q Hq; simpl; by rewrite lookup_insert_ne).
    exists l1, l2, (Some r), w3. split; [reflexivity|].
    split_and!; try done.
    + by rewrite Hw3.
    + by rewrite Hw3.
    + intros q Hq. rewrite Hw3; [by apply Hold|].
      intros ->. destruct Hq as [nd Hq]. congruence.
    + exists r. split_and!; try done. simpl. apply lookup_insert_eq.
  - rewrite decide_False in Hcore by (simpl; congruence).
    assert (unify false (S d) l1 l2 w2 = Ok None w2) as Hu
      by (by rewrite unify_unfold, Hcore).
    rewrite (bind_Ok _ _ _ _ _ Hu).
    eexists l1, l2, None, _. split; [reflexivity|].
    split_and!; done.
Qed.

(** X12: The disjoint merge from construction to result: two complex nodes
    made by [create_complex_node] from arc lists with no label in common
    unify, and the result is a new complex node whose arc list is the
    first list followed by the second.  The second node is left as made;
    the first keeps its arc list and is forwarded to the second. *)
Theorem created_disjoint_nodes_merge (ax ay : list Arc) (d : nat) (w : World) :
  disjoint_labels ax ay →
  ∃ x y r w',
    (x ← create_complex_node ax;
     y ← create_complex_node ay;
     res ← unify false (S d) x y;
     mret (x, y, res)) w = Ok (x, y, Some r) w'
    ∧ heap w !! x = None ∧ heap w !! y = None ∧ heap w !! r = None
    ∧ x ≠ y ∧ r ≠ x ∧ r ≠ y
    ∧ heap w' !! r = Some (complex_node (ax ++ ay))
    ∧ heap w' !! y = Some (complex_node ay)
    ∧ heap w' !! x
      = Some (joined_node ay (counter w + 1)%Z y (complex_node ax))
    ∧ (∀ q, is_Some (heap w !! q) → heap w' !! q = heap w !! q).
Proof.
  intros Hdisj.
  destruct (alloc_fresh (complex_node ax) w) as (x & Ha1 & Hf1).
  set (w1 := with_heap (<[x := complex_node ax]> (heap w)) w) in *.
  destruct (alloc_fresh (complex_node ay) w1) as (y & Ha2 & Hf2).
  set (w2 := with_heap (<[y := complex_node ay]> (heap w1)) w1) in *.
  assert (x ≠ y) as Hne.
  { intros <-. simpl in Hf2. by rewrite lookup_insert_eq in Hf2. }
  assert (heap w !! y = None) as Hf2'.
  { simpl in Hf2. by rewrite lookup_insert_ne in Hf2. }
  assert (heap w2 !! x = Some (complex_node ax)) as Hx.
  { simpl. rewrite lookup_insert_ne by done. apply lookup_insert_eq. }
  assert (heap w2 !! y = Some (complex_node ay)) as Hy
    by (simpl; apply lookup_insert_eq).
  pose proof (unify_core_disjoint d x y w2 w2 w2 x y
                (complex_node ax) (complex_node ay)
                (dereference_representative d x _ w2 Hx eq_refl)
                (dereference_representative d y _ w2 Hy eq_refl)
                Hne Hx Hy eq_refl eq_refl Hdisj) as Hcore.
  set (w3 := mkWorld _ _ _) in Hcore.
  assert (heap w3 !! x
          = Some (joined_node ay (counter w + 1)%Z y (complex_node ax))) as Hx3
    by apply lookup_insert_eq.
  destruct (unify_false_Ok_true _ _ _ _ _ _ Hcore Hx3) as (r & Hu & Hr).
  assert (r ≠ x) as Hrx by (intros ->; congruence).
  assert (heap w2 !! r = None) as Hr2.
  { simpl in Hr. by rewrite lookup_insert_ne in Hr. }
  assert (r ≠ y) as Hry by (intros ->; congruence).
  assert (heap w !! r = None) as Hr0.
  { simpl in Hr2. by rewrite !lookup_insert_ne in Hr2. }
  unfold create_complex_node.
  rewrite (bind_Ok _ _ _ _ _ Ha1), (bind_Ok _ _ _ _ _ Ha2),
          (bind_Ok _ _ _ _ _ Hu).
  set (w4 := with_heap
               (<[r:=copied_node
                       (joined_node ay (counter w + 1)%Z y (complex_node ax))]>
                  (heap w3)) w3).
  assert (∀ q, q ≠ r → heap w4 !! q = heap w3 !! q) as Hw4
    by (intros q Hq; simpl; by rewrite lookup_insert_ne).
  assert (∀ q, q ≠ x → heap w3 !! q = heap w2 !! q) as Hw3
    by (intros q Hq; simpl; by rewrite lookup_insert_ne).
  exists x, y, r, w4. split; [reflexivity|].
  split_and!; try done.
  - simpl. apply lookup_insert_eq.
  - rewrite Hw4, Hw3 by done. exact Hy.
  - rewrite Hw4 by done. exact Hx3.
  - intros q [nd Hq].
    assert (q ≠ r) by (intros ->; congruence).
    assert (q ≠ x) by (intros ->; congruence).
    assert (q ≠ y) by (intros ->; congruence).
    rewrite Hw4, Hw3 by done. simpl. by rewrite !lookup_insert_ne.
Qed.

Lemma created_disjoint_nodes_merge_witness :
  ∃ x y r w',
    (x ← create_complex_node [mkArc "f" 0];
     y ← create_complex_node [mkArc "g" 2];
     res ← unify false 100 x y;
     mret (x, y, res)) disjoint_world = Ok (x, y, Some r) w'
    ∧ heap disjoint_world !! x = None ∧ heap disjoint_world !! y = None
    ∧ heap disjoint_world !! r = None
    ∧ x ≠ y ∧ r ≠ x ∧ r ≠ y
    ∧ heap w' !! r = Some (complex_node ([mkArc "f" 0] ++ [mkArc "g" 2]))
    ∧ heap w' !! y = Some (complex_node [mkArc "g" 2])
    ∧ heap w' !! x
      = Some (joined_node [mkArc "g" 2] (counter disjoint_world + 1)%Z y
                          (complex_node [mkArc "f" 0]))
    ∧ (∀ q, is_Some (heap disjoint_world !! q) →
            heap w' !! q = heap disjoint_world !! q).
Proof.
  apply (created_disjoint_nodes_merge [mkArc "f" 0] [mkArc "g" 2] 99
           disjoint_world).
  exact disjoint_world_labels.
Defined.


(** ** A recursion that never ends *)

(** A node that forwards straight to a node without [forward]
    dereferences to it at any call depth: the path holds no node to
    compare with. *)
Lemma dereference_one_step depth n r nd ndr w :
  heap w !! n = Some nd → forward nd = Some r →
  heap w !! r = Some ndr → forward ndr = None →
  dereference depth n w = Ok r w.
Proof.
  intros Hn Hf Hr Hfr. unfold dereference.
  rewrite <- (deref_walk_fuel_irrelevant (S (size (heap w)))) by lia.
  simpl. rewrite Hn, Hf. simpl.
  assert (deref_walk (size (heap w)) depth (heap w) r [n] = inr (r, [n])) as ->
    by (destruct (size (heap w)); simpl; by rewrite Hr, Hfr).
  rewrite bind_unfold, for_each_assign. simpl.
  assert (alter (set_forward (Some r)) n (heap w) = heap w) as ->.
  { apply map_eq. intros q. destruct (decide (n = q)) as [<-|Hne].
    - rewrite lookup_alter_eq, Hn. simpl. f_equal.
      destruct nd. simpl in Hf. by subst.
    - by rewrite lookup_alter_ne. }
  by rewrite with_heap_id.
Qed.

Lemma intersect_arcs_single lbl (c1 c2 : nat) :
  intersect_arcs [mkArc lbl c1] [mkArc lbl c2] = [mkArc lbl c2].
Proof.
  rewrite intersect_arcs_filter, filter_cons, decide_True; [done|].
  apply elem_of_labels_of. exists (mkArc lbl c1). split; [left|done].
Qed.

(** X14: [unify_core] has no bound on its recursion, even on graphs without
    cycles among the arcs.  Take a complex node [a] whose one arc leads
    to a complex node [b], whose one arc, under the same label, leads to
    a node [l] that an earlier call has forwarded to [a].  Then
    [unify_core(a, b)] recurses on [(b, l)], which dereferences [l] to
    [a] and recurses on [(l, b)], which is [(a, b)] again, nothing having
    been written: at every call depth the outcome is [RecursionError],
    with the world unchanged. *)
Theorem unify_core_unbounded_recursion depth lbl a b l nl w :
  a ≠ b →
  heap w !! a = Some (complex_node [mkArc lbl b]) →
  heap w !! b = Some (complex_node [mkArc lbl l]) →
  heap w !! l = Some nl → forward nl = Some a →
  unify_core depth a b w = Raise RecursionError w
  ∧ unify_core depth l b w = Raise RecursionError w
  ∧ unify_core depth b l w = Raise RecursionError w.
Proof.
  intros Hne Ha Hb Hl Hfl.
  assert (∀ d, dereference d a w = Ok a w) as Hda
    by (intros d; by eapply dereference_representative).
  assert (∀ d, dereference d b w = Ok b w) as Hdb
    by (intros d; by eapply dereference_representative).
  assert (∀ d, dereference d l w = Ok a w) as Hdl
    by (intros d; by eapply dereference_one_step).
  (* One level of the join of [x] and [y], given what the call on their
     children does. *)
  assert (∀ d n1 n2 x y cx cy,
            dereference d n1 w = Ok x w → dereference d n2 w = Ok y w →
            x ≠ y →
            heap w !! x = Some (complex_node [mkArc lbl cx]) →
            heap w !! y = Some (complex_node [mkArc lbl cy]) →
            unify_core d cx cy w = Raise RecursionError w →
            unify_core (S d) n1 n2 w = Raise RecursionError w) as Hlevel.
  { intros d n1 n2 x y cx cy H1 H2 Hxy Hx Hy Hrec.
    destruct d as [|d'].
    - cbn [unify_core].
      rewrite (bind_Ok _ _ _ _ _ H1), (bind_Ok _ _ _ _ _ H2).
      rewrite decide_False by done.
      rewrite (bind_Ok _ _ _ _ _ (get_node_Some _ _ _ Hx)).
      rewrite (bind_Ok _ _ _ _ _ (get_node_Some _ _ _ Hy)).
      cbn [arc_list complex_node].
      change (is_leaf_node (complex_node [mkArc lbl cx])) with false.
      change (is_leaf_node (complex_node [mkArc lbl cy])) with false.
      cbv beta iota delta [andb]. rewrite intersect_arcs_single.
      cbn [for_each]. rewrite !bind_unfold, (get_node_Some _ _ _ Hx).
      cbn [arc_list complex_node label find_arc].
      rewrite decide_True by done. by rewrite bind_unfold.
    - remember (S d') as d eqn:Hd. cbn [unify_core].
      rewrite (bind_Ok _ _ _ _ _ H1), (bind_Ok _ _ _ _ _ H2).
      rewrite decide_False by done.
      rewrite (bind_Ok _ _ _ _ _ (get_node_Some _ _ _ Hx)).
      rewrite (bind_Ok _ _ _ _ _ (get_node_Some _ _ _ Hy)).
      cbn [arc_list complex_node].
      change (is_leaf_node (complex_node [mkArc lbl cx])) with false.
      change (is_leaf_node (complex_node [mkArc lbl cy])) with false.
      cbv beta iota delta [andb]. rewrite intersect_arcs_single.
      cbn [for_each]. rewrite !bind_unfold, (get_node_Some _ _ _ Hx).
      cbn [arc_list complex_node label find_arc value].
      rewrite decide_True by done. rewrite bind_unfold.
      change (value (mkArc lbl cx)) with cx. by rewrite Hrec. }
  induction depth as [|d IH]; [done|].
  destruct IH as (Hab & Hlb & Hbl).
  split_and!.
  - by apply (Hlevel d a b a b b l).
  - by apply (Hlevel d l b a b b l).
  - by apply (Hlevel d b l b a l b).
Qed.

(** The world of the theorem comes about through the interface: make a
    leaf, a complex node over it, a complex node over that one, and
    unify the leaf with the outer node. *)
Definition nested_world : World :=
  world_with [(0, leaf_node "A");
              (1, complex_node [mkArc "f" 0]);
              (2, complex_node [mkArc "f" 1])].

Lemma unify_core_unbounded_recursion_witness :
  unify_core 1000 2 1 (world_of (unify false 100 0 2 nested_world))
  = Raise RecursionError (world_of (unify false 100 0 2 nested_world))
  ∧ unify_core 1000 0 1 (world_of (unify false 100 0 2 nested_world))
    = Raise RecursionError (world_of (unify false 100 0 2 nested_world))
  ∧ unify_core 1000 1 0 (world_of (unify false 100 0 2 nested_world))
    = Raise RecursionError (world_of (unify false 100 0 2 nested_world)).
Proof.
  apply (unify_core_unbounded_recursion 1000 "f" 2 1 0
           (set_generation 11%Z (set_forward (Some 2) (leaf_node "A")))).
  - discriminate.
  - vm_compute. reflexivity.
  - vm_compute. reflexivity.
  - vm_compute. reflexivity.
  - reflexivity.
Defined.

(** * The code with its list objects

    Above, every node carries its two arc lists by value.  That is what
    the code does as long as the [comp_arc_list] of every node is held
    by that field alone.  A Python list is an object, though:
    [create_complex_node] stores the very list its caller passes, and
    [dg1.comp_arc_list.extend(new_arcs)] changes a list in place, under
    every name it has.  In this part the lists live in a store of their
    own, [arc_list] and [comp_arc_list] hold identities of list objects,
    and sharing a list between nodes is visible.  The functions are
    embedded again, line by line, over that store. *)

Module ListObjects.

Local Open Scope Z_scope.

(** ** Data model *)

(** [class DGNode]: [arc_list] and [comp_arc_list] are identities of
    list objects; the other fields are as before. *)
Record DGNode := mkDGNode {
  node_type : NodeType;
  arc_list : nat;
  comp_arc_list : nat;
  forward : option nat;
  copy : option nat;
  generation : Z;
  mark : option nat;
  name : option string
}.

#[export] Instance DGNode_eq_dec : EqDecision DGNode.
Proof. solve_decision. Defined.

Definition set_forward (f : option nat) (nd : DGNode) : DGNode :=
  mkDGNode (node_type nd) (arc_list nd) (comp_arc_list nd) f
           (copy nd) (generation nd) (mark nd) (name nd).

Definition set_generation (g : Z) (nd : DGNode) : DGNode :=
  mkDGNode (node_type nd) (arc_list nd) (comp_arc_list nd) (forward nd)
           (copy nd) g (mark nd) (name nd).

Definition set_copy (c : option nat) (nd : DGNode) : DGNode :=
  mkDGNode (node_type nd) (arc_list nd) (comp_arc_list nd) (forward nd)
           c (generation nd) (mark nd) (name nd).

(** The world: the [DGNode] objects, the list objects, the counter
    singleton and the [shared_structures] set.  Nodes and lists are
    looked up in their own stores: a node identity is only ever read
    from [forward], [copy], [mark] and [Arc.value], a list identity only
    from [arc_list] and [comp_arc_list]. *)
Record World := mkWorld {
  heap : gmap nat DGNode;
  lists : gmap nat (list Arc);
  counter : Z;
  shared_structures : gset nat
}.

Definition empty_world : World := mkWorld ∅ ∅ initial_counter ∅.

Definition with_heap (h : gmap nat DGNode) (w : World) : World :=
  mkWorld h (lists w) (counter w) (shared_structures w).

Definition with_lists (ls : gmap nat (list Arc)) (w : World) : World :=
  mkWorld (heap w) ls (counter w) (shared_structures w).

(** ** The state-and-exception monad *)

Inductive outcome (A : Type) :=
  | Ok (a : A) (w : World)
  | Raise (e : exn) (w : World).
Arguments Ok {A} a w.
Arguments Raise {A} e w.

Definition world_of {A} (o : outcome A) : World :=
  match o with Ok _ w => w | Raise _ w => w end.

Definition M (A : Type) : Type := World → outcome A.

#[export] Instance M_ret : MRet M := λ A a w, Ok a w.

#[export] Instance M_bind : MBind M := λ A B f m w,
  match m w with
  | Ok a w' => f a w'
  | Raise e w' => Raise e w'
  end.

Definition raise {A} (e : exn) : M A := λ w, Raise e w.

(** Reading an attribute of the node [r]; an identity the store does not
    map to a [DGNode] stands for an object of another class. *)
Definition get_node (r : nat) : M DGNode := λ w,
  match heap w !! r with
  | Some nd => Ok nd w
  | None => Raise AttributeError w
  end.

(** [obj.attr = v] *)
Definition assign (r : nat) (f : DGNode → DGNode) : M unit := λ w,
  Ok tt (with_heap (alter f r (heap w)) w).

(** Iterating over the list object [l] ([for arc in l], a
    comprehension over [l], [extend(l)]): the elements it holds now.  An
    identity the store does not map to a list stands for an object that
    is not a list, taken not to be iterable. *)
Definition get_list (l : nat) : M (list Arc) := λ w,
  match lists w !! l with
  | Some arcs => Ok arcs w
  | None => Raise TypeError w
  end.

(** [l.extend(arcs)]: the list object [l] gets the elements appended, in
    place.  Every node that holds [l] sees them. *)
Definition list_extend (l : nat) (arcs : list Arc) : M unit := λ w,
  match lists w !! l with
  | Some old => Ok tt (with_lists (<[l := old ++ arcs]> (lists w)) w)
  | None => Raise AttributeError w
  end.

(** [l.clear()] *)
Definition list_clear (l : nat) : M unit := λ w,
  match lists w !! l with
  | Some _ => Ok tt (with_lists (<[l := []]> (lists w)) w)
  | None => Raise AttributeError w
  end.

(** A list display [[a, b, ...]] and the [default_factory] of the two
    list fields: a new list object. *)
Definition new_list (arcs : list Arc) : M nat := λ w,
  let l := fresh (dom (lists w)) in
  Ok l (with_lists (<[l := arcs]> (lists w)) w).

(** [l.copy()]: a new list object with the elements of [l]. *)
Definition list_copy (l : nat) : M nat := λ w,
  match lists w !! l with
  | Some arcs => new_list arcs w
  | None => Raise AttributeError w
  end.

(** [for x in xs: body(x)] over a list the loop owns. *)
Fixpoint for_each {A} (xs : list A) (body : A → M unit) : M unit :=
  match xs with
  | [] => mret tt
  | x :: xs' => _ ← body x; for_each xs' body
  end.

(** [try: body except UnificationFailure: handler] *)
Definition try_except_UnificationFailure {A} (body handler : M A) : M A :=
  λ w, match body w with
       | Raise UnificationFailure w' => handler w'
       | o => o
       end.

(** [UnificationCounter.next_generation] *)
Definition next_generation : M Z := λ w,
  let c := counter w + 1 in
  Ok c (mkWorld (heap w) (lists w) c (shared_structures w)).

(** Constructing a [DGNode]: a new object with a new identity. *)
Definition alloc (nd : DGNode) : M nat := λ w,
  let r := fresh (dom (heap w)) in
  Ok r (with_heap (<[r := nd]> (heap w)) w).

(** ** [DGNode.__eq__] and [in]

    The generated [__eq__] compares the tuples of fields left to right,
    each pair by identity first and by [==] otherwise.  Two list objects
    are [==] when they have the same length and their arcs are pairwise
    [==], which for [Arc] is equality of the labels. *)

Definition list_eq (ls : gmap nat (list Arc)) (a b : nat) : bool :=
  if decide (a = b) then true
  else match ls !! a, ls !! b with
       | Some la, Some lb => bool_decide (label <$> la = label <$> lb)
       | _, _ => false
       end.

Definition attr_eq (rec : nat → nat → option bool) (h : gmap nat DGNode)
    (x y : option nat) : option bool :=
  match x, y with
  | None, None => Some true
  | Some a, Some b =>
      if decide (a = b) then Some true
      else match h !! a, h !! b with
           | Some _, Some _ => rec a b
           | _, _ => Some false
           end
  | _, _ => Some false
  end.

Fixpoint DGNode_eq (depth : nat) (h : gmap nat DGNode)
    (ls : gmap nat (list Arc)) (a b : nat) : option bool :=
  match depth with
  | O => None
  | S d =>
      match h !! a, h !! b with
      | Some na, Some nb =>
          and_then (Some (bool_decide (node_type na = node_type nb)))
         (and_then (Some (list_eq ls (arc_list na) (arc_list nb)))
         (and_then (Some (list_eq ls (comp_arc_list na) (comp_arc_list nb)))
         (and_then (attr_eq (DGNode_eq d h ls) h (forward na) (forward nb))
         (and_then (attr_eq (DGNode_eq d h ls) h (copy na) (copy nb))
         (and_then (Some (bool_decide (generation na = generation nb)))
         (and_then (attr_eq (DGNode_eq d h ls) h (mark na) (mark nb))
                   (Some (bool_decide (name na = name nb)))))))))
      | _, _ => Some false
      end
  end.

(** [x in path] on a list of nodes: identity first, then [==]. *)
Fixpoint list_contains (depth : nat) (h : gmap nat DGNode)
    (ls : gmap nat (list Arc)) (l : list nat) (x : nat) : option bool :=
  match l with
  | [] => Some false
  | e :: l' =>
      if decide (e = x) then Some true
      else match DGNode_eq depth h ls e x with
           | None => None
           | Some true => Some true
           | Some false => list_contains depth h ls l' x
           end
  end.

(** ** [TomabechiUnifier.dereference] *)

(** The [while] loop.  [path] is a local list; [fuel] bounds the number
    of rounds by the number of objects, as before. *)
Fixpoint deref_walk (fuel depth : nat) (h : gmap nat DGNode)
    (ls : gmap nat (list Arc)) (current : nat) (path : list nat) :
    exn + nat * list nat :=
  match h !! current with
  | None => inl AttributeError
  | Some nd =>
      match forward nd with
      | None => inr (current, path)
      | Some next =>
          match list_contains depth h ls path current with
          | None => inl RecursionError
          | Some true => inl ValueError
          | Some false =>
              match fuel with
              | O => inl ValueError
              | S fuel' => deref_walk fuel' depth h ls next (path ++ [current])
              end
          end
      end
  end.

Definition dereference (depth : nat) (node : nat) : M nat := λ w,
  match deref_walk (size (heap w)) depth (heap w) (lists w) node [] with
  | inl e => Raise e w
  | inr (current, path) =>
      (_ ← for_each path (λ node_in_path,
                            assign node_in_path (set_forward (Some current)));
       mret current) w
  end.

(** ** Node tests *)

Definition is_leaf_node (nd : DGNode) : bool :=
  bool_decide (node_type nd = LEAF).

Definition is_complex_node (nd : DGNode) : bool :=
  bool_decide (node_type nd = COMPLEX).

(** ** [TomabechiUnifier.unify_core] *)

(** One round of [for arc in shared_arcs] (lines 172-176): [dg1.arc_list]
    is read again in every round. *)
Definition loop_body (unify_core : nat → nat → M bool) (dg1 : nat)
    (arc : Arc) : M unit :=
  cur1 ← get_node dg1;
  arcs ← get_list (arc_list cur1);
  match find_arc (label arc) arcs with
  | Some arc1 => _ ← unify_core (value arc1) (value arc); mret tt
  | None => mret tt
  end.

(** Lines 166-169 and again 179-182: the three writes of a join. *)
Definition finish_join (dg1 dg2 : nat) (new_arcs : list Arc) : M bool :=
  cur1 ← get_node dg1;
  _ ← list_extend (comp_arc_list cur1) new_arcs;
  g ← next_generation;
  _ ← assign dg1 (set_generation g);
  _ ← assign dg1 (set_forward (Some dg2));
  mret true.

Fixpoint unify_core (depth : nat) (node1 node2 : nat) : M bool :=
  match depth with
  | O => raise RecursionError
  | S d =>
      dg1 ← dereference d node1;
      dg2 ← dereference d node2;
      if decide (dg1 = dg2) then mret true
      else
        nd1 ← get_node dg1;
        nd2 ← get_node dg2;
        if is_leaf_node nd1 && is_leaf_node nd2 then
          if decide (name nd1 = name nd2) then mret true
          else raise UnificationFailure
        else if is_leaf_node nd1 then
          _ ← assign dg1 (set_forward (Some dg2));
          g ← next_generation;
          _ ← assign dg1 (set_generation g);
          mret true
        else if is_leaf_node nd2 then
          _ ← assign dg2 (set_forward (Some dg1));
          g ← next_generation;
          _ ← assign dg2 (set_generation g);
          mret true
        else
          arcs1 ← get_list (arc_list nd1);
          arcs2 ← get_list (arc_list nd2);
          let shared_arcs := intersect_arcs arcs1 arcs2 in
          let new_arcs := complement_arcs arcs2 arcs1 in
          match shared_arcs with
          | [] => finish_join dg1 dg2 new_arcs
          | _ :: _ =>
              _ ← for_each shared_arcs (loop_body (unify_core d) dg1);
              finish_join dg1 dg2 new_arcs
          end
  end.

(** ** [TomabechiUnifier.copy_with_comp_arcs]

    [node in self.shared_structures] and [shared_structures.add(node)]
    hash the node, which raises [TypeError] for a [DGNode]; for an
    object of another class the membership test answers [False]. *)

Definition WeakSet_contains (item : nat) : M bool := λ w,
  match heap w !! item with
  | Some _ => Raise TypeError w
  | None => Ok false w
  end.

Definition WeakSet_add (item : nat) : M unit := λ w,
  match heap w !! item with
  | Some _ => Raise TypeError w
  | None => Ok tt (mkWorld (heap w) (lists w) (counter w)
                           ({[item]} ∪ shared_structures w))
  end.

Definition copy_with_comp_arcs (structure_sharing : bool) (node : nat) : M nat :=
  cached ← (if structure_sharing then WeakSet_contains node else mret false);
  if (cached : bool) then
    nd ← get_node node;
    mret (match copy nd with Some c => c | None => node end)
  else
    nd ← get_node node;
    new_arc_list ← list_copy (arc_list nd);
    new_comp_arc_list ← list_copy (comp_arc_list nd);
    new_node ← alloc (mkDGNode (node_type nd) new_arc_list new_comp_arc_list
                               None None 0 None (name nd));
    nn ← get_node new_node;
    comp ← get_list (comp_arc_list nn);
    _ ← list_extend (arc_list nn) comp;
    nn ← get_node new_node;
    _ ← list_clear (comp_arc_list nn);
    _ ← (if structure_sharing then
           _ ← assign node (set_copy (Some new_node));
           WeakSet_add node
         else mret tt);
    mret new_node.

(** ** [TomabechiUnifier.unify] *)

Definition unify (structure_sharing : bool) (depth : nat)
    (node1 node2 : nat) : M (option nat) :=
  try_except_UnificationFailure
    (ok ← unify_core depth node1 node2;
     if (ok : bool) then
       result ← copy_with_comp_arcs structure_sharing node1;
       mret (Some result)
     else mret None)
    (mret None).

(** ** Constructors *)

(** [DGNode(NodeType.LEAF, name=name)]: both list fields come from
    [default_factory], two new lists. *)
Definition create_leaf_node (nm : string) : M nat :=
  al ← new_list [];
  cl ← new_list [];
  alloc (mkDGNode LEAF al cl None None 0 None (Some nm)).

(** [DGNode(NodeType.COMPLEX, arc_list=arcs)]: the node holds the list
    object [arcs] of the caller; [comp_arc_list] is a new list. *)
Definition create_complex_node (arcs : nat) : M nat :=
  cl ← new_list [];
  alloc (mkDGNode COMPLEX arcs cl None None 0 None None).

(** A world holding the given nodes and lists, with the counter and the
    unifier as they are when the module has just been loaded. *)
Definition world_with (nodes : list (nat * DGNode))
    (list_objects : list (nat * list Arc)) : World :=
  mkWorld (list_to_map nodes) (list_to_map list_objects) initial_counter ∅.

Local Close Scope Z_scope.

(** ** Unfolding equations *)

Lemma run_bind {A B} (m : M A) (k : A → M B) (w : World) :
  (m ≫= k) w = match m w with
               | Ok a w' => k a w'
               | Raise e w' => Raise e w'
               end.
Proof. reflexivity. Qed.

Lemma run_bind_Ok {A B} (m : M A) (k : A → M B) w a w' :
  m w = Ok a w' → (m ≫= k) w = k a w'.
Proof. intros H. rewrite run_bind, H. reflexivity. Qed.

Lemma run_bind_Raise {A B} (m : M A) (k : A → M B) w e w' :
  m w = Raise e w' → (m ≫= k) w = Raise e w'.
Proof. intros H. rewrite run_bind, H. reflexivity. Qed.

Lemma run_get_node r w nd :
  heap w !! r = Some nd → get_node r w = Ok nd w.
Proof. intros H. unfold get_node. by rewrite H. Qed.

Lemma run_get_list l w arcs :
  lists w !! l = Some arcs → get_list l w = Ok arcs w.
Proof. intros H. unfold get_list. by rewrite H. Qed.

Lemma run_list_extend l w old arcs :
  lists w !! l = Some old →
  list_extend l arcs w = Ok tt (with_lists (<[l := old ++ arcs]> (lists w)) w).
Proof. intros H. unfold list_extend. by rewrite H. Qed.

Lemma with_heap_same w : with_heap (heap w) w = w.
Proof. by destruct w. Qed.

Lemma for_each_snoc {A} (xs ys : list A) (body : A → M unit) w :
  for_each (xs ++ ys) body w
  = match for_each xs body w with
    | Ok _ w' => for_each ys body w'
    | Raise e w' => Raise e w'
    end.
Proof.
  revert w. induction xs as [|x xs IH]; intros w; simpl; [done|].
  rewrite !run_bind. destruct (body x w) as [[] w1|e w1]; [apply IH|done].
Qed.

(** ** What [dereference] writes *)

Lemma for_each_forward (path : list nat) (r : nat) w :
  for_each path (λ q, assign q (set_forward (Some r))) w
  = Ok tt (with_heap (foldl (λ h' q, alter (set_forward (Some r)) q h')
                            (heap w) path) w).
Proof.
  revert w. induction path as [|q path IH]; intros w; simpl.
  - by rewrite with_heap_same.
  - rewrite run_bind. simpl. rewrite IH. reflexivity.
Qed.

Lemma lookup_forwarded (r : nat) (path : list nat) (h : gmap nat DGNode) q :
  foldl (λ h' q', alter (set_forward (Some r)) q' h') h path !! q
  = if decide (q ∈ path) then set_forward (Some r) <$> h !! q else h !! q.
Proof.
  revert h. induction path as [|x path IH]; intros h; simpl.
  - destruct (decide (q ∈ [])) as [Hin|_]; [by apply elem_of_nil in Hin|done].
  - rewrite IH. destruct (decide (x = q)) as [->|Hne].
    + rewrite lookup_alter_eq.
      destruct (decide (q ∈ path)), (decide (q ∈ q :: path)) as [|Hn];
        try done.
      * by destruct (h !! q).
      * exfalso. apply Hn. left.
      * exfalso. apply Hn. left.
    + rewrite lookup_alter_ne by done.
      destruct (decide (q ∈ path)) as [Hin|Hin],
               (decide (q ∈ x :: path)) as [Hin'|Hin']; try done.
      * exfalso. apply Hin'. by right.
      * exfalso. apply elem_of_cons in Hin' as [->|?]; done.
Qed.

(** The walk ends at a node without [forward], and every node it puts
    on the path has one. *)
Lemma deref_walk_path fuel depth (h : gmap nat DGNode) ls current path r path' :
  deref_walk fuel depth h ls current path = inr (r, path') →
  (∃ ndr, h !! r = Some ndr ∧ forward ndr = None)
  ∧ ∀ q, q ∈ path' →
      q ∈ path ∨ ∃ nd, h !! q = Some nd ∧ forward nd ≠ None.
Proof.
  revert current path. induction fuel as [|fuel IH]; intros current path; simpl;
    destruct (h !! current) as [nd|] eqn:Hc; try done;
    destruct (forward nd) as [next|] eqn:Hf;
    try (intros [= <- <-]; split; [by exists nd|by left]);
    destruct (list_contains depth h ls path current) as [[|]|]; try done.
  intros Hw. destruct (IH _ _ Hw) as [Hr Hpath]. split; [done|].
  intros q Hq.
  destruct (Hpath q Hq) as [[Hin| ->%list_elem_of_singleton]%elem_of_app|Hfw];
    [by left| |by right].
  right. exists nd. split; [done|]. by rewrite Hf.
Qed.

(** [dereference] writes [forward], and nothing but [forward]: no list
    object, not the counter, and of a node only that one field, set to
    the node it returns.  It re-points nodes that had a [forward], so
    the node it returns, which has none, is not written to. *)
Lemma dereference_only_forward depth n w r w' :
  dereference depth n w = Ok r w' →
  lists w' = lists w ∧ counter w' = counter w
  ∧ shared_structures w' = shared_structures w
  ∧ (∀ q, heap w' !! q = heap w !! q
          ∨ ∃ nd, heap w !! q = Some nd ∧ forward nd ≠ None
                  ∧ heap w' !! q = Some (set_forward (Some r) nd))
  ∧ ∃ ndr, heap w !! r = Some ndr ∧ heap w' !! r = Some ndr
           ∧ forward ndr = None.
Proof.
  unfold dereference.
  destruct (deref_walk _ _ _ _ _ _) as [e|[current path]] eqn:Hw; [done|].
  rewrite run_bind, for_each_forward. intros [= <- <-].
  destruct (deref_walk_path _ _ _ _ _ _ _ _ Hw) as [(ndr & Hr & Hfr) Hpath].
  assert (∀ q, q ∈ path → ∃ nd, heap w !! q = Some nd ∧ forward nd ≠ None)
    as Hpath'.
  { intros q Hq. destruct (Hpath q Hq) as [Hin|?]; [|done].
    by apply elem_of_nil in Hin. }
  split_and!; [done|done|done| |].
  - intros q. simpl. rewrite lookup_forwarded.
    destruct (decide (q ∈ path)) as [Hq|]; [|by left].
    destruct (Hpath' q Hq) as (nd & Hnd & Hf). right. exists nd.
    by rewrite Hnd.
  - exists ndr. split_and!; [done| |done]. simpl. rewrite lookup_forwarded.
    destruct (decide (current ∈ path)) as [Hq|]; [|done].
    destruct (Hpath' _ Hq) as (nd & Hnd & Hf). congruence.
Qed.

Lemma dereference_raises_unchanged depth n w e w' :
  dereference depth n w = Raise e w' → w' = w.
Proof.
  unfold dereference.
  destruct (deref_walk _ _ _ _ _ _) as [e'|[current path]].
  - by intros [= _ <-].
  - by rewrite run_bind, for_each_forward.
Qed.

(** A node without [forward] is its own representative, and
    dereferencing it writes nothing. *)
Lemma dereference_no_forward depth r nd w :
  heap w !! r = Some nd → forward nd = None →
  dereference depth r w = Ok r w.
Proof.
  intros Hr Hf. unfold dereference.
  destruct (size (heap w)); simpl; rewrite Hr, Hf; reflexivity.
Qed.

(** ** The join of two non-leaf representatives *)

(** What a join leaves: the list object that is [dg1.comp_arc_list]
    extended, [dg1] stamped and forwarded. *)
Definition joined (dg1 dg2 : nat) (nd1 : DGNode) (comp1 new_arcs : list Arc)
    (w : World) : World :=
  mkWorld (<[dg1 := set_forward (Some dg2)
                      (set_generation (counter w + 1)%Z nd1)]> (heap w))
          (<[comp_arc_list nd1 := comp1 ++ new_arcs]> (lists w))
          (counter w + 1)%Z (shared_structures w).

Lemma run_finish_join dg1 dg2 nd1 comp1 new_arcs w :
  heap w !! dg1 = Some nd1 → lists w !! comp_arc_list nd1 = Some comp1 →
  finish_join dg1 dg2 new_arcs w
  = Ok true (joined dg1 dg2 nd1 comp1 new_arcs w).
Proof.
  intros Hn Hc. unfold finish_join.
  rewrite (run_bind_Ok _ _ _ _ _ (run_get_node _ _ _ Hn)).
  rewrite (run_bind_Ok _ _ _ _ _ (run_list_extend _ _ _ new_arcs Hc)).
  repeat (rewrite run_bind; simpl).
  unfold joined, with_heap. simpl. f_equal. f_equal.
  apply map_eq. intros q. destruct (decide (dg1 = q)) as [<-|Hne].
  - by rewrite lookup_alter_eq, lookup_alter_eq, Hn, lookup_insert_eq.
  - by rewrite !lookup_alter_ne, lookup_insert_ne.
Qed.

(** The complex-complex case of [unify_core], from the two
    representatives on: the loop runs over the arcs of the second
    operand whose label the first operand has, in the order the second
    operand lists them, and the join writes follow. *)
Lemma unify_core_complex d node1 node2 w w1 w2 dg1 dg2 nd1 nd2 arcs1 arcs2 :
  dereference d node1 w = Ok dg1 w1 →
  dereference d node2 w1 = Ok dg2 w2 →
  dg1 ≠ dg2 →
  heap w2 !! dg1 = Some nd1 → heap w2 !! dg2 = Some nd2 →
  is_leaf_node nd1 = false → is_leaf_node nd2 = false →
  lists w2 !! arc_list nd1 = Some arcs1 →
  lists w2 !! arc_list nd2 = Some arcs2 →
  unify_core (S d) node1 node2 w
  = (_ ← for_each (filter (λ arc2, label arc2 ∈ labels_of arcs1) arcs2)
                  (loop_body (unify_core d) dg1);
     finish_join dg1 dg2 (complement_arcs arcs2 arcs1)) w2.
Proof.
  intros H1 H2 Hne Hn1 Hn2 Hl1 Hl2 Ha1 Ha2. cbn [unify_core].
  rewrite (run_bind_Ok _ _ _ _ _ H1), (run_bind_Ok _ _ _ _ _ H2).
  rewrite decide_False by done.
  rewrite (run_bind_Ok _ _ _ _ _ (run_get_node _ _ _ Hn1)).
  rewrite (run_bind_Ok _ _ _ _ _ (run_get_node _ _ _ Hn2)).
  rewrite Hl1, Hl2. cbv beta iota delta [andb].
  rewrite (run_bind_Ok _ _ _ _ _ (run_get_list _ _ _ Ha1)).
  rewrite (run_bind_Ok _ _ _ _ _ (run_get_list _ _ _ Ha2)).
  rewrite intersect_arcs_filter.
  destruct (filter _ arcs2) as [|a l]; [|done].
  by rewrite run_bind.
Qed.

(** ** The bound on the dereference loop is never reached *)

Lemma not_contained_not_in depth (h : gmap nat DGNode) ls path x :
  list_contains depth h ls path x = Some false → x ∉ path.
Proof.
  induction path as [|e path IH]; simpl.
  - intros _ Hin. by apply elem_of_nil in Hin.
  - destruct (decide (e = x)) as [->|Hne]; [done|].
    destruct (DGNode_eq depth h ls e x) as [[|]|]; [done| |done].
    intros Hc Hin. apply elem_of_cons in Hin as [->|Hin]; [done|].
    by apply IH.
Qed.

Lemma distinct_keys_bounded {V} (h : gmap nat V) (l : list nat) :
  NoDup l → (∀ q, q ∈ l → is_Some (h !! q)) → length l ≤ size h.
Proof.
  intros Hnd Hin. rewrite <- (size_dom (D := gset nat)).
  unfold size, set_size. simpl.
  apply submseteq_length, NoDup_submseteq; [done|].
  intros q Hq. by apply elem_of_elements, elem_of_dom, Hin.
Qed.

Lemma path_grows (h : gmap nat DGNode) path current nd :
  NoDup path → (∀ q, q ∈ path → is_Some (h !! q)) →
  h !! current = Some nd → current ∉ path →
  NoDup (path ++ [current])
  ∧ (∀ q, q ∈ path ++ [current] → is_Some (h !! q))
  ∧ length path + 1 ≤ size h.
Proof.
  intros Hnd Hin Hc Hnot.
  assert (NoDup (path ++ [current])) as Hnd'.
  { apply NoDup_app. split_and!; [done| |apply NoDup_singleton].
    by intros q Hq ->%list_elem_of_singleton. }
  assert (∀ q, q ∈ path ++ [current] → is_Some (h !! q)) as Hin'.
  { intros q [Hq| ->%list_elem_of_singleton]%elem_of_app; [by apply Hin|].
    by rewrite Hc. }
  split_and!; [done|done|].
  pose proof (distinct_keys_bounded h _ Hnd' Hin') as Hlen.
  rewrite length_app in Hlen. simpl in Hlen. lia.
Qed.

Lemma deref_walk_enough_fuel fuel fuel' depth (h : gmap nat DGNode) ls
    current path :
  NoDup path → (∀ q, q ∈ path → is_Some (h !! q)) →
  size h ≤ fuel + length path → size h ≤ fuel' + length path →
  deref_walk fuel depth h ls current path
  = deref_walk fuel' depth h ls current path.
Proof.
  revert fuel' current path.
  induction fuel as [|fuel IH]; intros fuel' current path Hnd Hin Hf Hf';
    destruct fuel' as [|fuel']; simpl; try done;
    destruct (h !! current) as [nd|] eqn:Hc; try done;
    destruct (forward nd) as [next|]; try done;
    destruct (list_contains depth h ls path current) as [[|]|] eqn:Hl;
    try done;
    apply not_contained_not_in in Hl;
    destruct (path_grows h path current nd Hnd Hin Hc Hl) as (Hnd' & Hin' & Hlen);
    try lia.
  apply IH; [done|done|rewrite length_app; simpl; lia..].
Qed.

Lemma deref_walk_any_fuel fuel depth (h : gmap nat DGNode) ls node :
  size h ≤ fuel →
  deref_walk fuel depth h ls node [] = deref_walk (size h) depth h ls node [].
Proof.
  intros Hf. apply deref_walk_enough_fuel.
  - apply NoDup_nil_2.
  - by intros q ?%elem_of_nil.
  - simpl. lia.
  - simpl. lia.
Qed.

(** ** The join without shared labels (C10) *)

(** The claim as stated, the fields of a node read as Python reads
    them, a list field by its elements: when two distinct complex
    representatives share no label, [unify_core] succeeds, every node
    but the first operand reads as before, and so does the first
    operand's [arc_list]. *)
Definition disjoint_frame_claim : Prop :=
  ∀ d w dg1 dg2 nd1 nd2 arcs1 arcs2,
    dg1 ≠ dg2 →
    heap w !! dg1 = Some nd1 → heap w !! dg2 = Some nd2 →
    forward nd1 = None → forward nd2 = None →
    node_type nd1 = COMPLEX → node_type nd2 = COMPLEX →
    lists w !! arc_list nd1 = Some arcs1 →
    lists w !! arc_list nd2 = Some arcs2 →
    is_Some (lists w !! comp_arc_list nd1) →
    disjoint_labels arcs1 arcs2 →
    ∃ w', unify_core (S d) dg1 dg2 w = Ok true w'
          ∧ lists w' !! arc_list nd1 = Some arcs1
          ∧ ∀ q nd, q ≠ dg1 → heap w !! q = Some nd →
              heap w' !! q = Some nd
              ∧ lists w' !! arc_list nd = lists w !! arc_list nd
              ∧ lists w' !! comp_arc_list nd = lists w !! comp_arc_list nd.

(** Three complex nodes made by [create_complex_node], the second from
    the [comp_arc_list] of the first. *)
Definition aliased_setup : M (nat * nat * nat) :=
  a ← create_leaf_node "A";
  b ← create_leaf_node "B";
  arcs1 ← new_list [mkArc "f" a];
  n1 ← create_complex_node arcs1;
  nd1 ← get_node n1;
  n4 ← create_complex_node (comp_arc_list nd1);
  arcs3 ← new_list [mkArc "g" b];
  n3 ← create_complex_node arcs3;
  mret (n1, n3, n4).

Definition aliased_world : World :=
  world_with
    [(0, mkDGNode LEAF 0 1 None None 0 None (Some "A"));
     (1, mkDGNode LEAF 2 3 None None 0 None (Some "B"));
     (2, mkDGNode COMPLEX 4 5 None None 0 None None);
     (3, mkDGNode COMPLEX 5 6 None None 0 None None);
     (4, mkDGNode COMPLEX 7 8 None None 0 None None)]
    [(0, []); (1, []); (2, []); (3, []);
     (4, [mkArc "f" 0]); (5, []); (6, []);
     (7, [mkArc "g" 1]); (8, [])].

Lemma aliased_setup_runs :
  aliased_setup empty_world = Ok (2, 4, 3) aliased_world.
Proof. vm_compute. reflexivity. Qed.

Lemma one_label_each (c1 c2 : nat) :
  disjoint_labels [mkArc "f" c1] [mkArc "g" c2].
Proof.
  intros arc ->%list_elem_of_singleton Hin.
  apply elem_of_labels_of in Hin as (a & ->%list_elem_of_singleton & Hl).
  discriminate Hl.
Qed.

(** C10, as stated, fails: in [aliased_world] node 3 was made from the
    [comp_arc_list] of node 2, so its [arc_list] is the list object that
    [unify_core(2, 4)] extends.  Node 3 is no operand of the call, and
    its arc list reads [[]] before and [[g: 1]] after. *)
Lemma disjoint_frame_counterexample : ¬ disjoint_frame_claim.
Proof.
  intros H.
  destruct (H 99 aliased_world 2 4
              (mkDGNode COMPLEX 4 5 None None 0 None None)
              (mkDGNode COMPLEX 7 8 None None 0 None None)
              [mkArc "f" 0] [mkArc "g" 1])
    as (w' & Hu & _ & Hframe);
    [done|reflexivity|reflexivity|done|done|done|done|reflexivity|reflexivity
    |by eexists|apply one_label_each|].
  destruct (Hframe 3 (mkDGNode COMPLEX 5 6 None None 0 None None))
    as (_ & Harcs & _); [done|reflexivity|].
  vm_compute in Hu. injection Hu as <-.
  vm_compute in Harcs. discriminate Harcs.
Qed.

(** C10 (amended): when the two dereferenced operands [dg1] and [dg2]
    are distinct complex nodes that share no arc label, [unify_core]
    succeeds.  It assigns [generation] and [forward] of [dg1] and
    extends, in place, the list object that is [dg1.comp_arc_list] by
    the arcs of [dg2].  Apart from the [forward] fields that the two
    dereferences re-point on the way to the operands, it writes to no
    other node and to no other list object.  So [dg2] and the arc lists
    of both operands read as before, and so does every node that had no
    [forward], each unless one of its lists is that same list
    object. *)
Theorem unify_core_disjoint_frame d node1 node2 w w1 w2 dg1 dg2 nd1 nd2
    arcs1 arcs2 comp1 :
  dereference d node1 w = Ok dg1 w1 →
  dereference d node2 w1 = Ok dg2 w2 →
  dg1 ≠ dg2 →
  heap w2 !! dg1 = Some nd1 → heap w2 !! dg2 = Some nd2 →
  node_type nd1 = COMPLEX → node_type nd2 = COMPLEX →
  lists w2 !! arc_list nd1 = Some arcs1 →
  lists w2 !! arc_list nd2 = Some arcs2 →
  lists w2 !! comp_arc_list nd1 = Some comp1 →
  disjoint_labels arcs1 arcs2 →
  ∃ w3,
    unify_core (S d) node1 node2 w = Ok true w3
    (* the operands are as they were when the call started *)
    ∧ heap w !! dg1 = Some nd1 ∧ heap w !! dg2 = Some nd2
    ∧ forward nd1 = None ∧ forward nd2 = None
    ∧ lists w2 = lists w
    (* the writes of the join *)
    ∧ heap w3 !! dg1
      = Some (set_forward (Some dg2) (set_generation (counter w + 1)%Z nd1))
    ∧ lists w3 !! comp_arc_list nd1 = Some (comp1 ++ arcs2)
    ∧ counter w3 = (counter w + 1)%Z
    ∧ shared_structures w3 = shared_structures w
    (* no other list object is written to *)
    ∧ (∀ l, l ≠ comp_arc_list nd1 → lists w3 !! l = lists w !! l)
    (* no other node is written to, but for the re-pointed [forward]s *)
    ∧ (∀ q, q ≠ dg1 →
         heap w3 !! q = heap w !! q
         ∨ ∃ nd r, (r = dg1 ∨ r = dg2)
                   ∧ heap w !! q = Some nd ∧ forward nd ≠ None
                   ∧ heap w3 !! q = Some (set_forward (Some r) nd))
    (* what the claim says of the operands *)
    ∧ heap w3 !! dg2 = Some nd2
    ∧ (arc_list nd1 ≠ comp_arc_list nd1 →
       lists w3 !! arc_list nd1 = Some arcs1)
    ∧ (arc_list nd2 ≠ comp_arc_list nd1 →
       lists w3 !! arc_list nd2 = Some arcs2)
    ∧ (comp_arc_list nd2 ≠ comp_arc_list nd1 →
       lists w3 !! comp_arc_list nd2 = lists w !! comp_arc_list nd2).
Proof.
  intros H1 H2 Hne Hn1 Hn2 Ht1 Ht2 Ha1 Ha2 Hc1 Hdisj.
  assert (is_leaf_node nd1 = false) as Hl1
    by (unfold is_leaf_node; by rewrite Ht1).
  assert (is_leaf_node nd2 = false) as Hl2
    by (unfold is_leaf_node; by rewrite Ht2).
  destruct (dereference_only_forward _ _ _ _ _ H1)
    as (Hls1 & Hk1 & Hs1 & Hh1 & (r1 & Hr1 & Hr1' & Hfr1)).
  destruct (dereference_only_forward _ _ _ _ _ H2)
    as (Hls2 & Hk2 & Hs2 & Hh2 & (r2 & Hr2 & Hr2' & Hfr2)).
  rewrite Hn2 in Hr2'. injection Hr2' as <-.
  (* [dg1] has no [forward] after the first dereference, so the second
     does not re-point it; likewise [dg2] and the first *)
  assert (heap w1 !! dg1 = Some nd1) as Hn1'.
  { destruct (Hh2 dg1) as [Heq|(nd & Hnd & Hf & _)]; [by rewrite <- Heq|].
    congruence. }
  rewrite Hn1' in Hr1'. injection Hr1' as <-.
  assert (heap w !! dg2 = Some nd2) as Hn2w.
  { destruct (Hh1 dg2) as [Heq|(nd & Hnd & Hf & Hnd')]; [by rewrite <- Heq|].
    rewrite Hr2 in Hnd'. injection Hnd' as ->. done. }
  assert (∀ q, heap w2 !! q = heap w !! q
               ∨ ∃ nd r, (r = dg1 ∨ r = dg2)
                         ∧ heap w !! q = Some nd ∧ forward nd ≠ None
                         ∧ heap w2 !! q = Some (set_forward (Some r) nd))
    as Hh.
  { intros q. destruct (Hh2 q) as [Hq2|(nd & Hq1 & Hf & Hq2)].
    - rewrite Hq2. destruct (Hh1 q) as [Hq1|(nd & Hq & Hf & Hq1)]; [by left|].
      right. exists nd, dg1. split_and!; [by left|done..].
    - destruct (Hh1 q) as [Hq|(nd0 & Hq & Hf0 & Hq1')].
      + right. exists nd, dg2. split_and!; [by right| |done..].
        by rewrite <- Hq.
      + right. exists nd0, dg2. split_and!; [by right|done|done|].
        rewrite Hq2. rewrite Hq1' in Hq1. by injection Hq1 as <-. }
  exists (joined dg1 dg2 nd1 comp1 arcs2 w2).
  split_and!.
  - rewrite (unify_core_complex d node1 node2 w w1 w2 dg1 dg2 nd1 nd2
               arcs1 arcs2) by done.
    rewrite <- intersect_arcs_filter, (intersect_arcs_disjoint _ _ Hdisj).
    rewrite (complement_arcs_disjoint _ _ Hdisj).
    rewrite run_bind. simpl. by apply run_finish_join.
  - done.
  - done.
  - done.
  - done.
  - by rewrite Hls2, Hls1.
  - simpl. rewrite lookup_insert_eq. by rewrite Hk2, Hk1.
  - simpl. by rewrite lookup_insert_eq.
  - simpl. by rewrite Hk2, Hk1.
  - simpl. by rewrite Hs2, Hs1.
  - intros l Hl. simpl. rewrite lookup_insert_ne by done.
    by rewrite Hls2, Hls1.
  - intros q Hq. simpl. rewrite lookup_insert_ne by done. apply Hh.
  - simpl. by rewrite lookup_insert_ne.
  - intros Hd. simpl. by rewrite lookup_insert_ne.
  - intros Hd. simpl. by rewrite lookup_insert_ne.
  - intros Hd. simpl. rewrite lookup_insert_ne by done. by rewrite Hls2, Hls1.
Qed.

Lemma unify_core_disjoint_frame_witness :
  ∃ w3,
    unify_core 100 2 4 aliased_world = Ok true w3
    ∧ heap aliased_world !! 2
      = Some (mkDGNode COMPLEX 4 5 None None 0 None None)
    ∧ heap aliased_world !! 4
      = Some (mkDGNode COMPLEX 7 8 None None 0 None None)
    ∧ forward (mkDGNode COMPLEX 4 5 None None 0 None None) = None
    ∧ forward (mkDGNode COMPLEX 7 8 None None 0 None None) = None
    ∧ lists aliased_world = lists aliased_world
    ∧ heap w3 !! 2
      = Some (set_forward (Some 4)
                (set_generation (counter aliased_world + 1)%Z
                   (mkDGNode COMPLEX 4 5 None None 0 None None)))
    ∧ lists w3 !! 5 = Some ([] ++ [mkArc "g" 1])
    ∧ counter w3 = (counter aliased_world + 1)%Z
    ∧ shared_structures w3 = shared_structures aliased_world
    ∧ (∀ l, l ≠ 5 → lists w3 !! l = lists aliased_world !! l)
    ∧ (∀ q, q ≠ 2 →
         heap w3 !! q = heap aliased_world !! q
         ∨ ∃ nd r, (r = 2 ∨ r = 4)
                   ∧ heap aliased_world !! q = Some nd ∧ forward nd ≠ None
                   ∧ heap w3 !! q = Some (set_forward (Some r) nd))
    ∧ heap w3 !! 4 = Some (mkDGNode COMPLEX 7 8 None None 0 None None)
    ∧ (4 ≠ 5 → lists w3 !! 4 = Some [mkArc "f" 0])
    ∧ (7 ≠ 5 → lists w3 !! 7 = Some [mkArc "g" 1])
    ∧ (8 ≠ 5 → lists w3 !! 8 = lists aliased_world !! 8).
Proof.
  apply (unify_core_disjoint_frame 99 2 4 aliased_world aliased_world
           aliased_world 2 4
           (mkDGNode COMPLEX 4 5 None None 0 None None)
           (mkDGNode COMPLEX 7 8 None None 0 None None)
           [mkArc "f" 0] [mkArc "g" 1] []).
  - vm_compute. reflexivity.
  - vm_compute. reflexivity.
  - discriminate.
  - reflexivity.
  - reflexivity.
  - reflexivity.
  - reflexivity.
  - reflexivity.
  - reflexivity.
  - reflexivity.
  - apply one_label_each.
Defined.

(** ** The order of the recursion (C5) *)

(** Node 1 reaches the leaf "A" under "f" and under "g"; node 4 lists
    "g", with the leaf "B", before "f", with an empty complex node. *)
Definition order_world : World :=
  world_with
    [(0, mkDGNode LEAF 0 1 None None 0 None (Some "A"));
     (1, mkDGNode COMPLEX 2 3 None None 0 None None);
     (2, mkDGNode LEAF 4 5 None None 0 None (Some "B"));
     (3, mkDGNode COMPLEX 6 7 None None 0 None None);
     (4, mkDGNode COMPLEX 8 9 None None 0 None None)]
    [(0, []); (1, []); (2, [mkArc "f" 0; mkArc "g" 0]); (3, []);
     (4, []); (5, []); (6, []); (7, []);
     (8, [mkArc "g" 2; mkArc "f" 3]); (9, [])].

(** C5 (amended): [intersect_arcs arcs1 arcs2] is exactly the arcs of
    the second list whose label also appears in the first, in the second
    list's order, and each has a partner that [find_arc] finds in the
    first list.  The complex-complex case of [unify_core] runs its loop
    over that list, front to back: it visits the shared arcs in the
    second operand's arc order, then makes the join writes; when the
    round for one arc raises, the rounds for the arcs before it in the
    second operand's order have been made, and nothing after them. *)
Theorem intersect_arcs_recursion_order :
  (∀ arcs1 arcs2 : list Arc,
     intersect_arcs arcs1 arcs2
     = filter (λ arc2, label arc2 ∈ labels_of arcs1) arcs2
     ∧ ∀ arc, arc ∈ intersect_arcs arcs1 arcs2 →
         arc ∈ arcs2 ∧
         ∃ arc1, find_arc (label arc) arcs1 = Some arc1
                 ∧ label arc1 = label arc ∧ arc1 ∈ arcs1)
  ∧ (∀ d node1 node2 w w1 w2 dg1 dg2 nd1 nd2 arcs1 arcs2,
       dereference d node1 w = Ok dg1 w1 →
       dereference d node2 w1 = Ok dg2 w2 →
       dg1 ≠ dg2 →
       heap w2 !! dg1 = Some nd1 → heap w2 !! dg2 = Some nd2 →
       is_leaf_node nd1 = false → is_leaf_node nd2 = false →
       lists w2 !! arc_list nd1 = Some arcs1 →
       lists w2 !! arc_list nd2 = Some arcs2 →
       unify_core (S d) node1 node2 w
       = (_ ← for_each (intersect_arcs arcs1 arcs2)
                       (loop_body (unify_core d) dg1);
          finish_join dg1 dg2 (complement_arcs arcs2 arcs1)) w2
       ∧ ∀ before arc after wk e wk',
           intersect_arcs arcs1 arcs2 = before ++ arc :: after →
           for_each before (loop_body (unify_core d) dg1) w2 = Ok tt wk →
           loop_body (unify_core d) dg1 arc wk = Raise e wk' →
           unify_core (S d) node1 node2 w = Raise e wk').
Proof.
  split.
  - intros arcs1 arcs2. split; [apply intersect_arcs_filter|].
    intros arc. rewrite intersect_arcs_filter, list_elem_of_filter.
    intros [Hl Hin]. split; [done|]. by apply find_arc_Some.
  - intros d node1 node2 w w1 w2 dg1 dg2 nd1 nd2 arcs1 arcs2
      H1 H2 Hne Hn1 Hn2 Hl1 Hl2 Ha1 Ha2.
    assert (unify_core (S d) node1 node2 w
            = (_ ← for_each (intersect_arcs arcs1 arcs2)
                            (loop_body (unify_core d) dg1);
               finish_join dg1 dg2 (complement_arcs arcs2 arcs1)) w2) as Heq.
    { rewrite intersect_arcs_filter.
      by apply (unify_core_complex d node1 node2 w w1 w2 dg1 dg2 nd1 nd2). }
    split; [exact Heq|].
    intros before arc after wk e wk' Hsplit Hbefore Harc.
    rewrite Heq, Hsplit, run_bind, for_each_snoc, Hbefore.
    cbn [for_each]. by rewrite run_bind, Harc.
Qed.

Lemma intersect_arcs_recursion_order_witness :
  unify_core 100 1 4 order_world = Raise UnificationFailure order_world.
Proof.
  destruct intersect_arcs_recursion_order as [_ Horder].
  destruct (Horder 99 1 4 order_world order_world order_world 1 4
              (mkDGNode COMPLEX 2 3 None None 0 None None)
              (mkDGNode COMPLEX 8 9 None None 0 None None)
              [mkArc "f" 0; mkArc "g" 0] [mkArc "g" 2; mkArc "f" 3])
    as [_ Hfirst];
    [vm_compute; reflexivity|vm_compute; reflexivity|discriminate
    |reflexivity..|].
  apply (Hfirst [] (mkArc "g" 2) [mkArc "f" 3] order_world).
  - vm_compute. reflexivity.
  - reflexivity.
  - vm_compute. reflexivity.
Defined.

(** Listed the other way round in the second operand, the same arcs make
    the call succeed: the order is that of the second operand, and it
    shows. *)
Lemma order_world_swapped :
  ∃ w', unify_core 100 1 4
          (with_lists (<[8 := [mkArc "f" 3; mkArc "g" 2]]> (lists order_world))
                      order_world)
        = Ok true w'.
Proof. eexists. vm_compute. reflexivity. Qed.

(** ** Flat feature structures *)

Lemma unify_core_two_leaves d l1 l2 nd1 nd2 w :
  heap w !! l1 = Some nd1 → heap w !! l2 = Some nd2 →
  node_type nd1 = LEAF → node_type nd2 = LEAF →
  forward nd1 = None → forward nd2 = None →
  unify_core (S d) l1 l2 w
  = if decide (name nd1 = name nd2) then Ok true w
    else Raise UnificationFailure w.
Proof.
  intros Hn1 Hn2 Ht1 Ht2 Hf1 Hf2. cbn [unify_core].
  rewrite (run_bind_Ok _ _ _ _ _ (dereference_no_forward d l1 nd1 w Hn1 Hf1)).
  rewrite (run_bind_Ok _ _ _ _ _ (dereference_no_forward d l2 nd2 w Hn2 Hf2)).
  destruct (decide (l1 = l2)) as [->|Hne].
  - rewrite Hn1 in Hn2. injection Hn2 as <-. by rewrite decide_True.
  - rewrite (run_bind_Ok _ _ _ _ _ (run_get_node _ _ _ Hn1)).
    rewrite (run_bind_Ok _ _ _ _ _ (run_get_node _ _ _ Hn2)).
    unfold is_leaf_node. rewrite Ht1, Ht2. simpl.
    by destruct (decide (name nd1 = name nd2)).
Qed.

(** The name of the node an arc points at. *)
Definition child_name (h : gmap nat DGNode) (arc : Arc) : option string :=
  h !! value arc ≫= name.

(** The test one round of the loop comes down to when both children are
    leaves: equal names. *)
Definition pair_agrees (h : gmap nat DGNode) (arcs1 : list Arc) (arc : Arc) : bool :=
  match find_arc (label arc) arcs1 with
  | Some arc1 => bool_decide (child_name h arc1 = child_name h arc)
  | None => true
  end.

(** A leaf that has not been forwarded. *)
Definition plain_leaf (h : gmap nat DGNode) (r : nat) : Prop :=
  ∃ nd, h !! r = Some nd ∧ node_type nd = LEAF ∧ forward nd = None.

(** Every arc of [arcs] whose label is in [labels] points at such a
    leaf. *)
Definition leaf_children (h : gmap nat DGNode) (arcs : list Arc)
    (labels : gset string) : Prop :=
  ∀ arc, arc ∈ arcs → label arc ∈ labels → plain_leaf h (value arc).

(** Under every label the two lists share, the children carry the same
    name. *)
Definition shared_children_agree (h : gmap nat DGNode)
    (arcs1 arcs2 : list Arc) : Prop :=
  ∀ a b, a ∈ arcs1 → b ∈ arcs2 → label a = label b →
    child_name h a = child_name h b.

Lemma pairs_agree_iff h (arcs1 arcs2 : list Arc) :
  NoDup (label <$> arcs1) →
  forallb (pair_agrees h arcs1) (intersect_arcs arcs1 arcs2) = true
  ↔ shared_children_agree h arcs1 arcs2.
Proof.
  intros Hnd. rewrite forallb_forall. split.
  - intros Hall a b Ha Hb Hlab.
    assert (pair_agrees h arcs1 b = true) as Hb'.
    { apply Hall, list_elem_of_In, elem_of_intersect_arcs. split; [|done].
      apply elem_of_labels_of. by exists a. }
    unfold pair_agrees in Hb'.
    rewrite <- Hlab, (find_arc_NoDup _ _ Hnd Ha) in Hb'.
    by apply bool_decide_eq_true in Hb'.
  - intros Hagree b Hb%list_elem_of_In%elem_of_intersect_arcs.
    destruct Hb as [_ Hb]. unfold pair_agrees.
    destruct (find_arc (label b) arcs1) as [a|] eqn:Hfind; [|done].
    apply find_arc_Some_inv in Hfind as [Ha Hlab].
    apply bool_decide_eq_true. by apply Hagree.
Qed.

(** Over leaves the loop writes nothing: it compares names, and stops
    at the first pair that differs. *)
Lemma loop_over_leaves d x ndx ax w (l : list Arc) :
  heap w !! x = Some ndx → lists w !! arc_list ndx = Some ax →
  leaf_children (heap w) ax (labels_of l) →
  (∀ arc, arc ∈ l → plain_leaf (heap w) (value arc)) →
  for_each l (loop_body (unify_core (S d)) x) w
  = if forallb (pair_agrees (heap w) ax) l then Ok tt w
    else Raise UnificationFailure w.
Proof.
  intros Hx Hax. induction l as [|arc l IH]; intros Hlx Hl; [done|].
  cbn [for_each forallb]. rewrite run_bind. unfold loop_body at 1.
  rewrite (run_bind_Ok _ _ _ _ _ (run_get_node _ _ _ Hx)).
  rewrite (run_bind_Ok _ _ _ _ _ (run_get_list _ _ _ Hax)).
  unfold pair_agrees at 1.
  assert (leaf_children (heap w) ax (labels_of l)) as Hlx'.
  { intros a Ha Hlab. apply Hlx; [done|].
    apply elem_of_labels_of in Hlab as (b & Hb & Hlb).
    apply elem_of_labels_of. exists b. split; [by right|done]. }
  assert (∀ a, a ∈ l → plain_leaf (heap w) (value a)) as Hl'
    by (intros a Ha; apply Hl; by right).
  destruct (find_arc (label arc) ax) as [arc1|] eqn:Hfind.
  - destruct (find_arc_Some_inv _ _ _ Hfind) as [Hin1 Hlab1].
    destruct (Hlx arc1 Hin1) as (n1 & Hc1 & Ht1 & Hf1).
    { apply elem_of_labels_of. exists arc. split; [left|done]. }
    destruct (Hl arc) as (n2 & Hc2 & Ht2 & Hf2); [left|].
    rewrite run_bind.
    rewrite (unify_core_two_leaves d (value arc1) (value arc) n1 n2 w) by done.
    unfold child_name. rewrite Hc1, Hc2. simpl.
    destruct (decide (name n1 = name n2)) as [Heq|Hne].
    + rewrite bool_decide_true by done. simpl. by apply IH.
    + rewrite bool_decide_false by done. done.
  - simpl. by apply IH.
Qed.

(** ** [copy_with_comp_arcs] without structure sharing *)

Lemma run_copy_with_comp_arcs node nd al cl w :
  heap w !! node = Some nd →
  lists w !! arc_list nd = Some al → lists w !! comp_arc_list nd = Some cl →
  let la := fresh (dom (lists w)) in
  let lc := fresh (dom (<[la := al]> (lists w))) in
  let r := fresh (dom (heap w)) in
  copy_with_comp_arcs false node w
  = Ok r (mkWorld
            (<[r := mkDGNode (node_type nd) la lc None None 0 None (name nd)]>
               (heap w))
            (<[lc := []]> (<[la := al ++ cl]> (lists w)))
            (counter w) (shared_structures w))
  ∧ heap w !! r = None
  ∧ lists w !! la = None ∧ lists w !! lc = None ∧ la ≠ lc.
Proof.
  intros Hn Hal Hcl la lc r.
  assert (lists w !! la = None) as Hla by apply not_elem_of_dom, is_fresh.
  assert (<[la := al]> (lists w) !! lc = None) as Hlc
    by apply not_elem_of_dom, is_fresh.
  apply lookup_insert_None in Hlc as [Hlc Hne].
  assert (heap w !! r = None) as Hr by apply not_elem_of_dom, is_fresh.
  split_and!; [|done..].
  unfold copy_with_comp_arcs. rewrite run_bind. simpl.
  rewrite (run_bind_Ok _ _ _ _ _ (run_get_node _ _ _ Hn)).
  rewrite run_bind. unfold list_copy at 1. rewrite Hal. unfold new_list at 1.
  fold la. rewrite run_bind. unfold list_copy at 1. simpl.
  rewrite lookup_insert_ne by (intros Heq; rewrite <- Heq in Hcl; congruence).
  rewrite Hcl. unfold new_list at 1. simpl. fold lc.
  rewrite run_bind. unfold alloc at 1. simpl. fold r.
  rewrite run_bind. unfold get_node at 1. simpl. rewrite lookup_insert_eq.
  rewrite run_bind. unfold get_list at 1. simpl. rewrite lookup_insert_eq.
  rewrite run_bind. unfold list_extend at 1. simpl.
  rewrite lookup_insert_ne, lookup_insert_eq by done.
  rewrite run_bind. unfold get_node at 1. simpl. rewrite lookup_insert_eq.
  rewrite run_bind. unfold list_clear at 1. simpl.
  rewrite lookup_insert_ne, lookup_insert_eq by done.
  rewrite run_bind. simpl. unfold with_lists, with_heap. simpl.
  f_equal. f_equal.
  apply map_eq. intros l. destruct (decide (lc = l)) as [<-|Hl].
  - by rewrite !lookup_insert_eq.
  - rewrite !(lookup_insert_ne _ lc) by done.
    destruct (decide (la = l)) as [<-|Hl'].
    + by rewrite !lookup_insert_eq.
    + by rewrite !lookup_insert_ne.
Qed.

Lemma run_unify structure_sharing depth node1 node2 w :
  unify structure_sharing depth node1 node2 w
  = match unify_core depth node1 node2 w with
    | Ok true w1 =>
        match copy_with_comp_arcs structure_sharing node1 w1 with
        | Ok r w2 => Ok (Some r) w2
        | Raise UnificationFailure w2 => Ok None w2
        | Raise e w2 => Raise e w2
        end
    | Ok false w1 => Ok None w1
    | Raise UnificationFailure w1 => Ok None w1
    | Raise e w1 => Raise e w1
    end.
Proof.
  unfold unify, try_except_UnificationFailure. rewrite run_bind.
  destruct (unify_core depth node1 node2 w) as [[|] w1|e w1].
  - rewrite run_bind.
    destruct (copy_with_comp_arcs structure_sharing node1 w1) as [r w2|e w2];
      [done|by destruct e].
  - done.
  - by destruct e.
Qed.

(** Two flat structures with two features each; they share "f", and
    the leaves under it carry the same name.  Node 6 was made from the
    [comp_arc_list] of node 4. *)
Definition flat_aliased_world : World :=
  world_with
    [(0, mkDGNode LEAF 0 1 None None 0 None (Some "A"));
     (1, mkDGNode LEAF 2 3 None None 0 None (Some "X"));
     (2, mkDGNode LEAF 4 5 None None 0 None (Some "A"));
     (3, mkDGNode LEAF 6 7 None None 0 None (Some "Y"));
     (4, mkDGNode COMPLEX 8 9 None None 0 None None);
     (5, mkDGNode COMPLEX 10 11 None None 0 None None);
     (6, mkDGNode COMPLEX 9 12 None None 0 None None)]
    [(0, []); (1, []); (2, []); (3, []); (4, []); (5, []); (6, []); (7, []);
     (8, [mkArc "f" 0; mkArc "h" 1]); (9, []);
     (10, [mkArc "f" 2; mkArc "g" 3]); (11, []); (12, [])].

(** X13: Flat feature structures unify to the union of their features,
    or fail without a trace.  Take two distinct complex nodes without
    [forward], the first with unique labels, an empty [comp_arc_list]
    and an [arc_list] that is another list object, and with leaves that
    have not been forwarded under every label the two share.  When the
    leaves under every shared label have equal names, [unify] (structure
    sharing off) returns a new complex node with two new lists, whose
    arcs are those of the first followed by those of the second whose
    label the first lacks; the call has stamped and forwarded the first
    node and extended the list object that is its [comp_arc_list], and
    has written to no other node and to no other list that existed.
    Otherwise it returns [None] and the world is as before the call. *)
Theorem unify_flat_result d x y ndx ndy ax ay w :
  x ≠ y →
  heap w !! x = Some ndx → heap w !! y = Some ndy →
  node_type ndx = COMPLEX → node_type ndy = COMPLEX →
  forward ndx = None → forward ndy = None →
  lists w !! arc_list ndx = Some ax → lists w !! arc_list ndy = Some ay →
  lists w !! comp_arc_list ndx = Some [] →
  arc_list ndx ≠ comp_arc_list ndx →
  NoDup (label <$> ax) →
  leaf_children (heap w) ax (labels_of ay) →
  leaf_children (heap w) ay (labels_of ax) →
  (shared_children_agree (heap w) ax ay →
   ∃ r ndr w',
     unify false (S (S d)) x y w = Ok (Some r) w'
     ∧ heap w !! r = None
     ∧ heap w' !! r = Some ndr
     ∧ node_type ndr = COMPLEX ∧ name ndr = name ndx ∧ forward ndr = None
     ∧ lists w !! arc_list ndr = None ∧ lists w !! comp_arc_list ndr = None
     ∧ lists w' !! arc_list ndr = Some (ax ++ complement_arcs ay ax)
     ∧ lists w' !! comp_arc_list ndr = Some []
     ∧ heap w' !! x
       = Some (set_forward (Some y) (set_generation (counter w + 1)%Z ndx))
     ∧ lists w' !! comp_arc_list ndx = Some (complement_arcs ay ax)
     ∧ heap w' !! y = Some ndy
     ∧ (∀ q, q ≠ r → q ≠ x → heap w' !! q = heap w !! q)
     ∧ (∀ l, is_Some (lists w !! l) → l ≠ comp_arc_list ndx →
             lists w' !! l = lists w !! l))
  ∧ (¬ shared_children_agree (heap w) ax ay →
     unify false (S (S d)) x y w = Ok None w).
Proof.
  intros Hne Hx Hy Htx Hty Hfx Hfy Hax Hay Hcx Hdiff Hnd Hlx Hly.
  assert (is_leaf_node ndx = false) as Hnlx
    by (unfold is_leaf_node; by rewrite Htx).
  assert (is_leaf_node ndy = false) as Hnly
    by (unfold is_leaf_node; by rewrite Hty).
  pose proof (unify_core_complex (S d) x y w w w x y ndx ndy ax ay
                (dereference_no_forward _ _ _ _ Hx Hfx)
                (dereference_no_forward _ _ _ _ Hy Hfy)
                Hne Hx Hy Hnlx Hnly Hax Hay) as Hcore.
  rewrite <- intersect_arcs_filter, run_bind in Hcore.
  rewrite (loop_over_leaves d x ndx ax w (intersect_arcs ax ay) Hx Hax)
    in Hcore.
  2: { intros arc Harc Hlab. apply Hlx; [done|].
       apply elem_of_labels_of in Hlab as (b & Hb & <-).
       apply elem_of_intersect_arcs in Hb as [_ Hb].
       apply elem_of_labels_of. by exists b. }
  2: { intros arc [Hlab Harc]%elem_of_intersect_arcs. by apply Hly. }
  pose proof (pairs_agree_iff (heap w) ax ay Hnd) as Hiff.
  destruct (forallb (pair_agrees (heap w) ax) (intersect_arcs ax ay)).
  - split; [|intros Hno; exfalso; by apply Hno, Hiff].
    intros _.
    rewrite (run_finish_join x y ndx [] _ w Hx Hcx) in Hcore.
    set (wj := joined x y ndx [] (complement_arcs ay ax) w) in *.
    assert (heap wj !! x
            = Some (set_forward (Some y) (set_generation (counter w + 1)%Z ndx)))
      as Hxj by apply lookup_insert_eq.
    assert (lists wj !! arc_list ndx = Some ax) as Haj
      by (simpl; by rewrite lookup_insert_ne).
    assert (lists wj !! comp_arc_list ndx = Some (complement_arcs ay ax))
      as Hcj by apply lookup_insert_eq.
    destruct (run_copy_with_comp_arcs x _ ax (complement_arcs ay ax) wj
                Hxj Haj Hcj) as (Hcopy & Hr & Hla & Hlc & Hlalc).
    set (la := fresh (dom (lists wj))) in *.
    set (lc := fresh (dom (<[la := ax]> (lists wj)))) in *.
    set (r := fresh (dom (heap wj))) in *.
    simpl in Hr, Hla, Hlc.
    apply lookup_insert_None in Hr as [Hr Hrx].
    apply lookup_insert_None in Hla as [Hla Hlax].
    apply lookup_insert_None in Hlc as [Hlc Hlcx].
    eexists r, _, _. split; [by rewrite run_unify, Hcore, Hcopy|].
    simpl. split_and!.
    + done.
    + apply lookup_insert_eq.
    + done.
    + done.
    + done.
    + done.
    + done.
    + by rewrite lookup_insert_ne, lookup_insert_eq.
    + by rewrite lookup_insert_eq.
    + rewrite lookup_insert_ne by done. apply lookup_insert_eq.
    + rewrite !lookup_insert_ne by done. apply lookup_insert_eq.
    + rewrite !lookup_insert_ne; [done|done|].
      intros ->. rewrite Hr in Hy. discriminate Hy.
    + intros q Hq1 Hq2. by rewrite !lookup_insert_ne.
    + intros l [arcs Hl] Hl'.
      rewrite !lookup_insert_ne; [done|done| |];
        intros ->; congruence.
  - split; [|intros _; by rewrite run_unify, Hcore].
    intros Hagree. apply Hiff in Hagree. discriminate Hagree.
Qed.

Lemma flat_aliased_world_agrees :
  shared_children_agree (heap flat_aliased_world)
    [mkArc "f" 0; mkArc "h" 1] [mkArc "f" 2; mkArc "g" 3].
Proof.
  intros a b Ha Hb Hlab.
  repeat (apply elem_of_cons in Ha as [->|Ha]);
    [| |by apply elem_of_nil in Ha];
    (repeat (apply elem_of_cons in Hb as [->|Hb]);
       [| |by apply elem_of_nil in Hb]);
    first [reflexivity | discriminate Hlab].
Qed.

Lemma unify_flat_result_witness :
  ∃ r ndr w',
    unify false 100 4 5 flat_aliased_world = Ok (Some r) w'
    ∧ heap flat_aliased_world !! r = None
    ∧ heap w' !! r = Some ndr
    ∧ node_type ndr = COMPLEX ∧ name ndr = None ∧ forward ndr = None
    ∧ lists flat_aliased_world !! arc_list ndr = None
    ∧ lists flat_aliased_world !! comp_arc_list ndr = None
    ∧ lists w' !! arc_list ndr
      = Some ([mkArc "f" 0; mkArc "h" 1]
              ++ complement_arcs [mkArc "f" 2; mkArc "g" 3]
                                 [mkArc "f" 0; mkArc "h" 1])
    ∧ lists w' !! comp_arc_list ndr = Some []
    ∧ heap w' !! 4
      = Some (set_forward (Some 5)
                (set_generation (counter flat_aliased_world + 1)%Z
                   (mkDGNode COMPLEX 8 9 None None 0 None None)))
    ∧ lists w' !! 9
      = Some (complement_arcs [mkArc "f" 2; mkArc "g" 3]
                              [mkArc "f" 0; mkArc "h" 1])
    ∧ heap w' !! 5 = Some (mkDGNode COMPLEX 10 11 None None 0 None None)
    ∧ (∀ q, q ≠ r → q ≠ 4 → heap w' !! q = heap flat_aliased_world !! q)
    ∧ (∀ l, is_Some (lists flat_aliased_world !! l) → l ≠ 9 →
            lists w' !! l = lists flat_aliased_world !! l).
Proof.
  destruct (unify_flat_result 98 4 5
              (mkDGNode COMPLEX 8 9 None None 0 None None)
              (mkDGNode COMPLEX 10 11 None None 0 None None)
              [mkArc "f" 0; mkArc "h" 1] [mkArc "f" 2; mkArc "g" 3]
              flat_aliased_world) as [Hok _].
  - discriminate.
  - reflexivity.
  - reflexivity.
  - reflexivity.
  - reflexivity.
  - reflexivity.
  - reflexivity.
  - reflexivity.
  - reflexivity.
  - reflexivity.
  - discriminate.
  - apply (bool_decide_unpack _). vm_compute. exact I.
  - intros arc Hin _.
    repeat (apply elem_of_cons in Hin as [->|Hin]);
      [eexists; split_and!; reflexivity ..|by apply elem_of_nil in Hin].
  - intros arc Hin _.
    repeat (apply elem_of_cons in Hin as [->|Hin]);
      [eexists; split_and!; reflexivity ..|by apply elem_of_nil in Hin].
  - exact (Hok flat_aliased_world_agrees).
Defined.
End ListObjects.

(** * The two embeddings agree

    The first embedding is the second seen through the lists: replace
    every list identity by the elements the list holds.  As long as the
    [comp_arc_list] of every node is held by that one field alone, the
    two embeddings of [unify_core] and of [unify] make the same steps,
    and the worlds they leave are again related in this way. *)

Definition view_node (ls : gmap nat (list Arc)) (nd : ListObjects.DGNode) :
    DGNode :=
  mkDGNode (ListObjects.node_type nd)
           (default [] (ls !! ListObjects.arc_list nd))
           (default [] (ls !! ListObjects.comp_arc_list nd))
           (ListObjects.forward nd) (ListObjects.copy nd)
           (ListObjects.generation nd) (ListObjects.mark nd)
           (ListObjects.name nd).

Definition view (w : ListObjects.World) : World :=
  mkWorld (view_node (ListObjects.lists w) <$> ListObjects.heap w)
          (ListObjects.counter w) (ListObjects.shared_structures w).

(** Every list field of every node holds a list, and the
    [comp_arc_list] of a node is no other list field of any node.  Arc
    lists may be shared: the code never changes one in place. *)
Definition lists_unshared (h : gmap nat ListObjects.DGNode)
    (ls : gmap nat (list Arc)) : Prop :=
  (∀ q nd, h !! q = Some nd →
     is_Some (ls !! ListObjects.arc_list nd)
     ∧ is_Some (ls !! ListObjects.comp_arc_list nd)
     ∧ ListObjects.arc_list nd ≠ ListObjects.comp_arc_list nd)
  ∧ (∀ q q' nd nd', h !! q = Some nd → h !! q' = Some nd' → q ≠ q' →
       ListObjects.comp_arc_list nd ≠ ListObjects.comp_arc_list nd'
       ∧ ListObjects.comp_arc_list nd ≠ ListObjects.arc_list nd').

Definition unshared (w : ListObjects.World) : Prop :=
  lists_unshared (ListObjects.heap w) (ListObjects.lists w).

Section Agreement.

Variable h : gmap nat ListObjects.DGNode.
Variable ls : gmap nat (list Arc).
Hypothesis Hun : lists_unshared h ls.

Lemma lookup_view_heap q :
  (view_node ls <$> h) !! q = view_node ls <$> h !! q.
Proof. apply lookup_fmap. Qed.

Lemma list_eq_view na nb qa qb :
  h !! qa = Some na → h !! qb = Some nb →
  ListObjects.list_eq ls (ListObjects.arc_list na) (ListObjects.arc_list nb)
  = bool_decide (label <$> arc_list (view_node ls na)
                 = label <$> arc_list (view_node ls nb))
  ∧ ListObjects.list_eq ls (ListObjects.comp_arc_list na)
                        (ListObjects.comp_arc_list nb)
    = bool_decide (label <$> comp_arc_list (view_node ls na)
                   = label <$> comp_arc_list (view_node ls nb)).
Proof.
  intros Ha Hb. destruct Hun as [Hres _].
  destruct (Hres _ _ Ha) as ([la Hla] & [ca Hca] & _).
  destruct (Hres _ _ Hb) as ([lb Hlb] & [cb Hcb] & _).
  unfold ListObjects.list_eq. simpl. rewrite Hla, Hlb, Hca, Hcb. simpl.
  split.
  - destruct (decide (ListObjects.arc_list na = ListObjects.arc_list nb))
      as [Heq|_]; [|done].
    rewrite Heq in Hla. rewrite Hla in Hlb. injection Hlb as <-.
    by rewrite bool_decide_true.
  - destruct (decide (ListObjects.comp_arc_list na
                      = ListObjects.comp_arc_list nb)) as [Heq|_]; [|done].
    rewrite Heq in Hca. rewrite Hca in Hcb. injection Hcb as <-.
    by rewrite bool_decide_true.
Qed.

Lemma attr_eq_view rec' rec x y :
  (∀ a b, rec' a b = rec a b) →
  ListObjects.attr_eq rec' h x y = attr_eq rec (view_node ls <$> h) x y.
Proof.
  intros Hrec. destruct x as [a|], y as [b|]; simpl; try done.
  destruct (decide (a = b)); [done|].
  rewrite !lookup_view_heap.
  destruct (h !! a), (h !! b); simpl; by rewrite ?Hrec.
Qed.

Lemma DGNode_eq_view depth a b :
  ListObjects.DGNode_eq depth h ls a b
  = DGNode_eq depth (view_node ls <$> h) a b.
Proof.
  revert a b. induction depth as [|d IH]; intros a b; [done|].
  cbn [ListObjects.DGNode_eq DGNode_eq]. rewrite !lookup_view_heap.
  destruct (h !! a) as [na|] eqn:Ha, (h !! b) as [nb|] eqn:Hb; simpl; try done.
  destruct (list_eq_view na nb a b Ha Hb) as [-> ->].
  rewrite !(attr_eq_view (ListObjects.DGNode_eq d h ls)
              (DGNode_eq d (view_node ls <$> h))) by apply IH.
  reflexivity.
Qed.

Lemma list_contains_view depth path x :
  ListObjects.list_contains depth h ls path x
  = list_contains depth (view_node ls <$> h) path x.
Proof.
  induction path as [|e path IH]; simpl; [done|].
  destruct (decide (e = x)); [done|].
  rewrite DGNode_eq_view.
  by destruct (DGNode_eq depth (view_node ls <$> h) e x) as [[|]|].
Qed.

Lemma deref_walk_view fuel depth current path :
  ListObjects.deref_walk fuel depth h ls current path
  = deref_walk fuel depth (view_node ls <$> h) current path.
Proof.
  revert current path. induction fuel as [|fuel IH]; intros current path;
    simpl; rewrite lookup_view_heap, list_contains_view;
    destruct (h !! current) as [nd|]; simpl; try done;
    destruct (ListObjects.forward nd); try done;
    destruct (list_contains _ _ _ _) as [[|]|]; try done.
Qed.

End Agreement.

#[local] Existing Instance ListObjects.M_ret.
#[local] Existing Instance ListObjects.M_bind.

(** A call keeps every node there is, with its two list fields: the
    code assigns to [arc_list] or [comp_arc_list] of no node. *)
Definition kept (w w' : ListObjects.World) : Prop :=
  ∀ q nd, ListObjects.heap w !! q = Some nd →
    ∃ nd', ListObjects.heap w' !! q = Some nd'
           ∧ ListObjects.arc_list nd' = ListObjects.arc_list nd
           ∧ ListObjects.comp_arc_list nd' = ListObjects.comp_arc_list nd.

(** Agreement of two runs from related worlds, with the relation [R]
    between what they return. *)
Definition agree_with {A' A} (R : ListObjects.World → A' → A → Prop)
    (w : ListObjects.World) (o' : ListObjects.outcome A') (o : outcome A) :
    Prop :=
  match o', o with
  | ListObjects.Ok a' w', Ok a v =>
      R w' a' a ∧ view w' = v ∧ unshared w' ∧ kept w w'
  | ListObjects.Raise e' w', Raise e v =>
      e' = e ∧ view w' = v ∧ unshared w' ∧ kept w w'
  | _, _ => False
  end.

Definition same {A} : ListObjects.World → A → A → Prop := λ _ a' a, a' = a.

Lemma kept_refl w : kept w w.
Proof. intros q nd Hq. by exists nd. Qed.

Lemma kept_trans w1 w2 w3 : kept w1 w2 → kept w2 w3 → kept w1 w3.
Proof.
  intros H12 H23 q nd Hq.
  destruct (H12 q nd Hq) as (nd2 & Hq2 & Ha2 & Hc2).
  destruct (H23 q nd2 Hq2) as (nd3 & Hq3 & Ha3 & Hc3).
  exists nd3. split_and!; [done|congruence..].
Qed.

Lemma agree_bind {A' A B' B} (R : ListObjects.World → A' → A → Prop)
    (S : ListObjects.World → B' → B → Prop)
    (m' : ListObjects.M A') (m : M A)
    (k' : A' → ListObjects.M B') (k : A → M B) w :
  agree_with R w (m' w) (m (view w)) →
  (∀ a' a w1, unshared w1 → kept w w1 → R w1 a' a →
     agree_with S w1 (k' a' w1) (k a (view w1))) →
  agree_with S w ((m' ≫= k') w) ((m ≫= k) (view w)).
Proof.
  intros Hm Hk. rewrite ListObjects.run_bind, bind_unfold.
  destruct (m' w) as [a' w1|e' w1], (m (view w)) as [a v|e v];
    simpl in Hm; try done.
  destruct Hm as (HR & <- & Hun & Hkept).
  specialize (Hk a' a w1 Hun Hkept HR).
  destruct (k' a' w1) as [b' w2|e' w2], (k a (view w1)) as [b v|e v];
    simpl in *; try done;
    destruct Hk as (? & ? & ? & Hk2); split_and!; try done;
    by eapply kept_trans.
Qed.

Lemma agree_ret {A' A} (R : ListObjects.World → A' → A → Prop) a' a w :
  unshared w → R w a' a →
  agree_with R w (ListObjects.Ok a' w) (Ok a (view w)).
Proof. intros. split_and!; [done..|apply kept_refl]. Qed.

Lemma agree_raise {A' A} (R : ListObjects.World → A' → A → Prop) e w :
  unshared w →
  agree_with R w (ListObjects.Raise e w) (Raise e (view w)).
Proof. intros. split_and!; [done..|apply kept_refl]. Qed.

Lemma lookup_view w q :
  heap (view w) !! q
  = view_node (ListObjects.lists w) <$> ListObjects.heap w !! q.
Proof. apply lookup_fmap. Qed.

(** Reading a node changes nothing: the world after is the world
    before. *)
Lemma agree_get_node q w :
  unshared w →
  agree_with (λ w1 nd' nd, w1 = w
                           ∧ nd = view_node (ListObjects.lists w) nd'
                           ∧ ListObjects.heap w !! q = Some nd')
             w (ListObjects.get_node q w) (get_node q (view w)).
Proof.
  intros Hun. unfold ListObjects.get_node, get_node. rewrite lookup_view.
  destruct (ListObjects.heap w !! q) as [nd'|] eqn:Hq; simpl.
  - split_and!; [done..|apply kept_refl].
  - split_and!; [done..|apply kept_refl].
Qed.

(** Assigning to a field that is not a list field. *)
Lemma agree_assign q (f' : ListObjects.DGNode → ListObjects.DGNode)
    (f : DGNode → DGNode) w :
  (∀ ls nd, view_node ls (f' nd) = f (view_node ls nd)) →
  (∀ nd, ListObjects.arc_list (f' nd) = ListObjects.arc_list nd
         ∧ ListObjects.comp_arc_list (f' nd) = ListObjects.comp_arc_list nd) →
  unshared w →
  agree_with (λ _ _ _, True) w (ListObjects.assign q f' w)
             (assign q f (view w)).
Proof.
  intros Hf Hrefs Hun. unfold ListObjects.assign. rewrite assign_Ok.
  assert (∀ q' nd', alter f' q (ListObjects.heap w) !! q' = Some nd' →
            ∃ nd, ListObjects.heap w !! q' = Some nd
                  ∧ ListObjects.arc_list nd' = ListObjects.arc_list nd
                  ∧ ListObjects.comp_arc_list nd'
                    = ListObjects.comp_arc_list nd) as Hback.
  { intros q' nd'. destruct (decide (q = q')) as [<-|Hne].
    - rewrite lookup_alter_eq.
      destruct (ListObjects.heap w !! q) as [nd|]; [|done].
      simpl. intros [= <-]. exists nd. by destruct (Hrefs nd).
    - rewrite lookup_alter_ne by done. intros Hq'. by exists nd'. }
  split_and!.
  - done.
  - unfold view, with_heap. simpl. f_equal.
    apply map_eq. intros q'. rewrite lookup_fmap.
    destruct (decide (q = q')) as [<-|Hne].
    + rewrite !lookup_alter_eq, lookup_fmap.
      destruct (ListObjects.heap w !! q); simpl; by rewrite ?Hf.
    + by rewrite !lookup_alter_ne, lookup_fmap.
  - destruct Hun as [Hres Hpriv]. split.
    + intros q' nd' Hq'. simpl in Hq'.
      destruct (Hback _ _ Hq') as (nd & Hq & -> & ->). by apply (Hres q').
    + intros q1 q2 n1 n2 Hq1 Hq2 Hne. simpl in Hq1, Hq2.
      destruct (Hback _ _ Hq1) as (m1 & Hm1 & _ & Hc1).
      destruct (Hback _ _ Hq2) as (m2 & Hm2 & Ha2 & Hc2).
      rewrite Hc1, Hc2, Ha2. by apply (Hpriv q1 q2).
  - intros q' nd Hq'. simpl. destruct (decide (q = q')) as [<-|Hne].
    + rewrite lookup_alter_eq, Hq'. simpl. exists (f' nd).
      by destruct (Hrefs nd).
    + rewrite lookup_alter_ne by done. by exists nd.
Qed.

Lemma agree_next_generation w :
  unshared w →
  agree_with same w (ListObjects.next_generation w) (next_generation (view w)).
Proof.
  intros Hun. split_and!; [done..|]. intros q nd Hq. by exists nd.
Qed.

Lemma agree_for_each {A} (xs : list A) (body' : A → ListObjects.M unit)
    (body : A → M unit) w :
  unshared w →
  (∀ x w1, unshared w1 → kept w w1 →
     agree_with (λ _ _ _, True) w1 (body' x w1) (body x (view w1))) →
  agree_with (λ _ _ _, True) w (ListObjects.for_each xs body' w)
             (for_each xs body (view w)).
Proof.
  revert w. induction xs as [|x xs IH]; intros w Hun Hbody.
  - by apply agree_ret.
  - cbn [ListObjects.for_each for_each].
    apply (agree_bind (λ _ _ _, True) (λ _ _ _, True)).
    + apply Hbody; [done|apply kept_refl].
    + intros _ _ w1 Hun1 Hk1 _. apply IH; [done|].
      intros y w2 Hun2 Hk2. apply Hbody; [done|by eapply kept_trans].
Qed.

Lemma deref_walk_ends fuel depth (h : gmap nat ListObjects.DGNode) ls
    current path r path' :
  ListObjects.deref_walk fuel depth h ls current path = inr (r, path') →
  is_Some (h !! r).
Proof.
  revert current path. induction fuel as [|fuel IH]; intros current path; simpl;
    destruct (h !! current) as [nd|] eqn:Hc; try done;
    destruct (ListObjects.forward nd); try (intros [= <- <-]; by eexists);
    destruct (ListObjects.list_contains depth h ls path current) as [[|]|];
    try done.
  apply IH.
Qed.

Lemma agree_dereference depth n w :
  unshared w →
  agree_with (λ w1 r' r, r' = r ∧ is_Some (ListObjects.heap w1 !! r'))
             w (ListObjects.dereference depth n w)
             (dereference depth n (view w)).
Proof.
  intros Hun. unfold ListObjects.dereference, dereference.
  change (heap (view w)) with (view_node (ListObjects.lists w)
                                 <$> ListObjects.heap w).
  rewrite map_size_fmap, <- (deref_walk_view _ _ Hun).
  destruct (ListObjects.deref_walk _ _ _ _ _ _) as [e|[current path]] eqn:Hw.
  - by apply agree_raise.
  - apply deref_walk_ends in Hw.
    apply (agree_bind (λ _ _ _, True)
             (λ w1 r' r, r' = r ∧ is_Some (ListObjects.heap w1 !! r'))
             (ListObjects.for_each path
                (λ q, ListObjects.assign q (ListObjects.set_forward (Some current))))
             (for_each path (λ q, assign q (set_forward (Some current))))
             (λ _, mret current) (λ _, mret current)).
    + apply agree_for_each; [done|]. intros q w1 Hun1 _.
      by apply agree_assign.
    + intros _ _ w1 Hun1 Hk1 _. apply agree_ret; [done|].
      split; [done|]. destruct Hw as [nd Hnd].
      destruct (Hk1 _ _ Hnd) as (nd' & Hnd' & _). by eexists.
Qed.

Lemma view_node_set_forward ls f nd :
  view_node ls (ListObjects.set_forward f nd) = set_forward f (view_node ls nd).
Proof. reflexivity. Qed.

Lemma view_node_set_generation ls g nd :
  view_node ls (ListObjects.set_generation g nd)
  = set_generation g (view_node ls nd).
Proof. reflexivity. Qed.

Lemma agree_set_forward q f w :
  unshared w →
  agree_with (λ _ _ _, True) w
    (ListObjects.assign q (ListObjects.set_forward f) w)
    (assign q (set_forward f) (view w)).
Proof. intros. by apply agree_assign. Qed.

Lemma agree_set_generation q g w :
  unshared w →
  agree_with (λ _ _ _, True) w
    (ListObjects.assign q (ListObjects.set_generation g) w)
    (assign q (set_generation g) (view w)).
Proof. intros. by apply agree_assign. Qed.

(** The join writes.  This is where the lists matter: extending the
    list object changes the [comp_arc_list] of [dg1] in the view, and of
    no other node, because no other field holds that object. *)
Lemma agree_finish_join dg1 dg2 new_arcs w nd1 :
  unshared w → ListObjects.heap w !! dg1 = Some nd1 →
  agree_with same w
    (ListObjects.finish_join dg1 dg2 new_arcs w)
    ((_ ← assign dg1 (extend_comp_arc_list new_arcs);
      g ← next_generation;
      _ ← assign dg1 (set_generation g);
      _ ← assign dg1 (set_forward (Some dg2));
      mret true) (view w)).
Proof.
  intros [Hres Hpriv] Hn.
  destruct (Hres _ _ Hn) as ([arcs1 Ha] & [comp1 Hc] & Hac).
  rewrite (ListObjects.run_finish_join dg1 dg2 nd1 comp1 new_arcs w Hn Hc).
  rewrite (join_writes dg1 dg2 new_arcs
             (view_node (ListObjects.lists w) nd1) (view w))
    by (by rewrite lookup_view, Hn).
  assert (∀ q nd, ListObjects.heap w !! q = Some nd → q ≠ dg1 →
            view_node (<[ListObjects.comp_arc_list nd1 := comp1 ++ new_arcs]>
                         (ListObjects.lists w)) nd
            = view_node (ListObjects.lists w) nd) as Hother.
  { intros q nd Hq Hne.
    destruct (Hpriv dg1 q nd1 nd Hn Hq) as [Hcc Hca]; [done|].
    unfold view_node. by rewrite !lookup_insert_ne. }
  split_and!.
  - done.
  - unfold view, ListObjects.joined. simpl. f_equal.
    apply map_eq. intros q. rewrite lookup_fmap.
    destruct (decide (dg1 = q)) as [<-|Hne].
    + rewrite !lookup_insert_eq. simpl. f_equal.
      unfold view_node, joined_node, extend_comp_arc_list, set_comp_arc_list,
        set_generation, set_forward. simpl.
      rewrite lookup_insert_ne, lookup_insert_eq, Ha, Hc by done.
      reflexivity.
    + rewrite !lookup_insert_ne, lookup_fmap by done.
      destruct (ListObjects.heap w !! q) as [nd|] eqn:Hq; [|done].
      simpl. f_equal. by apply (Hother q).
  - split.
    + intros q nd Hq. simpl in Hq.
      assert (∃ nd0, ListObjects.heap w !! q = Some nd0
                     ∧ ListObjects.arc_list nd = ListObjects.arc_list nd0
                     ∧ ListObjects.comp_arc_list nd
                       = ListObjects.comp_arc_list nd0) as (nd0 & Hq0 & -> & ->).
      { destruct (decide (dg1 = q)) as [<-|Hne].
        - rewrite lookup_insert_eq in Hq. injection Hq as <-. by exists nd1.
        - rewrite lookup_insert_ne in Hq by done. by exists nd. }
      destruct (Hres _ _ Hq0) as (Hra & Hrc & Hne). simpl.
      split_and!; [| |done].
      * destruct (decide (ListObjects.comp_arc_list nd1
                          = ListObjects.arc_list nd0)) as [<-|?];
          [by rewrite lookup_insert_eq|by rewrite lookup_insert_ne].
      * destruct (decide (ListObjects.comp_arc_list nd1
                          = ListObjects.comp_arc_list nd0)) as [<-|?];
          [by rewrite lookup_insert_eq|by rewrite lookup_insert_ne].
    + intros q1 q2 n1 n2 Hq1 Hq2 Hne. simpl in Hq1, Hq2.
      assert (∀ q nd, <[dg1 := ListObjects.set_forward (Some dg2)
                                 (ListObjects.set_generation
                                    (ListObjects.counter w + 1)%Z nd1)]>
                        (ListObjects.heap w) !! q = Some nd →
                ∃ nd0, ListObjects.heap w !! q = Some nd0
                       ∧ ListObjects.arc_list nd = ListObjects.arc_list nd0
                       ∧ ListObjects.comp_arc_list nd
                         = ListObjects.comp_arc_list nd0) as Hback.
      { intros q nd. destruct (decide (dg1 = q)) as [<-|Hq].
        - rewrite lookup_insert_eq. intros [= <-]. by exists nd1.
        - rewrite lookup_insert_ne by done. intros ?. by exists nd. }
      destruct (Hback _ _ Hq1) as (m1 & Hm1 & _ & Hc1).
      destruct (Hback _ _ Hq2) as (m2 & Hm2 & Ha2 & Hc2).
      rewrite Hc1, Hc2, Ha2. by apply (Hpriv q1 q2).
  - intros q nd Hq. simpl. destruct (decide (dg1 = q)) as [<-|Hne].
    + rewrite lookup_insert_eq. eexists. split; [done|].
      rewrite Hn in Hq. by injection Hq as <-.
    + rewrite lookup_insert_ne by done. by exists nd.
Qed.

(** One round of the loop over the shared arcs. *)
Lemma agree_loop_body d dg1 arc w :
  (∀ node1 node2 w1, unshared w1 →
     agree_with same w1 (ListObjects.unify_core d node1 node2 w1)
                (unify_core d node1 node2 (view w1))) →
  unshared w →
  agree_with (λ _ _ _, True) w
    (ListObjects.loop_body (ListObjects.unify_core d) dg1 arc w)
    ((cur1 ← get_node dg1;
      match find_arc (label arc) (arc_list cur1) with
      | Some arc1 => _ ← unify_core d (value arc1) (value arc); mret tt
      | None => mret tt
      end) (view w)).
Proof.
  intros IH Hun. unfold ListObjects.loop_body.
  eapply agree_bind; [by apply agree_get_node|].
  intros cur1 ? ? _ _ (-> & -> & Hcur). simpl.
  destruct Hun as [Hres Hpriv].
  destruct (Hres _ _ Hcur) as ([arcs Harcs] & _ & _).
  rewrite (ListObjects.run_bind_Ok _ _ _ _ _
             (ListObjects.run_get_list _ _ _ Harcs)).
  rewrite Harcs. simpl.
  destruct (find_arc (label arc) arcs) as [arc1|].
  - eapply agree_bind; [by apply IH|].
    intros _ _ w1 Hun1 _ _. by apply agree_ret.
  - by apply agree_ret.
Qed.

(** The first embedding of [unify_core] is the second seen through the
    lists, on every path, as long as no [comp_arc_list] is shared. *)
Theorem unify_core_agree depth node1 node2 w :
  unshared w →
  agree_with same w (ListObjects.unify_core depth node1 node2 w)
             (unify_core depth node1 node2 (view w)).
Proof.
  revert node1 node2 w. induction depth as [|d IH]; intros node1 node2 w Hun.
  - by apply agree_raise.
  - cbn [ListObjects.unify_core unify_core].
    eapply agree_bind; [by apply agree_dereference|].
    intros dg1 ? w1 Hun1 _ [<- _]. cbv beta.
    eapply agree_bind; [by apply agree_dereference|].
    intros dg2 ? w2 Hun2 _ [<- _]. cbv beta.
    destruct (decide (dg1 = dg2)); [by apply agree_ret|].
    eapply agree_bind; [by apply agree_get_node|].
    intros nd1 ? ? _ _ (-> & -> & Hn1). cbv beta.
    eapply agree_bind; [by apply agree_get_node|].
    intros nd2 ? ? _ _ (-> & -> & Hn2). cbv beta.
    change (is_leaf_node (view_node (ListObjects.lists w2) nd1))
      with (ListObjects.is_leaf_node nd1).
    change (is_leaf_node (view_node (ListObjects.lists w2) nd2))
      with (ListObjects.is_leaf_node nd2).
    destruct (ListObjects.is_leaf_node nd1 && ListObjects.is_leaf_node nd2).
    { cbn [name view_node].
      destruct (decide (ListObjects.name nd1 = ListObjects.name nd2));
        [by apply agree_ret|by apply agree_raise]. }
    destruct (ListObjects.is_leaf_node nd1).
    { eapply agree_bind; [by apply agree_set_forward|].
      intros _ _ w5 Hun5 _ _. cbv beta.
      eapply agree_bind; [by apply agree_next_generation|].
      intros g ? w6 Hun6 _ <-. cbv beta.
      eapply agree_bind; [by apply agree_set_generation|].
      intros _ _ w7 Hun7 _ _. by apply agree_ret. }
    destruct (ListObjects.is_leaf_node nd2).
    { eapply agree_bind; [by apply agree_set_forward|].
      intros _ _ w5 Hun5 _ _. cbv beta.
      eapply agree_bind; [by apply agree_next_generation|].
      intros g ? w6 Hun6 _ <-. cbv beta.
      eapply agree_bind; [by apply agree_set_generation|].
      intros _ _ w7 Hun7 _ _. by apply agree_ret. }
    pose proof Hun2 as [Hres _].
    destruct (Hres _ _ Hn1) as ([arcs1 Harcs1] & _ & _).
    destruct (Hres _ _ Hn2) as ([arcs2 Harcs2] & _ & _).
    rewrite (ListObjects.run_bind_Ok _ _ _ _ _
               (ListObjects.run_get_list _ _ _ Harcs1)).
    rewrite (ListObjects.run_bind_Ok _ _ _ _ _
               (ListObjects.run_get_list _ _ _ Harcs2)).
    cbn [arc_list view_node]. rewrite Harcs1, Harcs2.
    cbn [default from_option id].
    destruct (intersect_arcs arcs1 arcs2) as [|a l].
    + by apply (agree_finish_join dg1 dg2 _ w2 nd1).
    + eapply agree_bind.
      * apply agree_for_each; [done|]. intros arc w3 Hun3 _.
        by apply agree_loop_body.
      * intros _ _ w3 Hun3 Hk3 _. cbv beta.
        destruct (Hk3 _ _ Hn1) as (nd1' & Hn1' & _).
        by apply (agree_finish_join dg1 dg2 _ w3 nd1').
Qed.

(** ** The copy step and the top-level call *)

Lemma copy_with_comp_arcs_at node nd v :
  heap v !! node = Some nd →
  copy_with_comp_arcs false node v
  = Ok (fresh (dom (heap v)))
       (with_heap (<[fresh (dom (heap v)) := copied_node nd]> (heap v)) v).
Proof.
  intros Hn. unfold copy_with_comp_arcs.
  rewrite bind_unfold. simpl.
  rewrite bind_unfold, (get_node_Some _ _ _ Hn).
  rewrite bind_unfold. unfold alloc.
  set (r := fresh (dom (heap v))) in *.
  rewrite bind_unfold. unfold get_node at 1. simpl.
  rewrite lookup_insert_eq.
  repeat (rewrite bind_unfold; simpl).
  rewrite !alter_insert_eq. reflexivity.
Qed.

(** A list identity that the store does not hold is no list field of
    any node. *)
Lemma unshared_fresh w l q nd :
  unshared w → ListObjects.lists w !! l = None →
  ListObjects.heap w !! q = Some nd →
  ListObjects.arc_list nd ≠ l ∧ ListObjects.comp_arc_list nd ≠ l.
Proof.
  intros [Hres _] Hl Hq. destruct (Hres _ _ Hq) as ([? Ha] & [? Hc] & _).
  split; intros Heq; rewrite Heq in *; congruence.
Qed.

(** A new node whose [comp_arc_list] is a new list, and whose
    [arc_list] is no [comp_arc_list] of a node there is: the lists stay
    unshared, and in the view one node has been added. *)
Lemma unshared_insert_node w r nd ls' :
  unshared w →
  ListObjects.heap w !! r = None →
  (∀ l, is_Some (ListObjects.lists w !! l) →
        ls' !! l = ListObjects.lists w !! l) →
  is_Some (ls' !! ListObjects.arc_list nd) →
  is_Some (ls' !! ListObjects.comp_arc_list nd) →
  ListObjects.arc_list nd ≠ ListObjects.comp_arc_list nd →
  ListObjects.lists w !! ListObjects.comp_arc_list nd = None →
  (∀ q ndq, ListObjects.heap w !! q = Some ndq →
            ListObjects.comp_arc_list ndq ≠ ListObjects.arc_list nd) →
  let w' := ListObjects.mkWorld (<[r := nd]> (ListObjects.heap w)) ls'
              (ListObjects.counter w) (ListObjects.shared_structures w) in
  view w' = with_heap (<[r := view_node ls' nd]> (heap (view w))) (view w)
  ∧ unshared w' ∧ kept w w'.
Proof.
  intros Hun Hr Hsame Ha Hc Hac Hfresh Hnotcomp w'.
  pose proof Hun as [Hres Hpriv].
  assert (∀ q ndq, ListObjects.heap w !! q = Some ndq →
            ls' !! ListObjects.arc_list ndq
            = ListObjects.lists w !! ListObjects.arc_list ndq
            ∧ ls' !! ListObjects.comp_arc_list ndq
              = ListObjects.lists w !! ListObjects.comp_arc_list ndq) as Hold.
  { intros q ndq Hq. destruct (Hres _ _ Hq) as (? & ? & _).
    split; by apply Hsame. }
  assert (∀ q ndq, <[r := nd]> (ListObjects.heap w) !! q = Some ndq →
            (q = r ∧ ndq = nd)
            ∨ (q ≠ r ∧ ListObjects.heap w !! q = Some ndq)) as Hcases.
  { intros q ndq. destruct (decide (r = q)) as [<-|Hq].
    - rewrite lookup_insert_eq. intros [= <-]. by left.
    - rewrite lookup_insert_ne by done. intros ?. by right. }
  split_and!.
  - unfold view, with_heap. simpl. f_equal. rewrite fmap_insert. f_equal.
    apply map_fmap_ext. intros q ndq Hq.
    destruct (Hold _ _ Hq) as [Ha' Hc']. unfold view_node. by rewrite Ha', Hc'.
  - split.
    + intros q ndq Hq. simpl in Hq. simpl.
      destruct (Hcases _ _ Hq) as [[_ ->]|[_ Hq']]; [done|].
      destruct (Hold _ _ Hq') as [-> ->]. by apply (Hres q).
    + intros q1 q2 n1 n2 Hq1 Hq2 Hq12. simpl in Hq1, Hq2.
      destruct (Hcases _ _ Hq1) as [[-> ->]|[Hr1 Hq1']],
               (Hcases _ _ Hq2) as [[-> ->]|[Hr2 Hq2']].
      * done.
      * destruct (Hres _ _ Hq2') as ([? ?] & [? ?] & _).
        split; intros Heq; rewrite Heq in Hfresh; congruence.
      * destruct (Hres _ _ Hq1') as (_ & [? ?] & _).
        split; [|by apply (Hnotcomp q1)].
        intros Heq. rewrite <- Heq in Hfresh. congruence.
      * by apply (Hpriv q1 q2).
  - intros q ndq Hq. simpl. exists ndq.
    rewrite lookup_insert_ne; [done|]. intros <-. congruence.
Qed.

Lemma agree_copy_with_comp_arcs node w :
  unshared w →
  agree_with same w (ListObjects.copy_with_comp_arcs false node w)
             (copy_with_comp_arcs false node (view w)).
Proof.
  intros Hun.
  destruct (ListObjects.heap w !! node) as [nd|] eqn:Hn.
  - pose proof Hun as [Hres Hpriv].
    destruct (Hres _ _ Hn) as ([al Hal] & [cl Hcl] & Hne).
    destruct (ListObjects.run_copy_with_comp_arcs node nd al cl w Hn Hal Hcl)
      as (-> & Hr & Hla & Hlc & Hlalc).
    rewrite (copy_with_comp_arcs_at node (view_node (ListObjects.lists w) nd))
      by (by rewrite lookup_view, Hn).
    set (la := fresh (dom (ListObjects.lists w))) in *.
    set (lc := fresh (dom (<[la := al]> (ListObjects.lists w)))) in *.
    assert (dom (heap (view w)) = dom (ListObjects.heap w)) as ->
      by apply dom_fmap_L.
    set (r := fresh (dom (ListObjects.heap w))) in *.
    destruct (unshared_insert_node w r
                (ListObjects.mkDGNode (ListObjects.node_type nd) la lc
                   None None 0 None (ListObjects.name nd))
                (<[lc := []]> (<[la := al ++ cl]> (ListObjects.lists w))))
      as (Hview & Hun' & Hkept); try done.
    + intros l [x Hl]. rewrite !lookup_insert_ne; [done|congruence..].
    + simpl. rewrite lookup_insert_ne, lookup_insert_eq by done. by eexists.
    + simpl. rewrite lookup_insert_eq. by eexists.
    + intros q ndq Hq. simpl.
      by destruct (unshared_fresh w la q ndq Hun Hla Hq).
    + split_and!; [done| |done|done].
      rewrite Hview. f_equal. f_equal. f_equal.
      unfold view_node, copied_node. simpl.
      rewrite lookup_insert_eq, lookup_insert_ne, lookup_insert_eq by done.
      by rewrite Hal, Hcl.
  - unfold ListObjects.copy_with_comp_arcs, copy_with_comp_arcs.
    rewrite ListObjects.run_bind, bind_unfold. simpl.
    rewrite ListObjects.run_bind, bind_unfold.
    unfold ListObjects.get_node, get_node. rewrite lookup_view, Hn. simpl.
    split_and!; [done..|apply kept_refl].
Qed.

(** The top-level call, structure sharing off: the two embeddings
    return the same node or the same failure, and leave related
    worlds. *)
Theorem unify_agree depth node1 node2 w :
  unshared w →
  agree_with same w (ListObjects.unify false depth node1 node2 w)
             (unify false depth node1 node2 (view w)).
Proof.
  intros Hun. rewrite ListObjects.run_unify, unify_unfold.
  pose proof (unify_core_agree depth node1 node2 w Hun) as Hcore.
  destruct (ListObjects.unify_core depth node1 node2 w) as [b' w1|e' w1],
           (unify_core depth node1 node2 (view w)) as [b v|e v];
    simpl in Hcore; try done;
    destruct Hcore as (<- & <- & Hun1 & Hk1).
  - destruct b'.
    + pose proof (agree_copy_with_comp_arcs node1 w1 Hun1) as Hcopy.
      destruct (ListObjects.copy_with_comp_arcs false node1 w1)
        as [r' w2|e2' w2],
               (copy_with_comp_arcs false node1 (view w1)) as [r v2|e2 v2];
        simpl in Hcopy; try done;
        destruct Hcopy as (<- & <- & Hun2 & Hk2).
      * split_and!; [done..|by eapply kept_trans].
      * destruct e2'; simpl; (split_and!; [done..|by eapply kept_trans]).
    + by split_and!.
  - destruct e'; simpl; by split_and!.
Qed.

(** ** The constructors

    Nodes made by the constructors keep the lists unshared, as long as
    the list handed to [create_complex_node] is not the [comp_arc_list]
    of a node. *)

Lemma unshared_empty_world : unshared ListObjects.empty_world.
Proof.
  split.
  - intros q nd Hq. simpl in Hq. by rewrite lookup_empty in Hq.
  - intros q q' nd nd' Hq. simpl in Hq. by rewrite lookup_empty in Hq.
Qed.

(** A list display makes a list no node holds yet; the view does not
    show it. *)
Lemma new_list_unshared arcs w :
  unshared w →
  let l := fresh (dom (ListObjects.lists w)) in
  let w' := ListObjects.with_lists (<[l := arcs]> (ListObjects.lists w)) w in
  ListObjects.new_list arcs w = ListObjects.Ok l w'
  ∧ ListObjects.lists w !! l = None
  ∧ view w' = view w ∧ unshared w'
  ∧ ∀ q nd, ListObjects.heap w' !! q = Some nd →
            ListObjects.comp_arc_list nd ≠ l.
Proof.
  intros Hun l w'.
  assert (ListObjects.lists w !! l = None) as Hl
    by apply not_elem_of_dom, is_fresh.
  split_and!; [done|done| | |].
  - unfold view. simpl. f_equal. apply map_fmap_ext. intros q nd Hq.
    destruct (unshared_fresh w l q nd Hun Hl Hq) as [? ?].
    unfold view_node. by rewrite !lookup_insert_ne.
  - destruct Hun as [Hres Hpriv]. split; [|done].
    intros q nd Hq. simpl in *.
    destruct (unshared_fresh w l q nd (conj Hres Hpriv) Hl Hq) as [? ?].
    rewrite !lookup_insert_ne by done. by apply (Hres q).
  - intros q nd Hq. by destruct (unshared_fresh w l q nd Hun Hl Hq).
Qed.

Lemma agree_create_leaf_node nm w :
  unshared w →
  agree_with same w (ListObjects.create_leaf_node nm w)
             (create_leaf_node nm (view w)).
Proof.
  intros Hun. unfold ListObjects.create_leaf_node, ListObjects.new_list.
  rewrite !ListObjects.run_bind. cbv beta iota zeta.
  set (al := fresh (dom (ListObjects.lists w))).
  set (w1 := ListObjects.with_lists (<[al := []]> (ListObjects.lists w)) w).
  set (cl := fresh (dom (ListObjects.lists w1))).
  assert (ListObjects.lists w !! al = None) as Hal
    by apply not_elem_of_dom, is_fresh.
  assert (ListObjects.lists w1 !! cl = None) as Hcl
    by apply not_elem_of_dom, is_fresh.
  simpl in Hcl. apply lookup_insert_None in Hcl as [Hcl Hne].
  unfold ListObjects.alloc, create_leaf_node, alloc. simpl.
  assert (dom (heap (view w)) = dom (ListObjects.heap w)) as Hdom
    by apply dom_fmap_L.
  change (dom (view_node (ListObjects.lists w) <$> ListObjects.heap w))
    with (dom (heap (view w))). rewrite Hdom.
  set (r := fresh (dom (ListObjects.heap w))).
  assert (ListObjects.heap w !! r = None) as Hr
    by apply not_elem_of_dom, is_fresh.
  destruct (unshared_insert_node w r
              (ListObjects.mkDGNode LEAF al cl None None 0 None (Some nm))
              (<[cl := []]> (<[al := []]> (ListObjects.lists w))))
    as (Hview & Hun' & Hkept); try done.
  - intros l [x Hl]. rewrite !lookup_insert_ne; [done|congruence..].
  - simpl. rewrite lookup_insert_ne, lookup_insert_eq by done. by eexists.
  - simpl. rewrite lookup_insert_eq. by eexists.
  - intros q ndq Hq. simpl.
    by destruct (unshared_fresh w al q ndq Hun Hal Hq).
  - split_and!; [done| |done|done].
    unfold ListObjects.with_heap, ListObjects.with_lists. simpl.
    rewrite Hview. unfold with_heap. simpl. f_equal. f_equal.
    unfold view_node, leaf_node. simpl.
    by rewrite lookup_insert_eq, lookup_insert_ne, lookup_insert_eq.
Qed.

Lemma agree_create_complex_node l arcs w :
  unshared w →
  ListObjects.lists w !! l = Some arcs →
  (∀ q nd, ListObjects.heap w !! q = Some nd →
           ListObjects.comp_arc_list nd ≠ l) →
  agree_with same w (ListObjects.create_complex_node l w)
             (create_complex_node arcs (view w)).
Proof.
  intros Hun Hl Hnotcomp.
  unfold ListObjects.create_complex_node, ListObjects.new_list.
  rewrite !ListObjects.run_bind. cbv beta iota zeta.
  set (cl := fresh (dom (ListObjects.lists w))).
  assert (ListObjects.lists w !! cl = None) as Hcl
    by apply not_elem_of_dom, is_fresh.
  assert (l ≠ cl) as Hne by (intros ->; congruence).
  unfold ListObjects.alloc, create_complex_node, alloc. simpl.
  assert (dom (heap (view w)) = dom (ListObjects.heap w)) as Hdom
    by apply dom_fmap_L.
  change (dom (view_node (ListObjects.lists w) <$> ListObjects.heap w))
    with (dom (heap (view w))). rewrite Hdom.
  set (r := fresh (dom (ListObjects.heap w))).
  assert (ListObjects.heap w !! r = None) as Hr
    by apply not_elem_of_dom, is_fresh.
  destruct (unshared_insert_node w r
              (ListObjects.mkDGNode COMPLEX l cl None None 0 None None)
              (<[cl := []]> (ListObjects.lists w)))
    as (Hview & Hun' & Hkept); try done.
  - intros l' [x Hl']. rewrite lookup_insert_ne; [done|congruence].
  - simpl. rewrite lookup_insert_ne by done. by eexists.
  - simpl. rewrite lookup_insert_eq. by eexists.
  - split_and!; [done| |done|done].
    unfold ListObjects.with_heap, ListObjects.with_lists. simpl.
    rewrite Hview. unfold with_heap. simpl. f_equal. f_equal.
    unfold view_node, complex_node. simpl.
    by rewrite lookup_insert_ne, lookup_insert_eq, Hl.
Qed.
